(** * A D2Q9 lattice-Boltzmann solver with tracer particles

    Shallow embedding of [LBM.py] and verification of its specification.

    Numbers.  The program computes with double-precision floats; the
    embedding computes with exact rationals ([Q] with [==]), which is the
    arithmetic the specification reasons in.  A division by a zero density
    produces a non-finite float in the program; the rationals have no such
    value, so what is said about the abort of an iteration is said for
    density fields without a zero.

    Arrays.  A numpy array of shape [(a, b)] is a list of [a] rows of [b]
    entries, one of shape [(a, b, 9)] a list of rows of cells of nine
    populations.  The arrays of a model all have the shape of its grid
    ([fluid_shapes], [geometry]); the results assume it where they need it.

    Effects.  A method is a function from the model to a result, which is
    the model it leaves and either a value or the exception raised: the
    stability assertion, a division by a zero [tau] or [spawn_rate], the
    [ValueError] of a reduction of an empty array, of an operand that does
    not broadcast, of [randint(0)] and of an interpolation outside of the
    grid, and the [IndexError] of an integer index out of range. *)

From Stdlib Require Import QArith Qround Lqa ZArith.
From stdpp Require Import base option list gmap strings.

Open Scope Q_scope.

(** ** Module-level constants *)

Definition ITERATIONS : nat := 1000.

(** [c]: the nine offset vectors; [w]: their weights; [NQ] is the program's
    [Q = 9] (renamed, [Q] being the type of rationals here). *)
Definition c : list (Z * Z) :=
  [(0, 0); (1, 0); (0, 1); (-1, 0); (0, -1); (1, 1); (-1, 1); (-1, -1); (1, -1)]%Z.
Definition w : list Q :=
  [4 # 9; 1 # 9; 1 # 9; 1 # 9; 1 # 9; 1 # 36; 1 # 36; 1 # 36; 1 # 36].
Definition NQ : nat := 9.

Definition susceptible_centroids : list (Z * Z) :=
  [(18, 93); (79, 80); (79, 51); (80, 26); (49, 5)]%Z.
Definition NUM_SUSCEP_CENTROIDS : nat := length susceptible_centroids.

(** [c[i, 0]], [c[i, 1]] and [w[i]], as numbers of the computation. *)
Definition c0 (i : nat) : Q := inject_Z (fst (nth i c (0, 0)%Z)).
Definition c1 (i : nat) : Q := inject_Z (snd (nth i c (0, 0)%Z)).
Definition w_ (i : nat) : Q := nth i w 0.

(** ** Arrays *)

Abbreviation grid A := (list (list A)).

Definition zeros (n m : nat) : grid Q := replicate n (replicate m 0).

(** [a[:, i]] and [a[:, i] = v] for a two-dimensional array. *)
Definition col (i : nat) (a : grid Q) : list Q := (λ row, nth i row 0) <$> a.
Definition set_col (i : nat) (v : list Q) (a : grid Q) : grid Q :=
  zip_with (λ row x, <[i := x]> row) a v.

(** The entry [a[k, i]], [None] out of range. *)
Definition entry {A} (a : grid A) (k i : nat) : option A := a !! k ≫= (.!! i).

(** [a.flatten()] and [a.reshape((n, m))] (row-major). *)
Definition flatten {A} (a : grid A) : list A := mjoin a.
Fixpoint reshape {A} (n m : nat) (l : list A) : grid A :=
  match n with
  | O => []
  | S n' => take m l :: reshape n' m (drop m l)
  end.

(** An argument of an elementwise computation: a Python scalar or a
    one-dimensional array.  [broadcast n a] is [a] as [n] values, [None]
    where numpy raises [ValueError] (an array that is neither of length [n]
    nor of length 1). *)
Inductive operand : Type :=
| Scalar (q : Q)
| Array (l : list Q).

Definition broadcast (n : nat) (a : operand) : option (list Q) :=
  match a with
  | Scalar q => Some (replicate n q)
  | Array l =>
      if decide (length l = n) then Some l
      else match l with
           | [q] => Some (replicate n q)
           | _ => None
           end
  end.

Definition zip3_with {A B C D} (g : A → B → C → D)
    (l1 : list A) (l2 : list B) (l3 : list C) : list D :=
  zip_with (λ ab z, g ab.1 ab.2 z) (zip l1 l2) l3.

(** ** The model object *)

Record LBM : Type := mkLBM {
  width : nat;
  height : nat;
  map_scaling_factor : Q;
  wall : grid bool;
  inlet : grid bool;
  outlet : grid bool;
  infected : grid bool;
  susceptible : grid bool;
  spawn_rate : nat;
  spawn_amount_at_rate : nat;
  num_particles : nat;
  particle_nr : nat;
  u_lb : Q;
  cssq : Q;
  tau : Q;
  rho : grid Q;
  ux : grid Q;
  uy : grid Q;
  f : grid (list Q);
  particle_locations : list (Q * Q);
  infections : grid Q;
  removed : list Q;
  particles_exited : gset nat;
  stdout : list string
}.

(** In-place assignment to an attribute of the model. *)
Definition set_moments (r x y : grid Q) (s : LBM) : LBM :=
  mkLBM (width s) (height s) (map_scaling_factor s) (wall s) (inlet s)
    (outlet s) (infected s) (susceptible s) (spawn_rate s)
    (spawn_amount_at_rate s) (num_particles s) (particle_nr s) (u_lb s)
    (cssq s) (tau s) r x y (f s) (particle_locations s) (infections s)
    (removed s) (particles_exited s) (stdout s).

Definition set_velocity (x y : grid Q) (s : LBM) : LBM :=
  set_moments (rho s) x y s.

Definition set_f (v : grid (list Q)) (s : LBM) : LBM :=
  mkLBM (width s) (height s) (map_scaling_factor s) (wall s) (inlet s)
    (outlet s) (infected s) (susceptible s) (spawn_rate s)
    (spawn_amount_at_rate s) (num_particles s) (particle_nr s) (u_lb s)
    (cssq s) (tau s) (rho s) (ux s) (uy s) v (particle_locations s)
    (infections s) (removed s) (particles_exited s) (stdout s).

Definition set_particle_nr (v : nat) (s : LBM) : LBM :=
  mkLBM (width s) (height s) (map_scaling_factor s) (wall s) (inlet s)
    (outlet s) (infected s) (susceptible s) (spawn_rate s)
    (spawn_amount_at_rate s) (num_particles s) v (u_lb s)
    (cssq s) (tau s) (rho s) (ux s) (uy s) (f s) (particle_locations s)
    (infections s) (removed s) (particles_exited s) (stdout s).

Definition set_particle_locations (v : list (Q * Q)) (s : LBM) : LBM :=
  mkLBM (width s) (height s) (map_scaling_factor s) (wall s) (inlet s)
    (outlet s) (infected s) (susceptible s) (spawn_rate s)
    (spawn_amount_at_rate s) (num_particles s) (particle_nr s) (u_lb s)
    (cssq s) (tau s) (rho s) (ux s) (uy s) (f s) v
    (infections s) (removed s) (particles_exited s) (stdout s).

Definition set_infections (v : grid Q) (s : LBM) : LBM :=
  mkLBM (width s) (height s) (map_scaling_factor s) (wall s) (inlet s)
    (outlet s) (infected s) (susceptible s) (spawn_rate s)
    (spawn_amount_at_rate s) (num_particles s) (particle_nr s) (u_lb s)
    (cssq s) (tau s) (rho s) (ux s) (uy s) (f s) (particle_locations s)
    v (removed s) (particles_exited s) (stdout s).

Definition set_removed (v : list Q) (s : LBM) : LBM :=
  mkLBM (width s) (height s) (map_scaling_factor s) (wall s) (inlet s)
    (outlet s) (infected s) (susceptible s) (spawn_rate s)
    (spawn_amount_at_rate s) (num_particles s) (particle_nr s) (u_lb s)
    (cssq s) (tau s) (rho s) (ux s) (uy s) (f s) (particle_locations s)
    (infections s) v (particles_exited s) (stdout s).

Definition set_particles_exited (v : gset nat) (s : LBM) : LBM :=
  mkLBM (width s) (height s) (map_scaling_factor s) (wall s) (inlet s)
    (outlet s) (infected s) (susceptible s) (spawn_rate s)
    (spawn_amount_at_rate s) (num_particles s) (particle_nr s) (u_lb s)
    (cssq s) (tau s) (rho s) (ux s) (uy s) (f s) (particle_locations s)
    (infections s) (removed s) v (stdout s).

Definition set_stdout (v : list string) (s : LBM) : LBM :=
  mkLBM (width s) (height s) (map_scaling_factor s) (wall s) (inlet s)
    (outlet s) (infected s) (susceptible s) (spawn_rate s)
    (spawn_amount_at_rate s) (num_particles s) (particle_nr s) (u_lb s)
    (cssq s) (tau s) (rho s) (ux s) (uy s) (f s) (particle_locations s)
    (infections s) (removed s) (particles_exited s) v.

(** ** Exceptions and the state of the model

    A method mutates [self] and may raise; what it had written to [self]
    before raising stays written.  [AssertionError] carries the index triple
    that the message of the stability assertion prints. *)

Inductive exn : Type :=
| AssertionError (at_index : nat * nat * nat)
| ZeroDivisionError
| ValueError
| IndexError.

Inductive result (A : Type) : Type :=
| Ok (a : A) (s : LBM)
| Raise (e : exn) (s : LBM).
Arguments Ok {A} a s.
Arguments Raise {A} e s.

Definition M (A : Type) : Type := LBM → result A.

#[export] Instance M_ret : MRet M := λ A a s, Ok a s.
#[export] Instance M_bind : MBind M := λ A B k m s,
  match m s with
  | Ok a s' => k a s'
  | Raise e s' => Raise e s'
  end.

Definition raise {A} (e : exn) : M A := λ s, Raise e s.
Definition read {A} (g : LBM → A) : M A := λ s, Ok (g s) s.
Definition modify (g : LBM → LBM) : M unit := λ s, Ok () (g s).
Definition check {A} (e : exn) (o : option A) : M A :=
  match o with Some a => mret a | None => raise e end.

(** [for x in l: body x]. *)
Fixpoint for_each {A} (l : list A) (body : A → M unit) : M unit :=
  match l with
  | [] => mret ()
  | x :: l' => _ ← body x; for_each l' body
  end.

(** [try: m  except: handler] with a bare [except]. *)
Definition try_except (m handler : M unit) : M unit := λ s,
  match m s with
  | Ok a s' => Ok a s'
  | Raise _ s' => handler s'
  end.

(** The state a run leaves behind, whether it returned or raised. *)
Definition final_state {A} (r : result A) : LBM :=
  match r with Ok _ s => s | Raise _ s => s end.

(** ** [LBM.get_equilibrium] *)

Definition get_equilibrium (self : LBM) (n : nat) (rho ux uy : operand)
    : option (grid Q) :=
  rho ← broadcast n rho;
  ux ← broadcast n ux;
  uy ← broadcast n uy;
  let udotu := zip_with (λ x y, x * x + y * y) ux uy in
  let udotc :=
    foldl (λ a i, set_col i (zip_with (λ x y, x * c0 i + y * c1 i) ux uy) a)
      (zeros n NQ) (seq 0 NQ) in
  let f_eq :=
    foldl (λ a i,
        set_col i
          (zip3_with (λ r uc uu,
               w_ i * r * (1 + uc / cssq self + uc ^ 2 / (2 * cssq self ^ 2)
                           - uu / (2 * cssq self)))
             rho (col i udotc) udotu) a)
      (zeros n 9) (seq 0 NQ) in
  Some f_eq.

(** The closed form of one equilibrium population. *)
Definition f_eq_formula (cs : Q) (i : nat) (r x y : Q) : Q :=
  w_ i * r * (1 + (c0 i * x + c1 i * y) / cs
              + (c0 i * x + c1 i * y) ^ 2 / (2 * cs ^ 2)
              - (x * x + y * y) / (2 * cs)).

(** The expression of the program for one population, with the column of
    [udotc] written out. *)
Definition f_eq_entry (cs : Q) (i : nat) (r x y : Q) : Q :=
  let uc := x * c0 i + y * c1 i in
  w_ i * r * (1 + uc / cs + uc ^ 2 / (2 * cs ^ 2) - (x * x + y * y) / (2 * cs)).

Definition f_eq_rows (cs : Q) (rho ux uy : list Q) : grid Q :=
  zip3_with (λ r x y, (λ i, f_eq_entry cs i r x y) <$> seq 0 NQ) rho ux uy.

(** The value an operand contributes to cell [k]. *)
Definition operand_at (n : nat) (a : operand) (k : nat) : option Q :=
  l ← broadcast n a; l !! k.

(** ** [LBM.moment_update] *)

Definition sumq (l : list Q) : Q := foldr Qplus 0 l.

(** [np.sum(f, 2)] and [np.sum(c[:, k] * f, axis=2) / rho]. *)
Definition moment_update (f : grid (list Q)) : grid Q * grid Q * grid Q :=
  let rho := fmap (M := list) sumq <$> f in
  let ux :=
    zip_with (zip_with Qdiv)
      (fmap (M := list) (λ cell, sumq (zip_with Qmult (c0 <$> seq 0 NQ) cell)) <$> f)
      rho in
  let uy :=
    zip_with (zip_with Qdiv)
      (fmap (M := list) (λ cell, sumq (zip_with Qmult (c1 <$> seq 0 NQ) cell)) <$> f)
      rho in
  (rho, ux, uy).

(** ** Reductions, rolls and boolean-mask indexing *)

Definition Qltb (x y : Q) : bool := negb (Qle_bool y x).

(** [np.argmin]: the index of the first minimum; [np.min]: its value.
    Both raise [ValueError] on an empty array ([None]). *)
Fixpoint argmin_from (best_i : nat) (best : Q) (i : nat) (l : list Q) : nat * Q :=
  match l with
  | [] => (best_i, best)
  | x :: l' =>
      if Qltb x best then argmin_from i x (S i) l'
      else argmin_from best_i best (S i) l'
  end.

Definition np_argmin (l : list Q) : option nat :=
  match l with
  | [] => None
  | x :: l' => Some (argmin_from 0 x 1 l').1
  end.

Definition np_min (l : list Q) : option Q :=
  match l with
  | [] => None
  | x :: l' => Some (argmin_from 0 x 1 l').2
  end.

(** [np.unravel_index(k, (a, b, d))]. *)
Definition unravel_index (k : nat) (b d : nat) : nat * nat * nat :=
  ((k / (b * d))%nat, ((k / d) mod b)%nat, (k mod d)%nat).

(** [np.roll] along one axis: the entry at [k] moves to [(k + s) mod n]. *)
Definition roll1 {A} (s : Z) (l : list A) : list A :=
  rotate (Z.to_nat ((- s) mod Z.of_nat (length l))) l.

(** [np.roll(a, shift, axis=(0, 1))]. *)
Definition roll {A} (a : grid A) (shift : Z * Z) : grid A :=
  roll1 shift.2 <$> roll1 shift.1 a.

(** [f[:, :, i]] and [f[:, :, i] = p]. *)
Definition plane (i : nat) (f : grid (list Q)) : grid Q :=
  fmap (M := list) (λ cell, nth i cell 0) <$> f.
Definition set_plane (i : nat) (p : grid Q) (f : grid (list Q)) : grid (list Q) :=
  zip_with (zip_with (λ cell v, <[i := v]> cell)) f p.

(** [a[mask] = v] for a scalar [v]. *)
Definition mask_fill {A} (mask : grid bool) (v : A) (a : grid A) : grid A :=
  zip_with (zip_with (λ (b : bool) x, if b then v else x)) mask a.

(** [a[mask]]: the entries under a true mask bit, in row-major order. *)
Fixpoint compress {A} (m : list bool) (l : list A) : list A :=
  match m, l with
  | b :: m', x :: l' => if b then x :: compress m' l' else compress m' l'
  | _, _ => []
  end.
Definition mask_get {A} (mask : grid bool) (a : grid A) : list A :=
  concat (zip_with compress mask a).

(** [a[mask] = vals]: the entries under a true mask bit are replaced by the
    values of [vals], in row-major order.  The second component is what is
    left of [vals]. *)
Fixpoint scatter_row {A} (m : list bool) (row vals : list A) : list A * list A :=
  match m, row with
  | b :: m', x :: row' =>
      if b then
        match vals with
        | v :: vals' =>
            let '(r, rest) := scatter_row m' row' vals' in (v :: r, rest)
        | [] => (row, [])
        end
      else let '(r, rest) := scatter_row m' row' vals in (x :: r, rest)
  | _, _ => (row, vals)
  end.

Fixpoint scatter {A} (mask : grid bool) (a : grid A) (vals : list A) : grid A * list A :=
  match mask, a with
  | m :: mask', row :: a' =>
      let '(r, rest) := scatter_row m row vals in
      let '(a'', rest') := scatter mask' a' rest in
      (r :: a'', rest')
  | _, _ => (a, vals)
  end.

Definition mask_set {A} (mask : grid bool) (a : grid A) (vals : list A) : grid A :=
  (scatter mask a vals).1.

(** [a[:, idx]] for a list of column indices (fancy indexing). *)
Definition take_cols (idx : list nat) (a : grid Q) : grid Q :=
  (λ row, (λ j, nth j row 0) <$> idx) <$> a.

(** ** [LBM.inlet_handler] and [LBM.outlet_handler] (the defaults) *)

Definition inlet_handler (it : nat) : M unit := λ model,
  let inlet_ux := u_lb model in
  let inlet_uy := 0 in
  let inlet_rho := (λ _, 1) <$> mask_get (inlet model) (rho model) in
  match get_equilibrium model (length inlet_rho) (Array inlet_rho)
          (Scalar inlet_ux) (Scalar inlet_uy) with
  | Some fe => Ok () (set_f (mask_set (inlet model) (f model) fe) model)
  | None => Raise ValueError model
  end.

Definition outlet_handler : M unit := λ model,
  let outlet_rho := mask_get (outlet model) (rho model) in
  let outlet_ux := mask_get (outlet model) (ux model) in
  let outlet_uy := mask_get (outlet model) (uy model) in
  match get_equilibrium model (length outlet_ux) (Array outlet_rho)
          (Array outlet_ux) (Array outlet_uy) with
  | Some fe => Ok () (set_f (mask_set (outlet model) (f model) fe) model)
  | None => Raise ValueError model
  end.

(** ** [LBM.lbm_iteration]

    The handlers are attributes of the model in the program; here they are
    arguments of the iteration. *)

Definition opposite : list nat := [0; 3; 4; 1; 2; 7; 8; 5; 6]%nat.

(** [f * (1 - (1 / tau)) + (1 / tau) * f_eq]. *)
Definition collide (tau : Q) (f f_eq : grid (list Q)) : grid (list Q) :=
  zip_with (zip_with (zip_with (λ x e, x * (1 - (1 / tau)) + (1 / tau) * e))) f f_eq.

(** The loop [for i in range(Q): f[:, :, i] = np.roll(f[:, :, i], c[i], axis=(0, 1))]. *)
Definition stream_step (f : grid (list Q)) (i : nat) : grid (list Q) :=
  set_plane i (roll (plane i f) (nth i c (0, 0)%Z)) f.
Definition stream (f : grid (list Q)) : grid (list Q) :=
  foldl stream_step f (seq 0 NQ).

(** The bounce-back block, on the velocity and on the populations. *)
Definition bounce_back_velocity (self : LBM) : LBM :=
  set_velocity (mask_fill (wall self) 0 (ux self))
    (mask_fill (wall self) 0 (uy self)) self.

Definition bounce_back_f (wall : grid bool) (f : grid (list Q)) : grid (list Q) :=
  let boundary_f := mask_get wall f in
  let boundary_f := take_cols opposite boundary_f in
  mask_set wall f boundary_f.

Definition bounce_back (self : LBM) : LBM :=
  let self := bounce_back_velocity self in
  set_f (bounce_back_f (wall self) (f self)) self.

(** The equilibrium of the current moments, reshaped to the grid. *)
Definition equilibrium_field (self : LBM) : option (grid (list Q)) :=
  fe ← get_equilibrium self (width self * height self)
         (Array (flatten (rho self))) (Array (flatten (ux self)))
         (Array (flatten (uy self)));
  Some (reshape (width self) (height self) fe).

Definition store_moments (self : LBM) : LBM :=
  let '(rho, ux, uy) := moment_update (f self) in
  set_moments rho ux uy self.

Definition lbm_iteration (inlet_h : nat → M unit) (outlet_h : M unit)
    (it : nat) : M unit :=
  (* moment update *)
  _ ← modify store_moments;
  (* equilibrium *)
  f_eq ← (λ self, check ValueError (equilibrium_field self) self);
  (* stability condition *)
  let flat := flatten (flatten f_eq) in
  lowest ← check ValueError (np_min flat);
  _ ← (if Qle_bool 0 lowest then mret ()
       else
         at_ ← check ValueError (np_argmin flat);
         h ← read height;
         raise (AssertionError (unravel_index at_ h NQ)));
  (* collision *)
  t ← read tau;
  _ ← (if Qeq_bool t 0 then raise ZeroDivisionError else mret ());
  _ ← modify (λ self, set_f (collide t (f self) f_eq) self);
  (* streaming *)
  _ ← modify (λ self, set_f (stream (f self)) self);
  (* bounce back *)
  _ ← modify bounce_back;
  (* inlets and outlets *)
  _ ← inlet_h it;
  outlet_h.

(** ** Particles *)

(** Python's [int(x)] (truncation toward zero) and [round(x)] (to the
    nearest integer, a tie to the even one). *)
Definition py_int (x : Q) : Z := Z.quot (Qnum x) (Z.pos (Qden x)).

Definition py_round (x : Q) : Z :=
  let fl := Qfloor x in
  let d := x - inject_Z fl in
  if Qltb d (1 # 2) then fl
  else if Qltb (1 # 2) d then (fl + 1)%Z
  else if Z.even fl then fl else (fl + 1)%Z.

(** Python's two-argument [max] and [min]: the first argument wins a tie. *)
Definition py_max (a b : Q) : Q := if Qltb a b then b else a.
Definition py_min (a b : Q) : Q := if Qltb b a then b else a.

(** An integer index into an axis of length [n]: a negative index counts
    from the end; [None] where numpy raises [IndexError]. *)
Definition norm_index (n : nat) (i : Z) : option nat :=
  if decide (0 ≤ i < Z.of_nat n)%Z then Some (Z.to_nat i)
  else if decide (- Z.of_nat n ≤ i < 0)%Z then Some (Z.to_nat (i + Z.of_nat n))
  else None.

(** [a[i, j]] for integers [i] and [j]. *)
Definition getitem2 {A} (a : grid A) (i j : Z) : option A :=
  i' ← norm_index (length a) i;
  row ← a !! i';
  j' ← norm_index (length row) j;
  row !! j'.

(** [np.where(mask)]: the indices of the true cells, in row-major order. *)
Definition np_where (mask : grid bool) : list (nat * nat) :=
  mjoin (imap (λ x row, omap (λ yb : nat * bool, if yb.2 then Some (x, yb.1) else None)
                           (imap pair row)) mask).

(** [RegularGridInterpolator((np.arange(n), np.arange(m)), a)] (of scipy,
    for a grid of at least two points a side) called at the point [[x, y]]:
    bilinear interpolation between the four grid points around it; [None]
    where the call raises [ValueError], which is outside of
    [0, n - 1] x [0, m - 1]. *)
Definition grid_cell (n : nat) (x : Q) : nat :=
  Nat.min (Z.to_nat (Qfloor x)) (n - 2).

Definition interpolate (n m : nat) (a : grid Q) (x y : Q) : option Q :=
  if Qle_bool 0 x && Qle_bool x (inject_Z (Z.of_nat n) - 1)
     && Qle_bool 0 y && Qle_bool y (inject_Z (Z.of_nat m) - 1)
  then
    let i := grid_cell n x in
    let j := grid_cell m y in
    let t := x - inject_Z (Z.of_nat i) in
    let u := y - inject_Z (Z.of_nat j) in
    let v (di dj : nat) := nth (j + dj) (nth (i + di) a []) 0 in
    Some ((1 - t) * (1 - u) * v 0%nat 0%nat + t * (1 - u) * v 1%nat 0%nat
          + (1 - t) * u * v 0%nat 1%nat + t * u * v 1%nat 1%nat)
  else None.

(** The draws of [np.random.randint]: [rnd k] is the raw value behind the
    draw for particle number [k]; [randint rnd k n] is a value below [n], and
    raises [ValueError] for [n = 0]. *)
Definition randint (rnd : nat → nat) (k n : nat) : option nat :=
  if decide (n = 0)%nat then None else Some (rnd k mod n)%nat.

(** [dist_2 = np.sum((nodes - node)**2, axis=1)]. *)
Definition dist_2 (nodes : list (Z * Z)) (node : Z * Z) : list Q :=
  (λ p : Z * Z, inject_Z ((p.1 - node.1) ^ 2 + (p.2 - node.2) ^ 2)) <$> nodes.

(** [self.infections[closest][i] += 1], [IndexError] out of range. *)
Definition bump2 (a : grid Q) (k i : nat) : option (grid Q) :=
  row ← a !! k;
  v ← row !! i;
  Some (<[k := <[i := v + 1]> row]> a).

(** [self.removed[i] += 1]. *)
Definition bump (a : list Q) (i : nat) : option (list Q) :=
  v ← a !! i;
  Some (<[i := v + 1]> a).

(** [self.particle_locations[i] = p]. *)
Definition set_location (i : nat) (p : Q * Q) : M unit := λ self,
  if decide (i < length (particle_locations self))%nat
  then Ok () (set_particle_locations (<[i := p]> (particle_locations self)) self)
  else Raise IndexError self.

Definition print (line : string) : M unit :=
  modify (λ self, set_stdout (stdout self ++ [line]) self).

(** The body of the spawn loop. *)
Definition spawn (rnd : nat → nat) : M unit :=
  nr ← read particle_nr;
  cap ← read num_particles;
  if decide (nr < cap)%nat then
    infected_indices ← read (λ self, np_where (infected self));
    idx ← check ValueError (randint rnd nr (length infected_indices));
    cell ← check IndexError (infected_indices !! idx);
    _ ← set_location nr (inject_Z (Z.of_nat cell.1), inject_Z (Z.of_nat cell.2));
    modify (λ self, set_particle_nr (particle_nr self + 1) self)
  else mret ().

(** The interception block: the [try] with its bare [except]. *)
Definition record_infection (nodes : list (Z * Z)) (i : nat) (x y : Q) : M unit :=
  try_except
    (let node := (py_int x, py_int y) in
     closest ← check ValueError (np_argmin (dist_2 nodes node));
     table ← read infections;
     table' ← check IndexError (bump2 table closest i);
     modify (set_infections table'))
    (print "Idk!!!!!!!").

(** The body of the loop over the particles. *)
Definition particle_step (nodes : list (Z * Z)) (i : nat) : M unit :=
  loc ← (λ self, check IndexError (particle_locations self !! i) self);
  let '(x, y) := loc in
  exited ← read particles_exited;
  if decide (i ∈ exited) then mret ()
  else
    s ← (λ self, check IndexError
                   (getitem2 (susceptible self) (py_round x) (py_round y)) self);
    if (s : bool) then
      _ ← record_infection nodes i x y;
      _ ← modify (λ self, set_particles_exited ({[i]} ∪ particles_exited self) self);
      set_location i (0, 0)
    else
      o ← (λ self, check IndexError
                     (getitem2 (outlet self) (py_round x) (py_round y)) self);
      if (o : bool) then
        counts ← read removed;
        counts' ← check IndexError (bump counts i);
        _ ← modify (set_removed counts');
        _ ← modify (λ self, set_particles_exited ({[i]} ∪ particles_exited self) self);
        set_location i (0, 0)
      else
        dx ← (λ self, check ValueError
                        (interpolate (width self) (height self) (ux self) x y) self);
        dy ← (λ self, check ValueError
                        (interpolate (width self) (height self) (uy self) x y) self);
        speed_factor ← read map_scaling_factor;
        let dx := speed_factor * dx in
        let dy := speed_factor * dy in
        wd ← read width;
        ht ← read height;
        let new_x := py_min (py_max 0 (x + dx)) (inject_Z (Z.of_nat wd) - 1) in
        let new_y := py_min (py_max 0 (y + dy)) (inject_Z (Z.of_nat ht) - 1) in
        set_location i (new_x, new_y).

(** [LBM.update_particles], for a given table of centroids. *)
Definition update_particles_with (nodes : list (Z * Z)) (rnd : nat → nat)
    (it : nat) : M unit :=
  rate ← read spawn_rate;
  _ ← (if decide (rate = 0)%nat then raise ZeroDivisionError
       else if decide (it mod rate = 0)%nat then
         amount ← read spawn_amount_at_rate;
         for_each (seq 0 amount) (λ _, spawn rnd)
       else mret ());
  nr ← read particle_nr;
  for_each (seq 0 nr) (particle_step nodes).

(** [LBM.update_particles] with the centroids of the program. *)
Definition update_particles : (nat → nat) → nat → M unit :=
  update_particles_with susceptible_centroids.

(** The state after a sequence of calls of [update_particles], each with
    its draws and its iteration number. *)
Fixpoint run_calls (nodes : list (Z * Z)) (calls : list ((nat → nat) * nat))
    (self : LBM) : LBM :=
  match calls with
  | [] => self
  | (rnd, it) :: rest =>
      run_calls nodes rest (final_state (update_particles_with nodes rnd it self))
  end.

(** ** Construction: [LBM.__init__] and the particle part of [LBM.render]

    The five masks and the scaling factor come from the map file, which is
    read and resized to [(size, size)] outside of this development.  The
    model is built as for [particles=True]; what [__init__] prints is left
    out. *)

Inductive init_kind : Type := InitDefault | InitCavity (Re : Q).

(** [init_default] and [init_liddrivencavity]: the lattice velocity, the
    squared speed of sound and the relaxation time.  Both divide by the
    width, the second one by the Reynolds number too. *)
Definition init_default (width : nat) : Q * Q * Q :=
  let total_time := (inject_Z (Z.of_nat ITERATIONS) * (5 # 2) / 500) * 60 in
  let L_p := 1 in
  let nu_p := 148 # 10000000 in
  let u_p := 1 in
  let dt := total_time / inject_Z (Z.of_nat ITERATIONS) in
  let dx := L_p / inject_Z (Z.of_nat width) in
  let Re := (u_p * L_p) / nu_p in
  let u_lb := u_p * (dt / dx) in
  let L_lb := L_p / dx in
  let nu_lb := (u_lb * L_lb) / Re in
  let cssq := 1 # 3 in
  (u_lb, cssq, nu_lb / cssq + (1 # 2)).

Definition init_liddrivencavity (width : nat) (Re : Q) : Q * Q * Q :=
  let L_lb := inject_Z (Z.of_nat width) in
  let u_lb := 2 # 10 in
  let nu_lb := (u_lb * L_lb) / Re in
  let cssq := 1 # 3 in
  (u_lb, cssq, nu_lb / cssq + (1 # 2)).

Definition new_LBM (size : nat) (scale : Q)
    (wall inlet outlet infected susceptible : grid bool)
    (init : init_kind) : exn + LBM :=
  if decide (size = 0)%nat then inl ZeroDivisionError
  else if (match init with InitCavity Re => Qeq_bool Re 0 | InitDefault => false end)
  then inl ZeroDivisionError
  else
    let '(u_lb, cssq, tau) :=
      match init with
      | InitDefault => init_default size
      | InitCavity Re => init_liddrivencavity size Re
      end in
    let spawn_rate := 20%nat in
    let spawn_amount_at_rate := 1%nat in
    let rho := replicate size (replicate size 1) in
    let ux := replicate size (replicate size 0) in
    let uy := zeros size size in
    let self :=
      mkLBM size size scale wall inlet outlet infected susceptible
        spawn_rate spawn_amount_at_rate
        ((ITERATIONS / spawn_rate) * spawn_amount_at_rate)%nat 0%nat
        u_lb cssq tau rho ux uy [] [] [] [] ∅ [] in
    match get_equilibrium self (size * size) (Array (flatten rho))
            (Array (flatten ux)) (Array (flatten uy)) with
    | Some fe => inr (set_f (reshape size size fe) self)
    | None => inl ValueError
    end.

(** What [render] sets before the first iteration. *)
Definition render_init (self : LBM) : LBM :=
  set_particles_exited ∅
    (set_removed (replicate ITERATIONS 0)
       (set_infections (zeros NUM_SUSCEP_CENTROIDS ITERATIONS)
          (set_particle_locations (replicate (num_particles self) (0, 0)) self))).

(** ** Shapes

    Every array of a model is created with the shape [(width, height)] (and
    nine populations per cell) and no method changes a shape. *)
Definition has_shape {A} (n m : nat) (a : grid A) : Prop :=
  length a = n ∧ Forall (λ row, length row = m) a.

Definition cells9 (row : list (list Q)) : Prop :=
  Forall (λ cell, length cell = NQ) row.

Definition has_shape3 (n m : nat) (a : grid (list Q)) : Prop :=
  has_shape n m a ∧ Forall cells9 a.

Record fluid_shapes (s : LBM) : Prop := {
  shape_wall : has_shape (width s) (height s) (wall s);
  shape_inlet : has_shape (width s) (height s) (inlet s);
  shape_outlet : has_shape (width s) (height s) (outlet s);
  shape_f : has_shape3 (width s) (height s) (f s);
  shape_ux : has_shape (width s) (height s) (ux s);
  shape_uy : has_shape (width s) (height s) (uy s)
}.

(** Where the rationals compute what the floats of the program do, up to
    rounding: no division of the iteration is by zero, neither by the
    squared speed of sound nor by the density of a cell. *)
Definition exact_divisions (s : LBM) : Prop :=
  ¬ cssq s == 0 ∧ Forall (Forall (λ cell, ¬ sumq cell == 0)) (f s).

(** The total density: the sum of all populations of all cells. *)
Definition total_density (f : grid (list Q)) : Q :=
  sumq (sumq <$> (fmap (M := list) sumq <$> f)).

(** ** Models used as concrete inputs *)

Definition blank : LBM :=
  mkLBM 0 0 0 [] [] [] [] [] 0 0 0 0 0 0 0 [] [] [] [] [] [] [] ∅ [].

Definition built (r : exn + LBM) : LBM :=
  match r with inr s => s | inl _ => blank end.

Definition no_cells (n : nat) : grid bool := replicate n (replicate n false).

(** A 3 x 3 cavity: walls all around one fluid cell. *)
Definition cavity_walls : grid bool :=
  [[true; true; true]; [true; false; true]; [true; true; true]].

Definition cavity3 : LBM :=
  built (new_LBM 3 1 cavity_walls (no_cells 3) (no_cells 3) (no_cells 3)
           (no_cells 3) (InitCavity 100)).

(** The same cavity with the populations of one cell replaced. *)
Definition with_cell (x y : nat) (cell : list Q) (s : LBM) : LBM :=
  set_f (alter (λ row, <[y := cell]> row) x (f s)) s.

(** A wall cell out of equilibrium. *)
Definition probe3 : LBM := with_cell 0 0 [1; 2; 3; 4; 5; 6; 7; 8; 9] cavity3.

(** A fluid cell of density 2 (resp. 4) moving at lattice speed 1. *)
Definition fast3 : LBM := with_cell 1 1 [0; 2; 0; 0; 0; 0; 0; 0; 0] cavity3.
Definition faster3 : LBM := with_cell 1 1 [0; 4; 0; 0; 0; 0; 0; 0; 0] cavity3.

(** A 3 x 3 room for particles: one cell, (1, 1), that is both infected and
    susceptible, an outlet cell at (1, 2), set up as [render] does. *)
Definition centre : grid bool :=
  [[false; false; false]; [false; true; false]; [false; false; false]].
Definition vent : grid bool :=
  [[false; false; false]; [false; false; true]; [false; false; false]].

Definition room3 : LBM :=
  render_init
    (built (new_LBM 3 1 (no_cells 3) (no_cells 3) vent centre centre
              (InitCavity 100))).

(** The room once its first particle has been spawned, and once
    [update_particles] has been called for iteration 0. *)
Definition spawned3 : LBM := final_state (spawn (λ _, 0%nat) room3).
Definition visited3 : LBM :=
  final_state (update_particles (λ _, 0%nat) 0 room3).

(** ** Notions used in the statements *)

(** The permutation that the bounce-back applies to a cell. *)
Definition reflect (cell : list Q) : list Q := (λ j, nth j cell 0) <$> opposite.

(** The opposite of a direction in the words of the specification (the
    pairs (1,3), (2,4), (5,7) and (6,8) are swapped, 0 is fixed), to be
    compared with the index list [opposite] of the program. *)
Definition opposite_direction (i : nat) : nat :=
  match i with
  | 1 => 3 | 3 => 1
  | 2 => 4 | 4 => 2
  | 5 => 7 | 7 => 5
  | 6 => 8 | 8 => 6
  | _ => i
  end%nat.

(** The sum of the entries of a two-dimensional array. *)
Definition gsum (a : grid Q) : Q := sumq (sumq <$> a).

(** The total density, direction by direction. *)
Definition plane_sums (f : grid (list Q)) : list Q :=
  (λ i, gsum (plane i f)) <$> seq 0 NQ.

(** The state after collision, streaming and bounce-back. *)
Definition fluid_step (f_eq : grid (list Q)) (s1 : LBM) : LBM :=
  bounce_back (set_f (stream (collide (tau s1) (f s1) f_eq)) s1).

(** A velocity component of a cell, as [moment_update] computes it, and
    the equilibrium of the moments of a cell. *)
Definition cell_u (k : nat → Q) (cell : list Q) : Q :=
  sumq (zip_with Qmult (k <$> seq 0 NQ) cell) / sumq cell.

Definition eq_cell (cs : Q) (cell : list Q) : list Q :=
  (λ i, f_eq_entry cs i (sumq cell) (cell_u c0 cell) (cell_u c1 cell))
  <$> seq 0 NQ.

(** A mask without a cell. *)
Definition all_false (mask : grid bool) : Prop :=
  Forall (Forall (λ b, b = false)) mask.

(** [k] is the first position of a least value [v] of [l]. *)
Definition first_min (l : list Q) (k : nat) (v : Q) : Prop :=
  l !! k = Some v
  ∧ (∀ j x, l !! j = Some x → v <= x)
  ∧ (∀ j x, (j < k)%nat → l !! j = Some x → v < x).

(** The population [i] of cell [(x, y)]. *)
Definition entry3 (f : grid (list Q)) (x y i : nat) : option Q :=
  entry f x y ≫= (.!! i).

(** What the interception block leaves behind: it never raises. *)
Definition recorded (nodes : list (Z * Z)) (i : nat) (x y : Q) (self : LBM) : LBM :=
  match np_argmin (dist_2 nodes (py_int x, py_int y)) with
  | Some closest =>
      match bump2 (infections self) closest i with
      | Some table => set_infections table self
      | None => set_stdout (stdout self ++ ["Idk!!!!!!!"%string]) self
      end
  | None => set_stdout (stdout self ++ ["Idk!!!!!!!"%string]) self
  end.

(** [self.particles_exited.add(i)]. *)
Definition mark_exited (i : nat) (self : LBM) : LBM :=
  set_particles_exited ({[i]} ∪ particles_exited self) self.

(** [min(max(0, v), n - 1)]. *)
Definition clamp (n : nat) (v : Q) : Q :=
  py_min (py_max 0 v) (inject_Z (Z.of_nat n) - 1).

(** A mask with one cell. *)
Definition lone_cell (size x y : nat) : grid bool :=
  <[x := <[y := true]> (replicate size false)]> (no_cells size).

(** A 100 x 100 room as [__init__] and [render] set it up, with one
    susceptible cell, (79, 66), between the centroids (79, 80) and (79, 51)
    of the program, and its first particle at (79, 65.9). *)
Definition hall : LBM :=
  let s := render_init
             (built (new_LBM 100 1 (no_cells 100) (no_cells 100) (no_cells 100)
                       (lone_cell 100 50 50) (lone_cell 100 79 66) InitDefault)) in
  set_particle_nr 1
    (set_particle_locations (<[0%nat := (79, 659 # 10)]> (particle_locations s)) s).

(** The squared Euclidean distance from a point to a centroid, in the words
    of the specification. *)
Definition sq_distance (p : Q * Q) (node : Z * Z) : Q :=
  (p.1 - inject_Z node.1) ^ 2 + (p.2 - inject_Z node.2) ^ 2.

(** Particle [i] is terminal in [s] and what the model stores for it is
    what [s0] stored: its position and its column of counters. *)
Definition frozen (i : nat) (s0 s : LBM) : Prop :=
  i ∈ particles_exited s ∧ (i < particle_nr s)%nat
  ∧ particle_locations s !! i = particle_locations s0 !! i
  ∧ (∀ k, entry (infections s) k i = entry (infections s0) k i)
  ∧ removed s !! i = removed s0 !! i.

(** [x] lies in [0, n - 1]. *)
Definition in_range (n : nat) (x : Q) : Prop :=
  0 <= x ∧ x <= inject_Z (Z.of_nat n) - 1.

(** The stored position of every spawned particle is inside the domain. *)
Definition positions_in_bounds (s : LBM) : Prop :=
  ∀ i x y, (i < particle_nr s)%nat →
    particle_locations s !! i = Some (x, y) →
    in_range (width s) x ∧ in_range (height s) y.

(** The grid is not empty and the masks that the tracker reads have its
    shape. *)
Record geometry (s : LBM) : Prop := {
  geo_width : (1 ≤ width s)%nat;
  geo_height : (1 ≤ height s)%nat;
  geo_infected : has_shape (width s) (height s) (infected s);
  geo_susceptible : has_shape (width s) (height s) (susceptible s);
  geo_outlet : has_shape (width s) (height s) (outlet s)
}.

(** There is room for every particle: a cell to spawn at, a position and a
    removed counter for each. *)
Record capacity (s : LBM) : Prop := {
  cap_rate : spawn_rate s ≠ 0%nat;
  cap_source : np_where (infected s) ≠ [];
  cap_nr : (particle_nr s ≤ num_particles s)%nat;
  cap_locations : (num_particles s ≤ length (particle_locations s))%nat;
  cap_removed : (num_particles s ≤ length (removed s))%nat
}.

(** The invariant of the particle tracker. *)
Definition tracked (s : LBM) : Prop := geometry s ∧ positions_in_bounds s.

(** What the model stores for particle [i] is what [s0] stored, and the
    particle has not become terminal since. *)
Definition untouched (i : nat) (s0 s : LBM) : Prop :=
  particle_locations s !! i = particle_locations s0 !! i
  ∧ (∀ k, entry (infections s) k i = entry (infections s0) k i)
  ∧ removed s !! i = removed s0 !! i
  ∧ (i ∈ particles_exited s → i ∈ particles_exited s0)
  ∧ susceptible s = susceptible s0
  ∧ (∀ n m, has_shape n m (infections s0) → has_shape n m (infections s))
  ∧ (particle_nr s0 ≤ particle_nr s)%nat.

(** * Further parts of the program *)

(** ** [LBM.animate] and the loop of [LBM.render]

    [animate] runs one iteration of the fluid and then, for a model with
    particles, the particle tracker; [render] calls it for the iterations
    0, 1, ... in turn.  The plots and the progress line that [animate]
    prints are left out; the handlers are arguments, as for
    [lbm_iteration]. *)

Definition animate (inlet_h : nat → M unit) (outlet_h : M unit)
    (particles : bool) (rnd : nat → nat) (it : nat) : M unit :=
  _ ← lbm_iteration inlet_h outlet_h it;
  if particles then update_particles rnd it else mret ().

Definition render_loop (inlet_h : nat → M unit) (outlet_h : M unit)
    (particles : bool) (rnd : nat → nat) (iterations : nat) : M unit :=
  for_each (seq 0 iterations) (animate inlet_h outlet_h particles rnd).

(** ** The loop of [LBM.read_map_from_file]

    The loop that fills the five boolean arrays from the lines of the map
    file, before [cv2.resize] scales them to the size of the model.  The
    first line has been read: it gave [width] and [height], and the
    assertion [width == height] has passed.  A line is a string of
    characters with code points below 256. *)

Definition AIR : nat := 0.
Definition WALL : nat := 1.
Definition INLET : nat := 2.
Definition OUTLET : nat := 3.
Definition INFECTED : nat := 4.
Definition SUSCEPTIBLE : nat := 5.

(** [str.isspace] on a character: tab to carriage return, the four
    separators 28 to 31, the space, and of the code points from 128 to
    255 the next-line and the no-break space. *)
Definition isspace (ch : Ascii.ascii) : bool :=
  let n := Ascii.nat_of_ascii ch in
  ((9 <=? n)%nat && (n <=? 13)%nat) || ((28 <=? n)%nat && (n <=? 32)%nat)
  || (n =? 133)%nat || (n =? 160)%nat.

(** [line.strip()], as a list of characters. *)
Fixpoint lstrip (l : list Ascii.ascii) : list Ascii.ascii :=
  match l with
  | ch :: rest => if isspace ch then lstrip rest else l
  | [] => []
  end.
Definition strip (line : string) : list Ascii.ascii :=
  reverse (lstrip (reverse (lstrip (String.list_ascii_of_string line)))).

(** [int(c)] for a string of one character: a decimal digit, or
    [ValueError] ([None]). *)
Definition int_of_char (ch : Ascii.ascii) : option nat :=
  let n := Ascii.nat_of_ascii ch in
  if (48 <=? n)%nat && (n <=? 57)%nat then Some (n - 48)%nat else None.

Record masks : Type := mkMasks {
  m_wall : grid bool;
  m_inlet : grid bool;
  m_outlet : grid bool;
  m_infected : grid bool;
  m_susceptible : grid bool
}.

(** [a[j, k] = True] for an index [j] that is not negative and an integer
    [k]. *)
Definition mark (a : grid bool) (j : nat) (k : Z) : exn + grid bool :=
  match a !! j with
  | None => inl IndexError
  | Some row =>
      match norm_index (length row) k with
      | None => inl IndexError
      | Some k' => inr (<[j := <[k' := true]> row]> a)
      end
  end.

(** The body of the inner loop, for the character [ch] at position [j] of
    the stripped line number [i]. *)
Definition read_char (width i j : nat) (ch : Ascii.ascii) (ms : masks) : exn + masks :=
  match int_of_char ch with
  | None => inl ValueError
  | Some code =>
      let k := (Z.of_nat width - Z.of_nat i)%Z in
      if decide (code = WALL) then
        match mark (m_wall ms) j k with
        | inr a => inr (mkMasks a (m_inlet ms) (m_outlet ms) (m_infected ms)
                          (m_susceptible ms))
        | inl e => inl e
        end
      else if decide (code = INLET) then
        match mark (m_inlet ms) j k with
        | inr a => inr (mkMasks (m_wall ms) a (m_outlet ms) (m_infected ms)
                          (m_susceptible ms))
        | inl e => inl e
        end
      else if decide (code = OUTLET) then
        match mark (m_outlet ms) j k with
        | inr a => inr (mkMasks (m_wall ms) (m_inlet ms) a (m_infected ms)
                          (m_susceptible ms))
        | inl e => inl e
        end
      else if decide (code = INFECTED) then
        match mark (m_infected ms) j k with
        | inr a => inr (mkMasks (m_wall ms) (m_inlet ms) (m_outlet ms) a
                          (m_susceptible ms))
        | inl e => inl e
        end
      else if decide (code = SUSCEPTIBLE) then
        match mark (m_susceptible ms) j k with
        | inr a => inr (mkMasks (m_wall ms) (m_inlet ms) (m_outlet ms)
                          (m_infected ms) a)
        | inl e => inl e
        end
      else inr ms
  end.

(** [for j, c in enumerate(line.strip())], from position [j] on. *)
Fixpoint read_chars (width i j : nat) (chars : list Ascii.ascii) (ms : masks)
    : exn + masks :=
  match chars with
  | [] => inr ms
  | ch :: rest =>
      match read_char width i j ch ms with
      | inr ms' => read_chars width i (S j) rest ms'
      | inl e => inl e
      end
  end.

(** [for i, line in iterator], from line number [i] on. *)
Fixpoint read_lines (width i : nat) (lines : list string) (ms : masks)
    : exn + masks :=
  match lines with
  | [] => inr ms
  | line :: rest =>
      match read_chars width i 0 (strip line) ms with
      | inr ms' => read_lines width (S i) rest ms'
      | inl e => inl e
      end
  end.

(** The arrays after the loop over the lines that follow the first one,
    which the enumeration numbers from 1. *)
Definition read_map_loop (width : nat) (lines : list string) : exn + masks :=
  let blank := replicate width (replicate width false) in
  read_lines width 1 lines (mkMasks blank blank blank blank blank).

(** ** More concrete inputs *)

(** A susceptible cell in a corner of the 3 x 3 room, away from the
    infected cell in its centre. *)
Definition corner : grid bool :=
  [[true; false; false]; [false; false; false]; [false; false; false]].

(** The room with its first particle on the outlet cell. *)
Definition at_vent3 : LBM :=
  set_particle_nr 1
    (set_particle_locations (<[0%nat := (1, 2)]> (particle_locations room3)) room3).

(** The cavity, which has no infected cell, set up for particles. *)
Definition dry3 : LBM := render_init cavity3.

(** A 3 x 3 room with an inlet cell in its centre and an outlet cell. *)
Definition windy3 : LBM :=
  built (new_LBM 3 1 (no_cells 3) centre vent (no_cells 3) (no_cells 3)
           InitDefault).

(** A map of width 3, and one of width 2 with a line too many. *)
Definition tiny_map : list string := ["120"; " 045 "; "300"]%string.
Definition tall_map : list string := ["10"; "00"; "20"]%string.

Definition loaded (r : exn + masks) : masks :=
  match r with
  | inr ms => ms
  | inl _ => mkMasks [] [] [] [] []
  end.

(** ** Notions used in the further results *)

(** What the fluid solver owns: the grid, the masks it reads, the
    parameters and the fields. *)
Definition fluid_part (s : LBM) :=
  (width s, height s, wall s, inlet s, outlet s, infected s, susceptible s,
   (map_scaling_factor s, u_lb s, cssq s, tau s), (rho s, ux s, uy s, f s)).

(** A fluid at rest: every cell holds the weights, up to [==]. *)
Definition at_rest (f : grid (list Q)) : Prop :=
  Forall (Forall (λ cell, Forall2 Qeq cell w)) f.

(** The Reynolds number of a cavity is positive. *)
Definition valid_init (init : init_kind) : Prop :=
  match init with
  | InitDefault => True
  | InitCavity Re => 0 < Re
  end.

(** The model that [__init__] returns. *)
Definition rest_populations (size : nat) : grid (list Q) :=
  replicate size (replicate size ((λ i, f_eq_entry (1 # 3) i 1 0 0) <$> seq 0 NQ)).

Definition uniform (v : Q) (a : grid Q) : Prop :=
  Forall (Forall (λ q, q == v)) a.

(** No true cell of [mask] is a true cell of [other]. *)
Definition clear_of (mask other : grid bool) : Prop :=
  ∀ x y, entry mask x y = Some true → entry other x y = Some false.

(** Every spawned particle sits on the infected cell it was spawned at. *)
Definition parked (s : LBM) : Prop :=
  ∀ i, (i < particle_nr s)%nat →
    ∃ x y (cell : nat * nat),
      particle_locations s !! i = Some (x, y)
      ∧ x == inject_Z (Z.of_nat cell.1) ∧ y == inject_Z (Z.of_nat cell.2)
      ∧ cell ∈ np_where (infected s).

(** The state of the tracker while nothing moves: no particle has left
    its cell, none is terminal, no counter has changed and nothing was
    printed. *)
Record quiet (I0 : grid Q) (R0 : list Q) (out0 : list string) (s : LBM) : Prop := {
  q_geometry : geometry s;
  q_capacity : capacity s;
  q_susceptible : clear_of (infected s) (susceptible s);
  q_outlet : clear_of (infected s) (outlet s);
  q_ux : uniform 0 (ux s);
  q_uy : uniform 0 (uy s);
  q_parked : parked s;
  q_exited : particles_exited s = ∅;
  q_infections : infections s = I0;
  q_removed : removed s = R0;
  q_stdout : stdout s = out0
}.

(** The state of the fluid while nothing moves. *)
Record calm (s : LBM) : Prop := {
  calm_shapes : fluid_shapes s;
  calm_width : (0 < width s)%nat;
  calm_height : (0 < height s)%nat;
  calm_cssq : cssq s = 1 # 3;
  calm_tau : ¬ tau s == 0;
  calm_inlet : all_false (inlet s) ∨ u_lb s == 0;
  calm_rest : at_rest (f s)
}.

(** The sum of all infection counters and of all removed counters. *)
Definition tally (s : LBM) : Q :=
  sumq (sumq <$> infections s) + sumq (removed s).

(** The number of terminal particles. *)
Definition exits (s : LBM) : Q :=
  inject_Z (Z.of_nat (size (particles_exited s))).

(** The tables have a counter for every particle that can be spawned, the
    ledger is balanced against [c], and nothing was printed since [out0]. *)
Record balanced (nodes : list (Z * Z)) (m : nat) (c : Q) (out0 : list string)
    (s : LBM) : Prop := {
  bal_nodes : nodes ≠ [];
  bal_table : has_shape (length nodes) m (infections s);
  bal_nr : (particle_nr s ≤ num_particles s)%nat;
  bal_room : (num_particles s ≤ m)%nat;
  bal_tally : tally s - exits s == c;
  bal_stdout : stdout s = out0
}.

(** Two arrays of numbers agree entry by entry. *)
Definition grid_eq (a b : grid Q) : Prop := Forall2 (Forall2 Qeq) a b.

(** The momentum of a cell along an axis. *)
Definition momentum (k : nat → Q) (cell : list Q) : Q :=
  sumq (zip_with Qmult (k <$> seq 0 NQ) cell).

(** The equilibrium populations of one cell. *)
Definition equilibrium_cell (cs r x y : Q) : list Q :=
  (λ i, f_eq_entry cs i r x y) <$> seq 0 NQ.

(** The array that a cell code selects. *)
Definition mask_of (code : nat) (ms : masks) : grid bool :=
  match code with
  | 1 => m_wall ms
  | 2 => m_inlet ms
  | 3 => m_outlet ms
  | 4 => m_infected ms
  | _ => m_susceptible ms
  end%nat.

(** The codes that select an array: [WALL] to [SUSCEPTIBLE]. *)
Definition is_code (d : nat) : Prop := (1 ≤ d ≤ 5)%nat.

Definition masks_shape (n : nat) (ms : masks) : Prop :=
  ∀ d, has_shape n n (mask_of d ms).

(** The column that line number [i] is written to: [width - i] as an index
    into an axis of length [width]. *)
Definition target (width i : nat) : option nat :=
  norm_index width (Z.of_nat width - Z.of_nat i).

(** The character at position [j] of the stripped line number [i], the
    lines being numbered from 1. *)
Definition char_at (lines : list string) (i j : nat) : option Ascii.ascii :=
  match i with
  | O => None
  | S k => line ← lines !! k; strip line !! j
  end.

(** The characters of the lines, with their line number and position, in
    the order of the loop. *)
Fixpoint chars_from (i j : nat) (chars : list Ascii.ascii)
    : list (nat * nat * Ascii.ascii) :=
  match chars with
  | [] => []
  | ch :: rest => (i, j, ch) :: chars_from i (S j) rest
  end.
Fixpoint events_from (i : nat) (lines : list string)
    : list (nat * nat * Ascii.ascii) :=
  match lines with
  | [] => []
  | line :: rest => chars_from i 0 (strip line) ++ events_from (S i) rest
  end.
Fixpoint run_events (width : nat) (es : list (nat * nat * Ascii.ascii))
    (ms : masks) : exn + masks :=
  match es with
  | [] => inr ms
  | (i, j, ch) :: rest =>
      match read_char width i j ch ms with
      | inr ms' => run_events width rest ms'
      | inl e => inl e
      end
  end.

(** The character [ch] at position [j] of line [i] can be stored: it is a
    digit, and where its code selects an array, the position and the line
    number are inside of it. *)
Definition fits (width : nat) (ev : nat * nat * Ascii.ascii) : Prop :=
  ∃ code, int_of_char ev.2 = Some code
          ∧ (is_code code → (ev.1.2 < width)%nat ∧ is_Some (target width ev.1.1)).

(** Some character of code [d] is written to the cell [(x, y)]. *)
Definition written (width : nat) (lines : list string) (d x y : nat) : Prop :=
  ∃ i ch, char_at lines i x = Some ch ∧ int_of_char ch = Some d
          ∧ target width i = Some y.

(** * The embedding on small inputs *)

Example roll_rows :
  roll [[1; 2; 3]; [4; 5; 6]; [7; 8; 9]] (1, 0)%Z
  = [[7; 8; 9]; [1; 2; 3]; [4; 5; 6]].
Proof. reflexivity. Qed.

Example roll_diagonal :
  roll [[1; 2; 3]; [4; 5; 6]; [7; 8; 9]] (-1, -1)%Z
  = [[5; 6; 4]; [8; 9; 7]; [2; 3; 1]].
Proof. reflexivity. Qed.

Example round_half_to_even :
  (py_round (5 # 2), py_round (7 # 2), py_round (- (5 # 2)), py_int (- (5 # 2)))
  = (2, 4, -2, -2)%Z.
Proof. reflexivity. Qed.

Example argmin_first : np_argmin [3; 1; 2; 1] = Some 1%nat.
Proof. reflexivity. Qed.

Example unravel_flat_index : unravel_index 124 100 9 = (0, 13, 7)%nat.
Proof. reflexivity. Qed.

Example negative_index_wraps :
  getitem2 [[true; false]; [false; false]] (-2) (-2) = Some true
  ∧ getitem2 [[true; false]; [false; false]] 2 0 = None.
Proof. split; reflexivity. Qed.

Example mask_write :
  mask_set [[true; false]; [false; true]] [[1; 2]; [3; 4]] [10; 40]
  = [[10; 2]; [3; 40]].
Proof. reflexivity. Qed.

Example where_row_major :
  np_where [[false; true]; [true; true]] = [(0, 1); (1, 0); (1, 1)]%nat.
Proof. reflexivity. Qed.

Example rest_equilibrium :
  ∃ row,
    get_equilibrium cavity3 1 (Scalar 1) (Scalar 0) (Scalar 0) = Some [row]
    ∧ Forall2 Qeq row w.
Proof. eexists. split; [reflexivity|]. repeat constructor. Qed.

(** * Facts about arrays *)

Section Columns.
Context (g : nat → list Q).

Lemma lookup_foldl_insert (h : nat → Q) (idxs : list nat) (row : list Q) (j : nat) :
  (j < length row)%nat →
  foldl (λ r i, <[i := h i]> r) row idxs !! j
  = if decide (j ∈ idxs) then Some (h j) else row !! j.
Proof.
  revert row. induction idxs as [|i idxs IH]; intros row Hj.
  - done.
  - cbn [foldl]. rewrite IH by (by rewrite length_insert).
    destruct (decide (j ∈ idxs)) as [Hin|Hin].
    + rewrite decide_True; [done|]. by right.
    + destruct (decide (i = j)) as [->|Hne].
      * rewrite list_lookup_insert_eq by done.
        rewrite decide_True; [done|]. by left.
      * rewrite list_lookup_insert_ne by done.
        rewrite decide_False; [done|]. by intros [->|?]%elem_of_cons.
Qed.

Lemma length_foldl_insert (h : nat → Q) (idxs : list nat) (row : list Q) :
  length (foldl (λ r i, <[i := h i]> r) row idxs) = length row.
Proof.
  revert row. induction idxs as [|i idxs IH]; intros row; simpl; [done|].
  by rewrite IH, length_insert.
Qed.

Lemma foldl_insert_seq (h : nat → Q) (m : nat) (row : list Q) :
  length row = m →
  foldl (λ r i, <[i := h i]> r) row (seq 0 m) = h <$> seq 0 m.
Proof.
  intros Hlen. apply list_eq. intros j.
  destruct (decide (j < m)%nat) as [Hj|Hj].
  - rewrite lookup_foldl_insert by lia.
    rewrite decide_True by (apply elem_of_seq; lia).
    rewrite list_lookup_fmap, lookup_seq_lt by done. done.
  - rewrite !lookup_ge_None_2; [done| |].
    + rewrite length_fmap, length_seq. lia.
    + rewrite length_foldl_insert. lia.
Qed.

Lemma length_set_col (i : nat) (v : list Q) (a : grid Q) :
  length v = length a → length (set_col i v a) = length a.
Proof. intros Hv. unfold set_col. rewrite length_zip_with. lia. Qed.

Lemma lookup_foldl_set_col (idxs : list nat) (a : grid Q) (k : nat) (row : list Q) :
  (∀ i, length (g i) = length a) →
  a !! k = Some row →
  foldl (λ a i, set_col i (g i) a) a idxs !! k
  = Some (foldl (λ r i, <[i := nth k (g i) 0]> r) row idxs).
Proof.
  revert a row. induction idxs as [|i idxs IH]; intros a row Hg Hk; simpl; [done|].
  apply IH.
  - intros i'. rewrite length_set_col; auto.
  - unfold set_col. rewrite lookup_zip_with, Hk. simpl.
    destruct (lookup_lt_is_Some_2 (g i) k) as [x Hx].
    { rewrite Hg. by eapply lookup_lt_Some. }
    rewrite Hx. simpl. by rewrite (nth_lookup_Some _ _ _ _ Hx).
Qed.

Lemma length_foldl_set_col (idxs : list nat) (a : grid Q) :
  (∀ i, length (g i) = length a) →
  length (foldl (λ a i, set_col i (g i) a) a idxs) = length a.
Proof.
  revert a. induction idxs as [|i idxs IH]; intros a Hg; simpl; [done|].
  rewrite IH; [by apply length_set_col|].
  intros i'. by rewrite length_set_col.
Qed.

(** Filling every column of a zero array: row [k] collects the [k]-th
    entries of the columns. *)
Lemma foldl_set_col_zeros (n m : nat) :
  (∀ i, length (g i) = n) →
  foldl (λ a i, set_col i (g i) a) (zeros n m) (seq 0 m)
  = (λ k, (λ i, nth k (g i) 0) <$> seq 0 m) <$> seq 0 n.
Proof.
  intros Hg. apply list_eq. intros k.
  assert (Hz : length (zeros n m) = n) by apply length_replicate.
  destruct (decide (k < n)%nat) as [Hk|Hk].
  - rewrite (lookup_foldl_set_col _ _ _ (replicate m 0)).
    + rewrite foldl_insert_seq by apply length_replicate.
      by rewrite list_lookup_fmap, lookup_seq_lt.
    + intros i. by rewrite Hz.
    + by apply lookup_replicate_2.
  - rewrite !lookup_ge_None_2; [done| |].
    + rewrite length_fmap, length_seq. lia.
    + rewrite length_foldl_set_col; rewrite Hz; [lia|done].
Qed.
End Columns.

Lemma col_table (g : nat → list Q) (n m i : nat) :
  (i < m)%nat → length (g i) = n →
  col i ((λ k, (λ i, nth k (g i) 0) <$> seq 0 m) <$> seq 0 n) = g i.
Proof.
  intros Hi Hg. unfold col. apply list_eq. intros k.
  rewrite <- list_fmap_compose, list_lookup_fmap.
  destruct (decide (k < n)%nat) as [Hk|Hk].
  - rewrite lookup_seq_lt by done. simpl.
    rewrite nth_lookup, list_lookup_fmap, lookup_seq_lt by done. simpl.
    destruct (lookup_lt_is_Some_2 (g i) k) as [x Hx]; [lia|].
    by rewrite (nth_lookup_Some _ _ _ _ Hx), Hx.
  - rewrite lookup_seq_ge by lia. simpl. symmetry. apply lookup_ge_None_2. lia.
Qed.

(** * The equilibrium distribution *)

Lemma lookup_zip3_with {A B C D} (g : A → B → C → D) l1 l2 l3 (k : nat) :
  zip3_with g l1 l2 l3 !! k
  = (a ← l1 !! k; b ← l2 !! k; c ← l3 !! k; Some (g a b c)).
Proof.
  unfold zip3_with. rewrite lookup_zip_with, lookup_zip_with.
  destruct (l1 !! k), (l2 !! k), (l3 !! k); done.
Qed.

Lemma length_zip3_with {A B C D} (g : A → B → C → D) l1 l2 l3 (n : nat) :
  length l1 = n → length l2 = n → length l3 = n →
  length (zip3_with g l1 l2 l3) = n.
Proof.
  intros. unfold zip3_with. rewrite length_zip_with, length_zip_with. lia.
Qed.

Lemma length_broadcast (n : nat) (a : operand) (l : list Q) :
  broadcast n a = Some l → length l = n.
Proof.
  destruct a as [q|l']; simpl.
  - intros [= <-]. apply length_replicate.
  - case_decide; [by intros [= <-]|].
    destruct l' as [|q [|??]]; try done. intros [= <-]. apply length_replicate.
Qed.

Lemma get_equilibrium_rows (self : LBM) (n : nat) (rho ux uy : operand) :
  get_equilibrium self n rho ux uy
  = (r ← broadcast n rho; x ← broadcast n ux; y ← broadcast n uy;
     Some (f_eq_rows (cssq self) r x y)).
Proof.
  unfold get_equilibrium.
  destruct (broadcast n rho) as [r|] eqn:Hr; [|done].
  destruct (broadcast n ux) as [x|] eqn:Hx; [|done].
  destruct (broadcast n uy) as [y|] eqn:Hy; [|done].
  apply length_broadcast in Hr, Hx, Hy. cbn [mbind option_bind]. f_equal.
  unfold f_eq_rows. change NQ with 9%nat.
  set (uc := λ i : nat, zip_with (λ x0 y0 : Q, x0 * c0 i + y0 * c1 i) x y).
  assert (Huc : ∀ i, length (uc i) = n).
  { intros i. unfold uc. rewrite length_zip_with. lia. }
  pose proof (foldl_set_col_zeros uc n 9 Huc) as E.
  unfold uc in E at 1. cbv beta in E. rewrite E. clear E.
  set (tab := (λ k : nat, (λ i : nat, nth k (uc i) 0) <$> seq 0 9) <$> seq 0 n).
  set (fe := λ i : nat,
         zip3_with (λ r0 uc0 uu,
             w_ i * r0 * (1 + uc0 / cssq self + uc0 ^ 2 / (2 * cssq self ^ 2)
                          - uu / (2 * cssq self)))
           r (col i tab) (zip_with (λ x0 y0 : Q, x0 * x0 + y0 * y0) x y)).
  assert (Hfe : ∀ i, length (fe i) = n).
  { intros i. apply length_zip3_with; [done| |].
    - unfold col, tab. by rewrite !length_fmap, length_seq.
    - rewrite length_zip_with. lia. }
  pose proof (foldl_set_col_zeros fe n 9 Hfe) as E.
  unfold fe in E at 1. cbv beta in E.
  rewrite E. clear E.
  apply list_eq. intros k.
  rewrite list_lookup_fmap, lookup_zip3_with.
  destruct (decide (k < n)%nat) as [Hk|Hk].
  - rewrite lookup_seq_lt by done.
    destruct (lookup_lt_is_Some_2 r k) as [rk Hrk]; [lia|].
    destruct (lookup_lt_is_Some_2 x k) as [xk Hxk]; [lia|].
    destruct (lookup_lt_is_Some_2 y k) as [yk Hyk]; [lia|].
    rewrite Hrk, Hxk, Hyk.
    cbn [fmap option_fmap option_map mbind option_bind Nat.add]. f_equal.
    apply list_fmap_ext. intros j i Hi.
    apply lookup_seq in Hi as [-> Hi]. cbn [Nat.add].
    unfold fe, tab. rewrite col_table by (done || apply Huc).
    rewrite nth_lookup, lookup_zip3_with, Hrk.
    unfold uc. rewrite !lookup_zip_with, Hxk, Hyk. done.
  - rewrite lookup_seq_ge by lia. simpl.
    rewrite (lookup_ge_None_2 r) by lia. done.
Qed.

Lemma sq_nonneg (x : Q) : 0 <= x * x.
Proof. destruct (Qlt_le_dec x 0); nra. Qed.

Lemma f_eq_entry_third (i : nat) (r x y : Q) :
  f_eq_entry (1 # 3) i r x y
  == w_ i * r * (1 + 3 * (x * c0 i + y * c1 i)
                 + (9 # 2) * ((x * c0 i + y * c1 i) * (x * c0 i + y * c1 i))
                 - (3 # 2) * (x * x + y * y)).
Proof. unfold f_eq_entry. cbv zeta. field. Qed.

Lemma f_eq_entry_formula (i : nat) (r x y : Q) :
  f_eq_entry (1 # 3) i r x y == f_eq_formula (1 # 3) i r x y.
Proof. unfold f_eq_entry, f_eq_formula. cbv zeta. field. Qed.

Lemma w_pos (i : nat) : (i < 9)%nat → 0 < w_ i.
Proof.
  intros Hi. do 9 (destruct i as [|i]; [reflexivity|]). lia.
Qed.

Lemma f_eq_entry_nonneg (i : nat) (r x y : Q) :
  (i < 9)%nat → 0 <= r → x * x + y * y <= 1 # 3 →
  0 <= f_eq_entry (1 # 3) i r x y.
Proof.
  intros Hi Hr Hu. rewrite f_eq_entry_third.
  set (uc := x * c0 i + y * c1 i).
  pose proof (sq_nonneg (1 + 3 * uc)) as Hsq.
  pose proof (w_pos i Hi) as Hw.
  apply Qmult_le_0_compat; [apply Qmult_le_0_compat; lra|].
  lra.
Qed.

Lemma f_eq_entry_sum (r x y : Q) :
  sumq ((λ i, f_eq_entry (1 # 3) i r x y) <$> seq 0 9) == r.
Proof.
  cbn [seq fmap list_fmap sumq foldr]. rewrite !f_eq_entry_third.
  unfold w_, c0, c1. cbn [nth w c fst snd]. 
  unfold inject_Z. field.
Qed.

Lemma entry_f_eq_rows (cs : Q) (r x y : list Q) (n k i : nat) :
  length r = n → length x = n → length y = n → (k < n)%nat → (i < 9)%nat →
  entry (f_eq_rows cs r x y) k i
  = Some (f_eq_entry cs i (nth k r 0) (nth k x 0) (nth k y 0)).
Proof.
  intros Hr Hx Hy Hk Hi. unfold entry, f_eq_rows.
  rewrite lookup_zip3_with.
  destruct (lookup_lt_is_Some_2 r k) as [rk Hrk]; [lia|].
  destruct (lookup_lt_is_Some_2 x k) as [xk Hxk]; [lia|].
  destruct (lookup_lt_is_Some_2 y k) as [yk Hyk]; [lia|].
  rewrite !nth_lookup, Hrk, Hxk, Hyk. cbn [mbind option_bind default].
  by rewrite list_lookup_fmap, lookup_seq_lt.
Qed.

Lemma f_eq_rows_shape (cs : Q) (r x y : list Q) (n : nat) :
  length r = n → length x = n → length y = n →
  has_shape n 9 (f_eq_rows cs r x y).
Proof.
  intros Hr Hx Hy. split.
  - by apply length_zip3_with.
  - apply Forall_forall. intros row Hrow.
    apply list_elem_of_lookup in Hrow as [k Hk].
    unfold f_eq_rows in Hk. rewrite lookup_zip3_with in Hk.
    destruct (r !! k), (x !! k), (y !! k); try done.
    injection Hk as <-. reflexivity.
Qed.

(** C1.  For a model whose squared speed of sound is 1/3 (what both
    initialisers set), [get_equilibrium] returns one row of nine populations
    per cell, and population [i] of cell [k] is
    w[i] * rho * (1 + (c[i].u)/cssq + (c[i].u)^2/(2 cssq^2) - (u.u)/(2 cssq))
    at the density and velocity of that cell; the result is the same for
    every such model: nothing of the model but [cssq] is read. *)
Theorem get_equilibrium_formula (self : LBM) (n : nat) (rho ux uy : operand)
    (r x y : list Q) :
  cssq self = 1 # 3 →
  broadcast n rho = Some r → broadcast n ux = Some x → broadcast n uy = Some y →
  ∃ f_eq,
    get_equilibrium self n rho ux uy = Some f_eq
    ∧ has_shape n 9 f_eq
    ∧ (∀ k i, (k < n)%nat → (i < 9)%nat →
         ∃ v, entry f_eq k i = Some v
              ∧ v == f_eq_formula (1 # 3) i (nth k r 0) (nth k x 0) (nth k y 0))
    ∧ (∀ other, cssq other = 1 # 3 →
         get_equilibrium other n rho ux uy = Some f_eq).
Proof.
  intros Hcs Hr Hx Hy.
  exists (f_eq_rows (1 # 3) r x y).
  pose proof (length_broadcast _ _ _ Hr) as Lr.
  pose proof (length_broadcast _ _ _ Hx) as Lx.
  pose proof (length_broadcast _ _ _ Hy) as Ly.
  split; [|split; [|split]].
  - by rewrite get_equilibrium_rows, Hr, Hx, Hy, Hcs.
  - by apply f_eq_rows_shape.
  - intros k i Hk Hi. eexists. split.
    + by apply (entry_f_eq_rows _ r x y n).
    + apply f_eq_entry_formula.
  - intros other Ho. by rewrite get_equilibrium_rows, Hr, Hx, Hy, Ho.
Qed.

Lemma get_equilibrium_formula_witness :
  ∃ f_eq,
    get_equilibrium cavity3 2 (Array [1; 2]) (Scalar (1 # 10)) (Array [0; 1 # 5])
    = Some f_eq
    ∧ has_shape 2 9 f_eq
    ∧ (∀ k i, (k < 2)%nat → (i < 9)%nat →
         ∃ v, entry f_eq k i = Some v
              ∧ v == f_eq_formula (1 # 3) i (nth k [1; 2] 0)
                       (nth k [1 # 10; 1 # 10] 0) (nth k [0; 1 # 5] 0))
    ∧ (∀ other, cssq other = 1 # 3 →
         get_equilibrium other 2 (Array [1; 2]) (Scalar (1 # 10))
           (Array [0; 1 # 5]) = Some f_eq).
Proof.
  apply (get_equilibrium_formula cavity3 2 (Array [1; 2]) (Scalar (1 # 10))
           (Array [0; 1 # 5]) [1; 2] [1 # 10; 1 # 10] [0; 1 # 5]);
    reflexivity.
Defined.

Lemma sumq_proper (l1 l2 : list Q) :
  Forall2 Qeq l1 l2 → sumq l1 == sumq l2.
Proof.
  induction 1 as [|a b l1 l2 Hab _ IH]; simpl; [reflexivity|].
  by rewrite Hab, IH.
Qed.

(** C2.  Where a cell has density 1 and a velocity whose magnitude is at
    most the lattice speed of sound (u.u <= cssq = 1/3, which holds for
    every velocity well below it), the nine populations that
    [get_equilibrium] returns for the cell are non-negative and sum to the
    density. *)
Theorem equilibrium_nonneg_sum (self : LBM) (n : nat) (rho ux uy : operand)
    (f_eq : grid Q) (k : nat) (r x y : Q) :
  cssq self = 1 # 3 →
  get_equilibrium self n rho ux uy = Some f_eq →
  operand_at n rho k = Some r →
  operand_at n ux k = Some x →
  operand_at n uy k = Some y →
  r == 1 →
  x * x + y * y <= 1 # 3 →
  ∃ row, f_eq !! k = Some row
         ∧ length row = 9%nat
         ∧ Forall (Qle 0) row
         ∧ sumq row == r.
Proof.
  intros Hcs Hfe Hr Hx Hy Hone Hu.
  rewrite get_equilibrium_rows in Hfe. unfold operand_at in *.
  destruct (broadcast n rho) as [rs|]; [|done].
  destruct (broadcast n ux) as [xs|]; [|done].
  destruct (broadcast n uy) as [ys|]; [|done].
  cbn [mbind option_bind] in *. injection Hfe as <-.
  exists ((λ i, f_eq_entry (1 # 3) i r x y) <$> seq 0 9).
  split; [|split; [|split]].
  - unfold f_eq_rows. by rewrite lookup_zip3_with, Hr, Hx, Hy, Hcs.
  - by rewrite length_fmap, length_seq.
  - apply Forall_fmap, Forall_forall. intros i Hi.
    apply elem_of_seq in Hi. apply f_eq_entry_nonneg; [lia|lra|done].
  - apply f_eq_entry_sum.
Qed.

Lemma equilibrium_nonneg_sum_witness :
  ∃ row,
    f_eq_rows (1 # 3) [1; 1] [1 # 10; 1 # 10] [0; 1 # 5] !! 1%nat = Some row
    ∧ length row = 9%nat ∧ Forall (Qle 0) row ∧ sumq row == 1.
Proof.
  apply (equilibrium_nonneg_sum cavity3 2 (Array [1; 1]) (Scalar (1 # 10))
           (Array [0; 1 # 5]) _ 1 1 (1 # 10) (1 # 5));
    try reflexivity.
  vm_compute. discriminate.
Defined.

(** * Rolls *)

Section Roll.
Context {A : Type}.
Implicit Types (l : list A) (a : grid A) (s : Z).

Lemma length_roll1 s l : length (roll1 s l) = length l.
Proof. apply length_rotate. Qed.

Lemma lookup_roll1 s l (j : nat) :
  (j < length l)%nat →
  roll1 s l !! j = l !! Z.to_nat ((Z.of_nat j - s) `mod` Z.of_nat (length l)).
Proof.
  intros Hj. unfold roll1. rewrite lookup_rotate_r by done.
  f_equal. unfold rotate_nat_add. f_equal.
  rewrite Z2Nat.id by (apply Z.mod_pos_bound; lia).
  rewrite Zplus_mod_idemp_l. f_equal. lia.
Qed.

(** The entry at [k] moves to [(k + s) mod n]. *)
Lemma roll1_moves s l (k : nat) :
  (k < length l)%nat →
  roll1 s l !! Z.to_nat ((Z.of_nat k + s) `mod` Z.of_nat (length l)) = l !! k.
Proof.
  intros Hk.
  assert (0 ≤ (Z.of_nat k + s) `mod` Z.of_nat (length l) < Z.of_nat (length l))%Z
    as Hb by (apply Z.mod_pos_bound; lia).
  rewrite lookup_roll1 by lia. f_equal.
  rewrite Z2Nat.id by lia.
  rewrite Zminus_mod_idemp_l.
  replace (Z.of_nat k + s - s)%Z with (Z.of_nat k) by lia.
  rewrite Z.mod_small by lia. lia.
Qed.

Lemma roll1_inverse s l : roll1 (- s) (roll1 s l) = l.
Proof.
  apply list_eq. intros j.
  destruct (decide (j < length l)%nat) as [Hj|Hj].
  - rewrite lookup_roll1 by (by rewrite length_roll1).
    rewrite length_roll1.
    replace (Z.of_nat j - - s)%Z with (Z.of_nat j + s)%Z by lia.
    by apply roll1_moves.
  - rewrite !lookup_ge_None_2; [done|lia|]. rewrite !length_roll1. lia.
Qed.
End Roll.

Lemma roll1_fmap {A B} (g : A → B) (s : Z) (l : list A) :
  roll1 s (g <$> l) = g <$> roll1 s l.
Proof.
  unfold roll1, rotate. by rewrite length_fmap, fmap_app, fmap_drop, fmap_take.
Qed.

Lemma roll_inverse {A} (a : grid A) (v : Z * Z) :
  roll (roll a v) (- v.1, - v.2)%Z = a.
Proof.
  unfold roll. cbn [fst snd].
  rewrite roll1_fmap, roll1_inverse, <- list_fmap_compose.
  rewrite <- (list_fmap_id a) at 2. apply list_fmap_ext.
  intros _ row _. apply roll1_inverse.
Qed.

Lemma roll_shape {A} (n m : nat) (a : grid A) (v : Z * Z) :
  has_shape n m a → has_shape n m (roll a v).
Proof.
  intros [Hn Hm]. unfold roll. split.
  - by rewrite length_fmap, length_roll1.
  - apply Forall_fmap, Forall_forall. intros row Hrow. simpl.
    rewrite length_roll1. unfold roll1 in Hrow.
    apply elem_of_rotate in Hrow.
    by eapply Forall_forall in Hm.
Qed.

(** On a grid of shape [(n, m)], the entry at [(x, y)] moves to
    [((x + v.1) mod n, (y + v.2) mod m)]. *)
Lemma roll_moves {A} (n m : nat) (a : grid A) (v : Z * Z) (x y : nat) :
  has_shape n m a → (x < n)%nat → (y < m)%nat →
  entry (roll a v)
    (Z.to_nat ((Z.of_nat x + v.1) `mod` Z.of_nat n))
    (Z.to_nat ((Z.of_nat y + v.2) `mod` Z.of_nat m))
  = entry a x y.
Proof.
  intros [Hn Hm] Hx Hy. unfold entry, roll.
  rewrite list_lookup_fmap, <- Hn, roll1_moves by lia.
  destruct (lookup_lt_is_Some_2 a x) as [row Hrow]; [lia|].
  rewrite Hrow. cbn [fmap option_fmap option_map mbind option_bind].
  assert (length row = m) as <-.
  { eapply Forall_forall in Hm; [done|]. by eapply list_elem_of_lookup_2. }
  apply roll1_moves. lia.
Qed.

(** * Shapes *)

Lemma has_shape_lookup {A} (n m : nat) (a : grid A) (x : nat) (row : list A) :
  has_shape n m a → a !! x = Some row → length row = m.
Proof.
  intros [_ Hm] Hrow. eapply Forall_forall in Hm; [done|].
  by eapply list_elem_of_lookup_2.
Qed.

Lemma has_shape_cons {A} (n m : nat) (row : list A) (a : grid A) :
  has_shape (S n) m (row :: a) ↔ length row = m ∧ has_shape n m a.
Proof.
  unfold has_shape. rewrite Forall_cons. simpl.
  split; [intros [[= ?] [? ?]]|intros [? [? ?]]]; auto.
Qed.

Lemma has_shape_nil_inv {A} (n m : nat) : has_shape (A := A) n m [] → n = 0%nat.
Proof. by intros [<- _]. Qed.

Lemma has_shape_cons_inv {A} (n m : nat) (row : list A) (a : grid A) :
  has_shape n m (row :: a) → ∃ n', n = S n' ∧ length row = m ∧ has_shape n' m a.
Proof.
  intros [Hn Hm]. apply Forall_cons in Hm as [? ?].
  exists (length a). by repeat split.
Qed.

(** * Planes of the distribution *)

Lemma plane_row_set_eq (i : nat) (row : list (list Q)) (prow : list Q) :
  (i < NQ)%nat → cells9 row → length prow = length row →
  (λ cell, nth i cell 0) <$> zip_with (λ cell v, <[i := v]> cell) row prow = prow.
Proof.
  intros Hi Hc. revert prow.
  induction Hc as [|cell row Hcell _ IH]; intros [|v prow] Hlen; try done.
  simpl in *. f_equal; [|apply IH; lia].
  rewrite nth_lookup, list_lookup_insert_eq by lia. done.
Qed.

Lemma plane_row_set_ne (i j : nat) (row : list (list Q)) (prow : list Q) :
  i ≠ j → length prow = length row →
  (λ cell, nth j cell 0) <$> zip_with (λ cell v, <[i := v]> cell) row prow
  = (λ cell, nth j cell 0) <$> row.
Proof.
  intros Hne. revert prow.
  induction row as [|cell row IH]; intros [|v prow] Hlen; try done.
  simpl in *. f_equal; [|apply IH; lia].
  by rewrite !nth_lookup, list_lookup_insert_ne.
Qed.

Lemma cells9_set (i : nat) (row : list (list Q)) (prow : list Q) :
  cells9 row → cells9 (zip_with (λ cell v, <[i := v]> cell) row prow).
Proof.
  intros Hc. revert prow.
  induction Hc as [|cell row Hcell _ IH]; intros [|v prow]; try constructor.
  - by rewrite length_insert.
  - apply IH.
Qed.

Lemma plane_shape (n m i : nat) (f : grid (list Q)) :
  has_shape3 n m f → has_shape n m (plane i f).
Proof.
  intros [[Hn Hm] _]. unfold plane. split.
  - by rewrite length_fmap.
  - apply Forall_fmap. eapply Forall_impl; [exact Hm|].
    intros row Hrow. simpl. by rewrite length_fmap.
Qed.

Lemma set_plane_shape (n m i : nat) (p : grid Q) (f : grid (list Q)) :
  has_shape3 n m f → has_shape n m p → has_shape3 n m (set_plane i p f).
Proof.
  revert m f p. induction n as [|n IH]; intros m f p [Hf Hc] Hp.
  - destruct f; [|by destruct Hf]. done.
  - destruct f as [|row f]; [by destruct Hf|].
    destruct p as [|prow p]; [by destruct Hp|].
    apply has_shape_cons in Hf as [Hrow Hf], Hp as [Hprow Hp].
    apply Forall_cons in Hc as [Hcr Hc].
    destruct (IH m f p) as [Hs Hc']; [done..|].
    split; [apply has_shape_cons; split; [|done]|apply Forall_cons; split; [|done]].
    + rewrite length_zip_with. lia.
    + by apply cells9_set.
Qed.

Lemma plane_set_plane_eq (n m i : nat) (p : grid Q) (f : grid (list Q)) :
  (i < NQ)%nat → has_shape3 n m f → has_shape n m p →
  plane i (set_plane i p f) = p.
Proof.
  intros Hi. revert f p. induction n as [|n IH]; intros f p [Hf Hc] Hp.
  - destruct f; [|by destruct Hf]. destruct p; [done|by destruct Hp].
  - destruct f as [|row f]; [by destruct Hf|].
    destruct p as [|prow p]; [by destruct Hp|].
    apply has_shape_cons in Hf as [Hrow Hf], Hp as [Hprow Hp].
    apply Forall_cons in Hc as [Hcr Hc].
    unfold plane, set_plane in *. cbn [zip_with fmap list_fmap]. f_equal.
    + apply plane_row_set_eq; [done..|lia].
    + by apply IH.
Qed.

Lemma plane_set_plane_ne (n m i j : nat) (p : grid Q) (f : grid (list Q)) :
  i ≠ j → has_shape3 n m f → has_shape n m p →
  plane j (set_plane i p f) = plane j f.
Proof.
  intros Hne. revert f p. induction n as [|n IH]; intros f p [Hf Hc] Hp.
  - destruct f; [|by destruct Hf]. done.
  - destruct f as [|row f]; [by destruct Hf|].
    destruct p as [|prow p]; [by destruct Hp|].
    apply has_shape_cons in Hf as [Hrow Hf], Hp as [Hprow Hp].
    apply Forall_cons in Hc as [Hcr Hc].
    unfold plane, set_plane in *. cbn [zip_with fmap list_fmap]. f_equal.
    + apply plane_row_set_ne; [done|lia].
    + by apply IH.
Qed.

(** * Streaming *)

Lemma stream_step_shape (n m i : nat) (f : grid (list Q)) :
  has_shape3 n m f → has_shape3 n m (stream_step f i).
Proof.
  intros Hf. apply set_plane_shape; [done|].
  apply roll_shape. by apply plane_shape.
Qed.

Lemma foldl_stream_step (n m : nat) (idxs : list nat) (f : grid (list Q)) :
  has_shape3 n m f → Forall (λ i, (i < NQ)%nat) idxs → NoDup idxs →
  has_shape3 n m (foldl stream_step f idxs)
  ∧ ∀ j, plane j (foldl stream_step f idxs)
         = if decide (j ∈ idxs) then roll (plane j f) (nth j c (0, 0)%Z)
           else plane j f.
Proof.
  revert f. induction idxs as [|i idxs IH]; intros f Hf Hlt Hnd.
  - split; [done|]. intros j. by rewrite decide_False by apply not_elem_of_nil.
  - apply Forall_cons in Hlt as [Hi Hlt]. apply NoDup_cons in Hnd as [Hni Hnd].
    cbn [foldl].
    destruct (IH (stream_step f i)) as [Hs Hp];
      [by apply stream_step_shape|done..|].
    split; [done|]. intros j. rewrite Hp.
    assert (Hr : has_shape n m (roll (plane i f) (nth i c (0, 0)%Z))).
    { apply roll_shape. by apply plane_shape. }
    destruct (decide (j ∈ idxs)) as [Hin|Hin].
    + rewrite decide_True by (by right).
      unfold stream_step.
      rewrite (plane_set_plane_ne n m) by (done || by intros ->). done.
    + destruct (decide (i = j)) as [->|Hne].
      * rewrite decide_True by (by left). by apply (plane_set_plane_eq n m).
      * rewrite decide_False by (by intros [->|?]%elem_of_cons).
        by apply (plane_set_plane_ne n m).
Qed.

Lemma stream_planes (n m : nat) (f : grid (list Q)) :
  has_shape3 n m f →
  has_shape3 n m (stream f)
  ∧ ∀ i, (i < NQ)%nat → plane i (stream f) = roll (plane i f) (nth i c (0, 0)%Z).
Proof.
  intros Hf.
  destruct (foldl_stream_step n m (seq 0 NQ) f) as [Hs Hp]; [done| |apply NoDup_seq|].
  { apply Forall_forall. intros i Hi. apply elem_of_seq in Hi. lia. }
  split; [exact Hs|]. intros i Hi.
  unfold stream.
  rewrite Hp, decide_True; [done|]. apply elem_of_seq. lia.
Qed.

(** C5.  On a distribution of shape [(n, m, 9)], streaming replaces each of
    the nine directional fields by its roll by the offset vector of the
    direction: the population of direction [i] at cell [(x, y)] moves to
    cell [((x + c[i].x) mod n, (y + c[i].y) mod m)], wrapping around at the
    edges; and rolling any field by a vector [v] and then by [-v] gives the
    field back. *)
Theorem streaming_periodic_roundtrip (n m : nat) (f : grid (list Q)) :
  has_shape3 n m f →
  (∀ i, (i < 9)%nat → plane i (stream f) = roll (plane i f) (nth i c (0, 0)%Z))
  ∧ (∀ i x y, (i < 9)%nat → (x < n)%nat → (y < m)%nat →
       entry (plane i (stream f))
         (Z.to_nat ((Z.of_nat x + (nth i c (0, 0)%Z).1) `mod` Z.of_nat n))
         (Z.to_nat ((Z.of_nat y + (nth i c (0, 0)%Z).2) `mod` Z.of_nat m))
       = entry (plane i f) x y)
  ∧ (∀ (a : grid Q) (v : Z * Z), roll (roll a v) (- v.1, - v.2)%Z = a).
Proof.
  intros Hf. destruct (stream_planes n m f Hf) as [_ Hp].
  split; [exact Hp|split].
  - intros i x y Hi Hx Hy. rewrite Hp by done.
    apply roll_moves; [by apply plane_shape|done..].
  - intros a v. apply roll_inverse.
Qed.

Lemma streaming_periodic_roundtrip_witness :
  (∀ i, (i < 9)%nat →
     plane i (stream (f cavity3)) = roll (plane i (f cavity3)) (nth i c (0, 0)%Z))
  ∧ (∀ i x y, (i < 9)%nat → (x < 3)%nat → (y < 3)%nat →
       entry (plane i (stream (f cavity3)))
         (Z.to_nat ((Z.of_nat x + (nth i c (0, 0)%Z).1) `mod` Z.of_nat 3))
         (Z.to_nat ((Z.of_nat y + (nth i c (0, 0)%Z).2) `mod` Z.of_nat 3))
       = entry (plane i (f cavity3)) x y)
  ∧ (∀ (a : grid Q) (v : Z * Z), roll (roll a v) (- v.1, - v.2)%Z = a).
Proof.
  apply (streaming_periodic_roundtrip 3 3 (f cavity3)).
  vm_compute. repeat (split || constructor).
Defined.

(** * Boolean-mask indexing *)

Section Masks.
Context {A : Type}.
Implicit Types (m : list bool) (row vals : list A) (mask : grid bool) (a : grid A).

(** Writing back a function of what was read changes the masked entries
    in place. *)
Lemma scatter_row_fmap (g : A → A) m row vals :
  length m = length row →
  scatter_row m row ((g <$> compress m row) ++ vals)
  = (zip_with (λ (b : bool) x, if b then g x else x) m row, vals).
Proof.
  revert row. induction m as [|b m IH]; intros [|x row] Hlen; try done.
  injection Hlen as Hlen. destruct b; cbn [scatter_row compress fmap list_fmap app zip_with].
  - by rewrite (IH row Hlen).
  - by rewrite (IH row Hlen).
Qed.

Lemma scatter_fmap (g : A → A) mask a vals :
  Forall2 (λ m row, length m = length row) mask a →
  scatter mask a ((g <$> mask_get mask a) ++ vals)
  = (zip_with (zip_with (λ (b : bool) x, if b then g x else x)) mask a, vals).
Proof.
  intros Hs. revert vals. induction Hs as [|m row mask a Hlen _ IH]; intros vals.
  - done.
  - unfold mask_get. cbn [scatter zip_with concat].
    rewrite fmap_app, <- app_assoc, scatter_row_fmap by done.
    unfold mask_get in IH. by rewrite IH.
Qed.

Lemma mask_set_fmap (g : A → A) mask a :
  Forall2 (λ m row, length m = length row) mask a →
  mask_set mask a (g <$> mask_get mask a)
  = zip_with (zip_with (λ (b : bool) x, if b then g x else x)) mask a.
Proof.
  intros Hs. unfold mask_set.
  rewrite <- (app_nil_r (g <$> _)). by rewrite scatter_fmap.
Qed.
End Masks.

Lemma same_shape {A B} (n m : nat) (a : grid A) (b : grid B) :
  has_shape n m a → has_shape n m b →
  Forall2 (λ r1 r2, length r1 = length r2) a b.
Proof.
  revert a b. induction n as [|n IH]; intros a b Ha Hb.
  - destruct a; [|by destruct Ha]. destruct b; [|by destruct Hb]. constructor.
  - destruct a as [|ra a]; [by destruct Ha|]. destruct b as [|rb b]; [by destruct Hb|].
    apply has_shape_cons in Ha as [? ?], Hb as [? ?].
    constructor; [congruence|by apply IH].
Qed.

(** Lookup in an array changed under a mask. *)
Lemma entry_zip_with_mask {A} (g : A → A) (mask : grid bool) (a : grid A)
    (x y : nat) :
  entry (zip_with (zip_with (λ (b : bool) v, if b then g v else v)) mask a) x y
  = (b ← entry mask x y; v ← entry a x y; Some (if b : bool then g v else v)).
Proof.
  unfold entry. rewrite lookup_zip_with.
  destruct (mask !! x) as [m|]; [|done].
  destruct (a !! x) as [row|]; cbn [mbind option_bind].
  - rewrite lookup_zip_with. destruct (m !! y); done.
  - by destruct (m !! y).
Qed.

(** * Bounce-back *)

Lemma bounce_back_f_cells (n m : nat) (wall : grid bool) (f : grid (list Q)) :
  has_shape n m wall → has_shape n m f →
  bounce_back_f wall f
  = zip_with (zip_with (λ (b : bool) cell, if b then reflect cell else cell)) wall f.
Proof.
  intros Hw Hf. unfold bounce_back_f, take_cols.
  apply (mask_set_fmap reflect). by apply (same_shape n m).
Qed.

Lemma reflect_lookup (cell : list Q) (i : nat) :
  length cell = 9%nat → (i < 9)%nat →
  reflect cell !! i = cell !! opposite_direction i.
Proof.
  intros Hlen Hi.
  do 9 (destruct cell as [|? cell]; [done|]). destruct cell; [|done].
  do 9 (destruct i as [|i]; [done|]). lia.
Qed.

Lemma mask_fill_entry {A} (mask : grid bool) (v : A) (a : grid A) (x y : nat) :
  entry (mask_fill mask v a) x y
  = (b ← entry mask x y; u ← entry a x y; Some (if b : bool then v else u)).
Proof.
  unfold entry, mask_fill. rewrite lookup_zip_with.
  destruct (mask !! x) as [m|]; [|done].
  destruct (a !! x) as [row|]; cbn [mbind option_bind].
  - rewrite lookup_zip_with. destruct (m !! y); done.
  - by destruct (m !! y).
Qed.

Lemma entry_is_Some {A} (n m : nat) (a : grid A) (x y : nat) :
  has_shape n m a → (x < n)%nat → (y < m)%nat → is_Some (entry a x y).
Proof.
  intros Ha Hx Hy. unfold entry.
  destruct (lookup_lt_is_Some_2 a x) as [row Hrow]; [destruct Ha; lia|].
  rewrite Hrow. cbn [mbind option_bind]. apply lookup_lt_is_Some_2.
  by rewrite (has_shape_lookup n m a x row).
Qed.

Lemma entry_Some_lt {A} (n m : nat) (a : grid A) (x y : nat) (v : A) :
  has_shape n m a → entry a x y = Some v → (x < n)%nat ∧ (y < m)%nat.
Proof.
  intros Ha. unfold entry.
  destruct (a !! x) as [row|] eqn:Hrow; [|done]. cbn [mbind option_bind].
  intros Hy. split.
  - destruct Ha as [<- _]. by eapply lookup_lt_Some.
  - rewrite <- (has_shape_lookup n m a x row) by done. by eapply lookup_lt_Some.
Qed.

(** C4.  In a model whose arrays have the shape of the grid, the bounce-back
    block leaves at every wall cell the populations it found there, permuted
    by the opposite-direction map (population [i] becomes the former
    population [opposite_direction i]), sets the velocity of the cell to
    (0, 0), and leaves the populations of every other cell as they were. *)
Theorem bounce_back_spec (self : LBM) (x y : nat) (b : bool) :
  fluid_shapes self →
  entry (wall self) x y = Some b →
  if b then
    (∃ cell cell',
        entry (f self) x y = Some cell
        ∧ entry (f (bounce_back self)) x y = Some cell'
        ∧ length cell' = 9%nat
        ∧ ∀ i, (i < 9)%nat → cell' !! i = cell !! opposite_direction i)
    ∧ entry (ux (bounce_back self)) x y = Some 0
    ∧ entry (uy (bounce_back self)) x y = Some 0
  else entry (f (bounce_back self)) x y = entry (f self) x y.
Proof.
  intros [Hw _ _ [Hf Hc] Hux Huy] Hb.
  destruct (entry_Some_lt _ _ _ _ _ _ Hw Hb) as [Hx Hy].
  destruct (entry_is_Some _ _ _ x y Hf Hx Hy) as [cell Hcell].
  destruct (entry_is_Some _ _ _ x y Hux Hx Hy) as [vx Hvx].
  destruct (entry_is_Some _ _ _ x y Huy Hx Hy) as [vy Hvy].
  assert (Hlen : length cell = 9%nat).
  { unfold entry in Hcell. destruct (f self !! x) as [row|] eqn:Hrow; [|done].
    cbn [mbind option_bind] in Hcell.
    eapply Forall_forall in Hc; [|by eapply list_elem_of_lookup_2].
    eapply Forall_forall in Hc; [|by eapply list_elem_of_lookup_2]. done. }
  assert (Hbf : entry (f (bounce_back self)) x y
                = Some (if b then reflect cell else cell)).
  { unfold bounce_back. cbn [f set_f bounce_back_velocity set_velocity set_moments wall].
    rewrite (bounce_back_f_cells _ _ _ _ Hw Hf), entry_zip_with_mask, Hb, Hcell. done. }
  destruct b.
  - split; [|split].
    + exists cell, (reflect cell). repeat split; [done..|].
      intros i Hi. by apply reflect_lookup.
    + unfold bounce_back. cbn [ux set_f bounce_back_velocity set_velocity set_moments].
      by rewrite mask_fill_entry, Hb, Hvx.
    + unfold bounce_back. cbn [uy set_f bounce_back_velocity set_velocity set_moments].
      by rewrite mask_fill_entry, Hb, Hvy.
  - by rewrite Hbf, Hcell.
Qed.

(** * Sums *)

Lemma sumq_app (l k : list Q) : sumq (l ++ k) == sumq l + sumq k.
Proof.
  induction l as [|x l IH]; simpl; [ring|]. rewrite IH. ring.
Qed.

Lemma sumq_rotate (n : nat) (l : list Q) : sumq (rotate n l) == sumq l.
Proof.
  unfold rotate. set (k := (n `mod` length l)%nat).
  rewrite <- (take_drop k l) at 3. rewrite !sumq_app. ring.
Qed.

Lemma sumq_roll1 (s : Z) (l : list Q) : sumq (roll1 s l) == sumq l.
Proof. apply sumq_rotate. Qed.

Lemma gsum_roll (a : grid Q) (v : Z * Z) : gsum (roll a v) == gsum a.
Proof.
  unfold gsum, roll. rewrite <- list_fmap_compose.
  transitivity (sumq (sumq <$> roll1 v.1 a)).
  - apply sumq_proper. apply Forall2_fmap, Forall_Forall2_diag, Forall_forall.
    intros row _. apply sumq_roll1.
  - rewrite <- roll1_fmap. apply sumq_roll1.
Qed.

Lemma row_total_planes (row : list (list Q)) :
  cells9 row →
  sumq (sumq <$> row)
  == sumq ((λ i, sumq ((λ cell, nth i cell 0) <$> row)) <$> seq 0 NQ).
Proof.
  induction 1 as [|cell row Hcell _ IH].
  - reflexivity.
  - cbn [fmap list_fmap sumq foldr]. fold (sumq (sumq <$> row)). rewrite IH.
    do 9 (destruct cell as [|? cell]; [done|]). destruct cell; [|done].
    change NQ with 9%nat. cbn [seq fmap list_fmap sumq foldr nth].
    unfold sumq. ring.
Qed.

Lemma total_planes (n m : nat) (f : grid (list Q)) :
  has_shape3 n m f → total_density f == sumq (plane_sums f).
Proof.
  intros [_ Hc]. unfold total_density, plane_sums, gsum, plane.
  induction Hc as [|row f Hrow _ IH].
  - reflexivity.
  - cbn [fmap list_fmap sumq foldr].
    fold (sumq (sumq <$> (fmap (M := list) sumq <$> f))). rewrite IH.
    rewrite (row_total_planes row Hrow).
    change NQ with 9%nat. cbn [seq fmap list_fmap sumq foldr].
    unfold sumq. ring.
Qed.

Lemma total_stream (n m : nat) (f : grid (list Q)) :
  has_shape3 n m f → total_density (stream f) == total_density f.
Proof.
  intros Hf. destruct (stream_planes n m f Hf) as [Hs Hp].
  rewrite (total_planes n m _ Hs), (total_planes n m _ Hf).
  apply sumq_proper. unfold plane_sums.
  apply Forall2_fmap, Forall_Forall2_diag, Forall_forall.
  intros i Hi. apply elem_of_seq in Hi.
  rewrite Hp by lia. apply gsum_roll.
Qed.

Lemma sumq_reflect (cell : list Q) :
  length cell = 9%nat → sumq (reflect cell) == sumq cell.
Proof.
  intros Hlen.
  do 9 (destruct cell as [|? cell]; [done|]). destruct cell; [|done].
  unfold reflect, opposite. cbn [fmap list_fmap nth sumq foldr]. ring.
Qed.

(** Two distributions whose corresponding cells have the same sum have the
    same total density. *)
Lemma total_density_cells (f g : grid (list Q)) :
  Forall2 (Forall2 (λ c1 c2, sumq c1 == sumq c2)) f g →
  total_density f == total_density g.
Proof.
  intros H. unfold total_density. apply sumq_proper.
  apply Forall2_fmap, Forall2_fmap. eapply Forall2_impl; [exact H|].
  intros r1 r2 Hr. apply sumq_proper.
  by apply Forall2_fmap.
Qed.

Lemma Forall2_zip_with_mask {A} (P : A → A → Prop) (g : A → A)
    (m : list bool) (row : list A) :
  length m = length row →
  Forall (λ x, P (g x) x ∧ P x x) row →
  Forall2 P (zip_with (λ (b : bool) x, if b then g x else x) m row) row.
Proof.
  intros Hlen Hrow. revert m Hlen.
  induction Hrow as [|x row [Hg Hx] _ IH]; intros [|b m] Hlen; try done.
  injection Hlen as Hlen. cbn [zip_with]. constructor; [by destruct b|by apply IH].
Qed.

Lemma total_bounce (n m : nat) (wall : grid bool) (f : grid (list Q)) :
  has_shape n m wall → has_shape3 n m f →
  total_density (bounce_back_f wall f) == total_density f.
Proof.
  intros Hw [Hf Hc]. rewrite (bounce_back_f_cells n m) by done.
  apply total_density_cells.
  pose proof (same_shape n m wall f Hw Hf) as Hs.
  clear Hw Hf. induction Hs as [|mrow row wall f Hlen _ IH].
  - constructor.
  - apply Forall_cons in Hc as [Hrow Hc]. cbn [zip_with].
    constructor; [|by apply IH].
    apply Forall2_zip_with_mask; [done|].
    eapply Forall_impl; [exact Hrow|]. intros cell Hcell. simpl.
    split; [by apply sumq_reflect|reflexivity].
Qed.

Lemma bounce_back_f_shape (n m : nat) (wall : grid bool) (f : grid (list Q)) :
  has_shape n m wall → has_shape3 n m f → has_shape3 n m (bounce_back_f wall f).
Proof.
  intros Hw [Hf Hc]. rewrite (bounce_back_f_cells n m) by done.
  revert wall f Hw Hf Hc. induction n as [|n IH]; intros wall f Hw Hf Hc.
  - destruct wall; [|by destruct Hw]. destruct f; [|by destruct Hf]. done.
  - destruct wall as [|mrow wall]; [by destruct Hw|].
    destruct f as [|row f]; [by destruct Hf|].
    apply has_shape_cons in Hw as [Hm Hw], Hf as [Hr Hf].
    apply Forall_cons in Hc as [Hrow Hc].
    destruct (IH wall f) as [Hs Hc']; [done..|].
    cbn [zip_with].
    split; [apply has_shape_cons; split; [|done]|apply Forall_cons; split; [|done]].
    + rewrite length_zip_with. lia.
    + clear -Hrow. revert mrow. induction Hrow as [|cell row Hcell _ IHr];
        intros [|b mrow]; try constructor; [|apply IHr].
      destruct b; [reflexivity|done].
Qed.

(** Collision. *)
Lemma sumq_collide (t : Q) (cell e : list Q) :
  length cell = length e → sumq e == sumq cell →
  sumq (zip_with (λ x v, x * (1 - (1 / t)) + (1 / t) * v) cell e) == sumq cell.
Proof.
  intros Hlen He.
  assert (sumq (zip_with (λ x v, x * (1 - (1 / t)) + (1 / t) * v) cell e)
          == sumq cell * (1 - (1 / t)) + (1 / t) * sumq e) as ->.
  { clear He. revert e Hlen. induction cell as [|x cell IH]; intros [|v e] Hlen; try done.
    - simpl. ring.
    - injection Hlen as Hlen. cbn [zip_with sumq foldr].
      fold (sumq (zip_with (λ x v, x * (1 - (1 / t)) + (1 / t) * v) cell e)).
      fold (sumq cell). fold (sumq e). rewrite (IH e Hlen). ring. }
  rewrite He. ring.
Qed.

Lemma length_collide_cell (t : Q) (cell e : list Q) :
  length cell = length e →
  length (zip_with (λ x v, x * (1 - (1 / t)) + (1 / t) * v) cell e) = length cell.
Proof. intros Hlen. rewrite length_zip_with. lia. Qed.

(** * One iteration, step by step *)

Lemma lbm_iteration_run (ih : nat → M unit) (oh : M unit) (it : nat) (self : LBM) :
  lbm_iteration ih oh it self
  = let s1 := store_moments self in
    match equilibrium_field s1 with
    | None => Raise ValueError s1
    | Some f_eq =>
        match np_min (flatten (flatten f_eq)) with
        | None => Raise ValueError s1
        | Some lowest =>
            if Qle_bool 0 lowest then
              if Qeq_bool (tau s1) 0 then Raise ZeroDivisionError s1
              else match ih it (fluid_step f_eq s1) with
                   | Ok _ s2 => oh s2
                   | Raise e s2 => Raise e s2
                   end
            else
              match np_argmin (flatten (flatten f_eq)) with
              | None => Raise ValueError s1
              | Some at_ =>
                  Raise (AssertionError (unravel_index at_ (height s1) NQ)) s1
              end
        end
    end.
Proof.
  unfold lbm_iteration, mbind, M_bind, modify, check, read, raise, mret, M_ret.
  cbv zeta.
  destruct (equilibrium_field (store_moments self)) as [f_eq|]; [|done].
  destruct (np_min (flatten (flatten f_eq))) as [lowest|]; [|done].
  destruct (Qle_bool 0 lowest).
  - destruct (Qeq_bool (tau (store_moments self)) 0); done.
  - destruct (np_argmin (flatten (flatten f_eq))); done.
Qed.

(** * The moments and the equilibrium, cell by cell *)

Lemma zip_with_fmap_same {A B C D} (g : B → C → D) (h1 : A → B) (h2 : A → C)
    (l : list A) :
  zip_with g (h1 <$> l) (h2 <$> l) = (λ x, g (h1 x) (h2 x)) <$> l.
Proof. induction l as [|x l IH]; csimpl; [done|]. by rewrite IH. Qed.

Lemma zip3_with_fmap_same {A B C D E} (g : B → C → D → E)
    (h1 : A → B) (h2 : A → C) (h3 : A → D) (l : list A) :
  zip3_with g (h1 <$> l) (h2 <$> l) (h3 <$> l)
  = (λ x, g (h1 x) (h2 x) (h3 x)) <$> l.
Proof.
  unfold zip3_with. by rewrite (zip_with_fmap_same pair), zip_with_fmap_same.
Qed.

Lemma moment_update_cells (f : grid (list Q)) :
  moment_update f
  = (fmap (M := list) sumq <$> f,
     fmap (M := list) (cell_u c0) <$> f,
     fmap (M := list) (cell_u c1) <$> f).
Proof.
  unfold moment_update. cbv zeta. do 2 f_equal.
  - rewrite zip_with_fmap_same. apply list_fmap_ext. intros _ row _.
    by rewrite zip_with_fmap_same.
  - rewrite zip_with_fmap_same. apply list_fmap_ext. intros _ row _.
    by rewrite zip_with_fmap_same.
Qed.

Lemma length_flatten {A} (n m : nat) (a : grid A) :
  has_shape n m a → length (flatten a) = (n * m)%nat.
Proof.
  revert a. induction n as [|n IH]; intros a Ha.
  - destruct a; [done|by destruct Ha].
  - destruct a as [|row a]; [by destruct Ha|].
    apply has_shape_cons in Ha as [Hrow Ha].
    unfold flatten in *. cbn [mjoin list_join]. rewrite length_app, IH by done. lia.
Qed.

Lemma zip3_with_app {A B C D} (g : A → B → C → D) l1 l2 k1 k2 j1 j2 :
  length l1 = length k1 → length l1 = length j1 →
  zip3_with g (l1 ++ l2) (k1 ++ k2) (j1 ++ j2)
  = zip3_with g l1 k1 j1 ++ zip3_with g l2 k2 j2.
Proof.
  intros H1 H2. unfold zip3_with.
  rewrite (zip_with_app pair) by done. rewrite zip_with_app; [done|].
  rewrite length_zip_with. lia.
Qed.

Lemma reshape_flatten_zip3 {A B C D} (g : A → B → C → D) (n m : nat)
    (a : grid A) (b : grid B) (d : grid C) :
  has_shape n m a → has_shape n m b → has_shape n m d →
  reshape n m (zip3_with g (flatten a) (flatten b) (flatten d))
  = zip3_with (zip3_with g) a b d.
Proof.
  revert a b d. induction n as [|n IH]; intros a b d Ha Hb Hd.
  - destruct a; [done|by destruct Ha].
  - destruct a as [|ra a]; [by destruct Ha|].
    destruct b as [|rb b]; [by destruct Hb|].
    destruct d as [|rd d]; [by destruct Hd|].
    apply has_shape_cons in Ha as [Hra Ha], Hb as [Hrb Hb], Hd as [Hrd Hd].
    unfold flatten in *. cbn [mjoin list_join reshape].
    rewrite zip3_with_app by congruence.
    rewrite take_app_length', drop_app_length'
      by (symmetry; by apply length_zip3_with).
    by rewrite IH.
Qed.

Lemma fmap_shape {A B} (g : A → B) (n m : nat) (a : grid A) :
  has_shape n m a → has_shape n m (fmap (M := list) g <$> a).
Proof.
  intros [Hn Hm]. split; [by rewrite length_fmap|].
  apply Forall_fmap. eapply Forall_impl; [exact Hm|].
  intros row Hrow. simpl. by rewrite length_fmap.
Qed.

Lemma store_moments_fields (self : LBM) :
  store_moments self
  = set_moments (fmap (M := list) sumq <$> f self)
      (fmap (M := list) (cell_u c0) <$> f self)
      (fmap (M := list) (cell_u c1) <$> f self) self.
Proof. unfold store_moments. by rewrite moment_update_cells. Qed.

Lemma equilibrium_field_cells (self : LBM) :
  has_shape (width self) (height self) (f self) →
  equilibrium_field (store_moments self)
  = Some (fmap (M := list) (eq_cell (cssq self)) <$> f self).
Proof.
  intros Hf. rewrite store_moments_fields. unfold equilibrium_field.
  cbn [width height rho ux uy set_moments].
  rewrite get_equilibrium_rows. unfold broadcast.
  rewrite !decide_True by (by apply length_flatten, fmap_shape).
  cbn [mbind option_bind cssq set_moments]. f_equal.
  unfold f_eq_rows.
  rewrite reshape_flatten_zip3 by (by apply fmap_shape).
  rewrite zip3_with_fmap_same. apply list_fmap_ext. intros _ row _.
  by rewrite zip3_with_fmap_same.
Qed.

Lemma length_eq_cell (cs : Q) (cell : list Q) : length (eq_cell cs cell) = 9%nat.
Proof. reflexivity. Qed.

Lemma sumq_eq_cell (cell : list Q) : sumq (eq_cell (1 # 3) cell) == sumq cell.
Proof. apply f_eq_entry_sum. Qed.

(** Collision keeps the sum of every cell. *)
Lemma collide_cells (t cs : Q) (f : grid (list Q)) :
  collide t f (fmap (M := list) (eq_cell cs) <$> f)
  = fmap (M := list)
      (λ cell, zip_with (λ x e, x * (1 - (1 / t)) + (1 / t) * e) cell (eq_cell cs cell))
    <$> f.
Proof.
  unfold collide.
  rewrite <- (list_fmap_id f) at 1. rewrite zip_with_fmap_same.
  apply list_fmap_ext. intros _ row _. simpl.
  rewrite <- (list_fmap_id row) at 1. by rewrite zip_with_fmap_same.
Qed.

Lemma collide_shape (n m : nat) (t cs : Q) (f : grid (list Q)) :
  has_shape3 n m f →
  has_shape3 n m (collide t f (fmap (M := list) (eq_cell cs) <$> f)).
Proof.
  intros [Hf Hc]. rewrite collide_cells. split; [by apply fmap_shape|].
  apply Forall_fmap. eapply Forall_impl; [exact Hc|].
  intros row Hrow. simpl. apply Forall_fmap.
  eapply Forall_impl; [exact Hrow|]. intros cell Hcell. simpl.
  rewrite length_zip_with, length_eq_cell, Hcell. done.
Qed.

Lemma total_collide (n m : nat) (t : Q) (f : grid (list Q)) :
  has_shape3 n m f →
  total_density (collide t f (fmap (M := list) (eq_cell (1 # 3)) <$> f))
  == total_density f.
Proof.
  intros [Hf Hc]. rewrite collide_cells. apply total_density_cells.
  apply Forall2_fmap_l, Forall_Forall2_diag.
  eapply Forall_impl; [exact Hc|]. intros row Hrow. simpl.
  apply Forall2_fmap_l, Forall_Forall2_diag.
  eapply Forall_impl; [exact Hrow|]. intros cell Hcell. simpl.
  apply sumq_collide; [by rewrite length_eq_cell|apply sumq_eq_cell].
Qed.

(** * The default handlers on a model without inlet or outlet cells *)

Lemma compress_all_false {A} (m : list bool) (l : list A) :
  Forall (λ b, b = false) m → compress m l = [].
Proof.
  intros Hm. revert l. induction Hm as [|b m -> _ IH]; intros [|x l]; try done.
  apply IH.
Qed.

Lemma mask_get_all_false {A} (mask : grid bool) (a : grid A) :
  all_false mask → mask_get mask a = [].
Proof.
  intros Hm. revert a. unfold mask_get.
  induction Hm as [|m mask Hrow _ IH]; intros [|row a]; try done.
  cbn [zip_with concat]. by rewrite compress_all_false, IH.
Qed.

Lemma scatter_row_nil {A} (m : list bool) (row : list A) :
  scatter_row m row [] = (row, []).
Proof.
  revert row. induction m as [|b m IH]; intros [|x row]; try done.
  cbn [scatter_row]. destruct b; [done|]. by rewrite IH.
Qed.

Lemma mask_set_nil {A} (mask : grid bool) (a : grid A) : mask_set mask a [] = a.
Proof.
  unfold mask_set. revert a. induction mask as [|m mask IH]; intros [|row a]; try done.
  cbn [scatter]. rewrite scatter_row_nil.
  specialize (IH a). destruct (scatter mask a []) as [a' rest]. simpl in *. by subst.
Qed.

Lemma set_f_same (s : LBM) : set_f (f s) s = s.
Proof. by destruct s. Qed.

Lemma get_equilibrium_no_cell (model : LBM) (x y : Q) :
  get_equilibrium model 0 (Array []) (Scalar x) (Scalar y) = Some [].
Proof. by rewrite get_equilibrium_rows. Qed.

Lemma get_equilibrium_no_cell' (model : LBM) :
  get_equilibrium model 0 (Array []) (Array []) (Array []) = Some [].
Proof. by rewrite get_equilibrium_rows. Qed.

Lemma inlet_handler_no_inlet (it : nat) (model : LBM) :
  all_false (inlet model) → inlet_handler it model = Ok () model.
Proof.
  intros Hm. unfold inlet_handler. cbv zeta.
  rewrite mask_get_all_false by done. cbn [fmap list_fmap length].
  by rewrite get_equilibrium_no_cell, mask_set_nil, set_f_same.
Qed.

Lemma outlet_handler_no_outlet (model : LBM) :
  all_false (outlet model) → outlet_handler model = Ok () model.
Proof.
  intros Hm. unfold outlet_handler. cbv zeta.
  rewrite !mask_get_all_false by done. cbn [length].
  by rewrite get_equilibrium_no_cell', mask_set_nil, set_f_same.
Qed.

Lemma fluid_step_f (f_eq : grid (list Q)) (s1 : LBM) :
  f (fluid_step f_eq s1)
  = bounce_back_f (wall s1) (stream (collide (tau s1) (f s1) f_eq)).
Proof. reflexivity. Qed.

(** C6.  In a model with the arrays of the shape of its grid, the squared
    speed of sound 1/3, and no inlet and no outlet cell, an iteration with
    the default handlers that returns leaves the total density (the sum of
    all populations of all cells) as it found it. *)
Theorem mass_conservation (self s' : LBM) (it : nat) :
  fluid_shapes self →
  cssq self = 1 # 3 →
  all_false (inlet self) →
  all_false (outlet self) →
  lbm_iteration inlet_handler outlet_handler it self = Ok () s' →
  total_density (f s') == total_density (f self).
Proof.
  intros [Hw _ _ Hf _ _] Hcs Hin Hout Hrun.
  rewrite lbm_iteration_run in Hrun. cbv zeta in Hrun.
  rewrite equilibrium_field_cells in Hrun by apply Hf.
  set (s1 := store_moments self) in *.
  set (E := fmap (M := list) (eq_cell (cssq self)) <$> f self) in *.
  assert (Hs1 : f s1 = f self ∧ wall s1 = wall self ∧ inlet s1 = inlet self
                ∧ outlet s1 = outlet self).
  { unfold s1. by rewrite store_moments_fields. }
  destruct Hs1 as (Hf1 & Hw1 & Hi1 & Ho1).
  destruct (np_min (flatten (flatten E))) as [lowest|]; [|done].
  destruct (Qle_bool 0 lowest); [|by destruct (np_argmin _)].
  destruct (Qeq_bool (tau s1) 0); [done|].
  rewrite inlet_handler_no_inlet in Hrun
    by (change (all_false (inlet s1)); by rewrite Hi1).
  rewrite outlet_handler_no_outlet in Hrun
    by (change (all_false (outlet s1)); by rewrite Ho1).
  injection Hrun as <-. rewrite fluid_step_f, Hf1, Hw1.
  unfold E. rewrite Hcs.
  pose proof (collide_shape _ _ (tau s1) (1 # 3) _ Hf) as Hc.
  destruct (stream_planes _ _ _ Hc) as [Hs _].
  rewrite (total_bounce _ _ _ _ Hw Hs), (total_stream _ _ _ Hc).
  by apply (total_collide (width self) (height self)).
Qed.

(** * The minimum and where it is *)

Lemma Qltb_lt (x y : Q) : Qltb x y = true ↔ x < y.
Proof.
  unfold Qltb. rewrite negb_true_iff, <- not_true_iff_false, Qle_bool_iff.
  split; [apply Qnot_le_lt|apply Qlt_not_le].
Qed.

Lemma Qltb_ge (x y : Q) : Qltb x y = false ↔ y <= x.
Proof. unfold Qltb. by rewrite negb_false_iff, Qle_bool_iff. Qed.

Lemma argmin_from_spec (pre l : list Q) (bi : nat) (b : Q) :
  first_min pre bi b →
  first_min (pre ++ l) (argmin_from bi b (length pre) l).1
    (argmin_from bi b (length pre) l).2.
Proof.
  revert pre bi b. induction l as [|x l IH]; intros pre bi b Hpre.
  - by rewrite app_nil_r.
  - cbn [argmin_from].
    replace (pre ++ x :: l) with ((pre ++ [x]) ++ l) by (by rewrite <- app_assoc).
    replace (S (length pre)) with (length (pre ++ [x]))
      by (rewrite length_app; simpl; lia).
    destruct Hpre as (Hb & Hle & Hlt).
    assert (Hbi : (bi < length pre)%nat) by (by eapply lookup_lt_Some).
    destruct (Qltb x b) eqn:Hx; apply IH.
    + apply Qltb_lt in Hx. split; [|split].
      * rewrite lookup_app_r by lia.
        by replace (length pre - length pre)%nat with 0%nat by lia.
      * intros j y Hj. apply lookup_app_Some in Hj as [Hj|[_ Hj]].
        -- specialize (Hle j y Hj). lra.
        -- apply list_lookup_singleton_Some in Hj as [_ <-]. lra.
      * intros j y Hjk Hj.
        rewrite lookup_app_l in Hj by lia. specialize (Hle j y Hj). lra.
    + apply Qltb_ge in Hx. split; [|split].
      * by rewrite lookup_app_l.
      * intros j y Hj. apply lookup_app_Some in Hj as [Hj|[_ Hj]].
        -- by apply (Hle j).
        -- by apply list_lookup_singleton_Some in Hj as [_ <-].
      * intros j y Hjk Hj. rewrite lookup_app_l in Hj by lia. by apply (Hlt j).
Qed.

Lemma np_argmin_min_spec (l : list Q) :
  l ≠ [] →
  ∃ k v, np_argmin l = Some k ∧ np_min l = Some v ∧ first_min l k v.
Proof.
  destruct l as [|x l]; [done|]. intros _.
  eexists _, _. split; [done|]. split; [done|].
  apply (argmin_from_spec [x] l 0 x). split; [done|]. split.
  - intros j y Hj. apply list_lookup_singleton_Some in Hj as [_ <-]. lra.
  - intros j y Hj. lia.
Qed.

(** * Flat indices *)

Lemma lookup_flatten {A} (n m : nat) (a : grid A) (k : nat) (v : A) :
  has_shape n m a →
  flatten a !! k = Some v
  ↔ ∃ x y, entry a x y = Some v ∧ (y < m)%nat ∧ k = (x * m + y)%nat.
Proof.
  intros [_ Hm]. unfold flatten, entry.
  rewrite (join_lookup_Some_same_length m) by done. split.
  - intros (x & row & y & Hrow & Hy & ->). exists x, y. rewrite Hrow.
    split; [done|]. split; [|done].
    eapply Forall_forall in Hm; [|by eapply list_elem_of_lookup_2].
    rewrite <- Hm. by eapply lookup_lt_Some.
  - intros (x & y & Hv & Hy & ->).
    destruct (a !! x) as [row|] eqn:Hrow; [|done]. by exists x, row, y.
Qed.

Lemma unravel_index_spec (x y i b d : nat) :
  (y < b)%nat → (i < d)%nat →
  unravel_index ((x * b + y) * d + i) b d = (x, y, i).
Proof.
  intros Hy Hi. unfold unravel_index.
  assert (((x * b + y) * d + i) / d = x * b + y)%nat as Hd.
  { symmetry. apply (Nat.div_unique _ _ _ i); lia. }
  assert (((x * b + y) * d + i) `mod` d = i)%nat as Hm.
  { symmetry. apply (Nat.mod_unique _ _ (x * b + y)); lia. }
  rewrite Hd, Hm. do 2 f_equal.
  - symmetry. apply (Nat.div_unique _ _ _ (y * d + i)); nia.
  - symmetry. apply (Nat.mod_unique _ _ x); lia.
Qed.

Lemma lookup_flatten3 (n m : nat) (f : grid (list Q)) (k : nat) (v : Q) :
  has_shape3 n m f →
  flatten (flatten f) !! k = Some v
  ↔ ∃ x y i, entry3 f x y i = Some v ∧ (y < m)%nat ∧ (i < NQ)%nat
             ∧ k = ((x * m + y) * NQ + i)%nat.
Proof.
  intros [Hf Hc].
  assert (Hflat : has_shape (n * m) NQ (flatten f)).
  { split; [by apply length_flatten|].
    unfold flatten. by apply Forall_join. }
  rewrite (lookup_flatten _ _ _ _ _ Hflat). unfold entry3. split.
  - intros (j & i & Hv & Hi & ->). unfold entry in Hv at 1.
    destruct (flatten f !! j) as [cell|] eqn:Hcell; [|done].
    apply (lookup_flatten n m) in Hcell as (x & y & Hcell & Hy & ->); [|done].
    exists x, y, i. by rewrite Hcell.
  - intros (x & y & i & Hv & Hy & Hi & ->).
    destruct (entry f x y) as [cell|] eqn:Hcell; [|done].
    exists (x * m + y)%nat, i. split; [|done]. unfold entry at 1.
    assert (flatten f !! (x * m + y)%nat = Some cell) as ->; [|done].
    apply (lookup_flatten n m); [done|]. by exists x, y.
Qed.

(** * The default handlers return *)

Lemma length_compress_same {A B} (m : list bool) (l : list A) (k : list B) :
  length m = length l → length m = length k →
  length (compress m l) = length (compress m k).
Proof.
  revert l k. induction m as [|b m IH]; intros [|x l] [|y k] Hl Hk; try done.
  injection Hl as Hl. injection Hk as Hk. cbn [compress].
  destruct b; cbn [length]; by rewrite (IH l k).
Qed.

Lemma length_mask_get_same {A B} (n m : nat) (mask : grid bool)
    (a : grid A) (b : grid B) :
  has_shape n m mask → has_shape n m a → has_shape n m b →
  length (mask_get mask a) = length (mask_get mask b).
Proof.
  revert mask a b. induction n as [|n IH]; intros mask a b Hm Ha Hb.
  - destruct mask; [done|by destruct Hm].
  - destruct mask as [|rm mask]; [by destruct Hm|].
    destruct a as [|ra a]; [by destruct Ha|].
    destruct b as [|rb b]; [by destruct Hb|].
    apply has_shape_cons in Hm as [Hrm Hm], Ha as [Hra Ha], Hb as [Hrb Hb].
    unfold mask_get in *. cbn [zip_with concat]. rewrite !length_app.
    rewrite (IH mask a b) by done.
    by rewrite (length_compress_same rm ra rb) by congruence.
Qed.

Lemma mask_fill_shape {A} (n m : nat) (mask : grid bool) (v : A) (a : grid A) :
  has_shape n m mask → has_shape n m a → has_shape n m (mask_fill mask v a).
Proof.
  revert mask a. induction n as [|n IH]; intros mask a Hm Ha.
  - destruct mask; [done|by destruct Hm].
  - destruct mask as [|rm mask]; [by destruct Hm|].
    destruct a as [|ra a]; [by destruct Ha|].
    apply has_shape_cons in Hm as [Hrm Hm], Ha as [Hra Ha].
    unfold mask_fill in *. cbn [zip_with]. apply has_shape_cons. split.
    + rewrite length_zip_with. lia.
    + by apply IH.
Qed.

Lemma broadcast_array (n : nat) (l : list Q) :
  length l = n → broadcast n (Array l) = Some l.
Proof. intros Hl. unfold broadcast. by rewrite decide_True. Qed.

Lemma inlet_handler_returns (it : nat) (model : LBM) :
  ∃ v, inlet_handler it model = Ok () (set_f v model).
Proof.
  unfold inlet_handler. cbv zeta. rewrite get_equilibrium_rows.
  rewrite broadcast_array by done.
  cbn [broadcast mbind option_bind]. by eexists.
Qed.

Lemma outlet_handler_returns (n m : nat) (model : LBM) :
  has_shape n m (outlet model) → has_shape n m (rho model) →
  has_shape n m (ux model) → has_shape n m (uy model) →
  ∃ v, outlet_handler model = Ok () (set_f v model).
Proof.
  intros Ho Hr Hx Hy. unfold outlet_handler. cbv zeta.
  rewrite get_equilibrium_rows.
  rewrite !broadcast_array; [by eexists|..]; try done;
    by apply (length_mask_get_same n m).
Qed.

(** The iteration returns once the stability check has passed. *)
Lemma handlers_return (it : nat) (f_eq : grid (list Q)) (self : LBM) :
  fluid_shapes self →
  ∃ s, (match inlet_handler it (fluid_step f_eq (store_moments self)) with
        | Ok _ s2 => outlet_handler s2
        | Raise e s2 => Raise e s2
        end) = Ok () s.
Proof.
  intros [Hw _ Ho [Hf _] _ _].
  destruct (inlet_handler_returns it (fluid_step f_eq (store_moments self)))
    as [v ->].
  rewrite store_moments_fields.
  destruct (outlet_handler_returns (width self) (height self)
              (set_f v (fluid_step f_eq
                 (set_moments (fmap (M := list) sumq <$> f self)
                    (fmap (M := list) (cell_u c0) <$> f self)
                    (fmap (M := list) (cell_u c1) <$> f self) self))))
    as [v' ->]; [done|by apply fmap_shape| | |by eexists].
  - apply mask_fill_shape; [done|by apply fmap_shape].
  - apply mask_fill_shape; [done|by apply fmap_shape].
Qed.

Lemma eq_field_shape (n m : nat) (cs : Q) (f : grid (list Q)) :
  has_shape n m f → has_shape3 n m (fmap (M := list) (eq_cell cs) <$> f).
Proof.
  intros Hf. split; [by apply fmap_shape|].
  apply Forall_fmap, Forall_forall. intros row _. simpl.
  apply Forall_fmap, Forall_forall. intros cell _. reflexivity.
Qed.

(** C3, as the program has it.  In a model with a non-empty grid, arrays
    of the shape of the grid, a non-zero relaxation time and no division by
    zero (the domain on which the rationals stand for the floats), an
    iteration with the default handlers raises if and only if some
    population of the equilibrium computed from the moments of [f] is
    negative.  It then raises the assertion error, whose message gives the
    index (x, y, i) of a least population of that equilibrium (cell
    coordinates and direction, no field value), and leaves the model as it
    was but for [rho], [ux] and [uy], which hold the moments of [f]: [f] is
    unchanged. *)
Theorem stability_abort (self : LBM) (it : nat) :
  fluid_shapes self →
  (0 < width self)%nat → (0 < height self)%nat →
  ¬ tau self == 0 →
  exact_divisions self →
  ∃ f_eq,
    equilibrium_field (store_moments self) = Some f_eq
    ∧ ((∃ e s', lbm_iteration inlet_handler outlet_handler it self = Raise e s')
       ↔ (∃ x y i v, entry3 f_eq x y i = Some v ∧ v < 0))
    ∧ (∀ e s', lbm_iteration inlet_handler outlet_handler it self = Raise e s' →
         s' = store_moments self
         ∧ f s' = f self
         ∧ ∃ x y i v,
             e = AssertionError (x, y, i)
             ∧ entry3 f_eq x y i = Some v ∧ v < 0
             ∧ ∀ x' y' i' v', entry3 f_eq x' y' i' = Some v' → v <= v').
Proof.
  intros Hsh Hw Hh Htau _.
  pose proof (shape_f _ Hsh) as [Hf Hc].
  exists (fmap (M := list) (eq_cell (cssq self)) <$> f self).
  set (E := fmap (M := list) (eq_cell (cssq self)) <$> f self).
  pose proof (eq_field_shape _ _ (cssq self) _ Hf) as HE. fold E in HE.
  split; [by apply equilibrium_field_cells|].
  rewrite lbm_iteration_run. cbv zeta.
  rewrite equilibrium_field_cells by done. fold E.
  destruct (np_argmin_min_spec (flatten (flatten E))) as (k & v & -> & -> & Hk & Hle & _).
  { intros Hnil. apply (f_equal length) in Hnil.
    destruct HE as [HE HEc].
    assert (has_shape (width self * height self) NQ (flatten E)) as Hfl.
    { split; [by apply length_flatten|by apply Forall_join]. }
    rewrite (length_flatten _ _ _ Hfl) in Hnil. simpl in Hnil.
    change NQ with 9%nat in Hnil. nia. }
  assert (Hall : ∀ x y i u, entry3 E x y i = Some u → v <= u).
  { intros x y i u Hu.
    assert (is_Some (entry E x y)) as [cell Hcell].
    { unfold entry3 in Hu. by destruct (entry E x y). }
    destruct (entry_Some_lt _ _ _ _ _ _ (proj1 HE) Hcell) as [_ Hy].
    assert (i < NQ)%nat as Hi.
    { unfold entry3 in Hu. rewrite Hcell in Hu. cbn [mbind option_bind] in Hu.
      apply lookup_lt_Some in Hu.
      assert (length cell = NQ) as <-; [|done].
      unfold entry in Hcell. destruct (E !! x) as [row|] eqn:Hrow; [|done].
      destruct HE as [_ HEc].
      eapply Forall_forall in HEc; [|by eapply list_elem_of_lookup_2].
      eapply Forall_forall in HEc; [done|by eapply list_elem_of_lookup_2]. }
    apply (Hle ((x * height self + y) * NQ + i)%nat).
    apply (lookup_flatten3 _ _ _ _ _ HE). by exists x, y, i. }
  apply (lookup_flatten3 _ _ _ _ _ HE) in Hk as (x & y & i & Hv & Hy & Hi & ->).
  assert (Ht : tau (store_moments self) = tau self)
    by (by rewrite store_moments_fields).
  assert (Hht : height (store_moments self) = height self)
    by (by rewrite store_moments_fields).
  assert (Hfs : f (store_moments self) = f self)
    by (by rewrite store_moments_fields).
  destruct (Qle_bool 0 v) eqn:Hsign.
  - apply Qle_bool_iff in Hsign.
    destruct (Qeq_bool (tau (store_moments self)) 0) eqn:Hz.
    { apply Qeq_bool_iff in Hz. rewrite Ht in Hz. done. }
    destruct (handlers_return it E self Hsh) as [s ->].
    split.
    + split.
      * by intros (e & s' & ?).
      * intros (x' & y' & i' & u & Hu & Hneg). specialize (Hall _ _ _ _ Hu). lra.
    + by intros e s' ?.
  - assert (v < 0) as Hneg.
    { apply Qnot_le_lt. intros Hle0. apply Qle_bool_iff in Hle0. congruence. }
    rewrite Hht, unravel_index_spec by done.
    split.
    + split; [|by eauto]. intros _. by exists x, y, i, v.
    + intros e s' [= <- <-]. split; [done|]. split; [done|].
      exists x, y, i, v. done.
Qed.

Ltac shape_by_computation :=
  vm_compute; repeat (split || constructor).

Lemma cavity3_shapes : fluid_shapes cavity3.
Proof. split; shape_by_computation. Qed.
Lemma probe3_shapes : fluid_shapes probe3.
Proof. split; shape_by_computation. Qed.
Lemma fast3_shapes : fluid_shapes fast3.
Proof. split; shape_by_computation. Qed.

Lemma stability_abort_witness :
  ∃ f_eq,
    equilibrium_field (store_moments fast3) = Some f_eq
    ∧ ((∃ e s', lbm_iteration inlet_handler outlet_handler 0 fast3 = Raise e s')
       ↔ (∃ x y i v, entry3 f_eq x y i = Some v ∧ v < 0))
    ∧ (∀ e s', lbm_iteration inlet_handler outlet_handler 0 fast3 = Raise e s' →
         s' = store_moments fast3
         ∧ f s' = f fast3
         ∧ ∃ x y i v,
             e = AssertionError (x, y, i)
             ∧ entry3 f_eq x y i = Some v ∧ v < 0
             ∧ ∀ x' y' i' v', entry3 f_eq x' y' i' = Some v' → v <= v').
Proof.
  apply (stability_abort fast3 0).
  - split; shape_by_computation.
  - vm_compute. lia.
  - vm_compute. lia.
  - intros H. vm_compute in H. discriminate H.
  - split; [intros H; vm_compute in H; discriminate H|].
    vm_compute. repeat constructor; intros H; vm_compute in H; discriminate H.
Defined.

(** C3, as the specification has it, fails on two points.  On the abort
    below the stored density of cell (1, 1) is 1 before the call and 2
    after it: the moments are overwritten before the check.  And the same
    assertion error, with the same index, is raised for two models whose
    offending populations differ (-4/9 and -8/9): the message carries the
    index only. *)
Lemma abort_overwrites_moments :
  ∃ s' s'',
    lbm_iteration inlet_handler outlet_handler 0 fast3
    = Raise (AssertionError (1, 1, 0)%nat) s'
    ∧ entry (rho fast3) 1 1 = Some 1
    ∧ entry (rho s') 1 1 = Some 2
    ∧ lbm_iteration inlet_handler outlet_handler 0 faster3
      = Raise (AssertionError (1, 1, 0)%nat) s''
    ∧ (∃ v v', (equilibrium_field (store_moments fast3) ≫= λ e, entry3 e 1 1 0) = Some v
               ∧ (equilibrium_field (store_moments faster3) ≫= λ e, entry3 e 1 1 0) = Some v'
               ∧ v == - (4 # 9) ∧ v' == - (8 # 9)).
Proof.
  eexists _, _. split; [vm_compute; reflexivity|].
  split; [reflexivity|]. split; [vm_compute; reflexivity|].
  split; [vm_compute; reflexivity|].
  eexists _, _. split; [vm_compute; reflexivity|].
  split; [vm_compute; reflexivity|]. split; reflexivity.
Qed.

(** * The particle loop, step by step *)

Lemma record_infection_run (nodes : list (Z * Z)) (i : nat) (x y : Q) (self : LBM) :
  record_infection nodes i x y self = Ok () (recorded nodes i x y self).
Proof.
  unfold record_infection, recorded, try_except, mbind, M_bind, check, read,
    modify, print, raise, mret, M_ret.
  cbv zeta.
  destruct (np_argmin (dist_2 nodes (py_int x, py_int y))) as [k|]; [|done].
  by destruct (bump2 (infections self) k i).
Qed.

Lemma particle_step_run (nodes : list (Z * Z)) (i : nat) (self : LBM) :
  particle_step nodes i self
  = match particle_locations self !! i with
    | None => Raise IndexError self
    | Some (x, y) =>
        if decide (i ∈ particles_exited self) then Ok () self
        else
          match getitem2 (susceptible self) (py_round x) (py_round y) with
          | None => Raise IndexError self
          | Some true =>
              set_location i (0, 0) (mark_exited i (recorded nodes i x y self))
          | Some false =>
              match getitem2 (outlet self) (py_round x) (py_round y) with
              | None => Raise IndexError self
              | Some true =>
                  match bump (removed self) i with
                  | None => Raise IndexError self
                  | Some counts =>
                      set_location i (0, 0) (mark_exited i (set_removed counts self))
                  end
              | Some false =>
                  match interpolate (width self) (height self) (ux self) x y with
                  | None => Raise ValueError self
                  | Some dx =>
                      match interpolate (width self) (height self) (uy self) x y with
                      | None => Raise ValueError self
                      | Some dy =>
                          set_location i
                            (clamp (width self) (x + map_scaling_factor self * dx),
                             clamp (height self) (y + map_scaling_factor self * dy))
                            self
                      end
                  end
              end
          end
    end.
Proof.
  unfold particle_step. unfold mbind at 1, M_bind at 1. unfold check at 1.
  destruct (particle_locations self !! i) as [[x y]|]; [|done].
  unfold mret at 1, M_ret at 1. unfold mbind at 1, M_bind at 1, read at 1.
  destruct (decide (i ∈ particles_exited self)); [done|].
  unfold mbind at 1, M_bind at 1, check at 1.
  destruct (getitem2 (susceptible self) (py_round x) (py_round y)) as [[|]|];
    [| |done].
  - unfold mret at 1, M_ret at 1. unfold mbind at 1, M_bind at 1.
    rewrite record_infection_run. done.
  - unfold mret at 1, M_ret at 1. unfold mbind at 1, M_bind at 1, check at 1.
    destruct (getitem2 (outlet self) (py_round x) (py_round y)) as [[|]|];
      [| |done].
    + unfold mret at 1, M_ret at 1. unfold mbind at 1, M_bind at 1, read at 1.
      unfold mbind at 1, M_bind at 1, check at 1.
      destruct (bump (removed self) i); done.
    + unfold mret at 1, M_ret at 1. unfold mbind at 1, M_bind at 1, check at 1.
      destruct (interpolate (width self) (height self) (ux self) x y); [|done].
      unfold mret at 1, M_ret at 1. unfold mbind at 1, M_bind at 1, check at 1.
      destruct (interpolate (width self) (height self) (uy self) x y); done.
Qed.

(** * Interception *)

Lemma sumq_bump (row : list Q) (i : nat) (v : Q) :
  row !! i = Some v → sumq (<[i := v + 1]> row) == sumq row + 1.
Proof.
  revert i. induction row as [|x row IH]; intros [|i] Hi; try done.
  - injection Hi as ->. simpl. ring.
  - simpl in *. rewrite (IH i Hi). ring.
Qed.

Lemma set_location_run (i : nat) (p : Q * Q) (self : LBM) :
  (i < length (particle_locations self))%nat →
  set_location i p self
  = Ok () (set_particle_locations (<[i := p]> (particle_locations self)) self).
Proof. intros Hi. unfold set_location. by rewrite decide_True. Qed.

(** What the interception block does.  When the loop of [update_particles]
    reaches an active particle (spawned, not yet terminal) whose rounded
    position is a susceptible cell, with a non-empty table of centroids and
    a counter for the particle under every centroid, it picks the first
    centroid of least squared Euclidean distance to the truncated node
    [(int(x), int(y))], which need not be the centroid nearest to the
    particle; it adds 1 to the infection counter of that centroid and to no
    other counter, leaves the removed counters as they are, marks the
    particle terminal and, without advecting it, resets its position. *)
Theorem interception_spec (nodes : list (Z * Z)) (i : nat) (self : LBM)
    (x y : Q) (m : nat) :
  particle_locations self !! i = Some (x, y) →
  i ∉ particles_exited self →
  getitem2 (susceptible self) (py_round x) (py_round y) = Some true →
  nodes ≠ [] →
  has_shape (length nodes) m (infections self) →
  (i < m)%nat →
  ∃ closest d s',
    first_min (dist_2 nodes (py_int x, py_int y)) closest d
    ∧ particle_step nodes i self = Ok () s'
    ∧ (∀ k row, infections self !! k = Some row →
         ∃ row', infections s' !! k = Some row'
                 ∧ (if decide (k = closest)
                    then row' = <[i := nth i row 0 + 1]> row
                         ∧ sumq row' == sumq row + 1
                    else row' = row))
    ∧ removed s' = removed self
    ∧ particles_exited s' = {[i]} ∪ particles_exited self
    ∧ particle_locations s' = <[i := (0, 0)]> (particle_locations self)
    ∧ stdout s' = stdout self.
Proof.
  intros Hloc Hact Hsus Hnodes Hsh Hi.
  destruct (np_argmin_min_spec (dist_2 nodes (py_int x, py_int y)))
    as (closest & d & Harg & _ & Hmin).
  { unfold dist_2. by destruct nodes. }
  assert (Hc : (closest < length nodes)%nat).
  { destruct Hmin as [Hd _]. apply lookup_lt_Some in Hd.
    unfold dist_2 in Hd. by rewrite length_fmap in Hd. }
  destruct (lookup_lt_is_Some_2 (infections self) closest) as [crow Hcrow].
  { destruct Hsh as [-> _]. done. }
  pose proof (has_shape_lookup _ _ _ _ _ Hsh Hcrow) as Hlen.
  destruct (lookup_lt_is_Some_2 crow i) as [v Hv]; [lia|].
  assert (Hrec : recorded nodes i x y self
                 = set_infections (<[closest := <[i := v + 1]> crow]> (infections self)) self).
  { unfold recorded, bump2. rewrite Harg, Hcrow. cbn [mbind option_bind].
    by rewrite Hv. }
  exists closest, d. eexists. split; [exact Hmin|].
  split.
  { rewrite particle_step_run, Hloc, decide_False, Hsus, Hrec by done.
    apply set_location_run. cbn. by eapply lookup_lt_Some. }
  cbn [infections removed particles_exited particle_locations stdout
       set_particle_locations mark_exited set_particles_exited set_infections].
  split; [|done].
  intros k row Hrow. destruct (decide (k = closest)) as [->|Hne].
  - rewrite list_lookup_insert_eq by (by eapply lookup_lt_Some).
    assert (row = crow) as -> by congruence.
    eexists. split; [done|].
    rewrite (nth_lookup_Some _ _ _ _ Hv). split; [done|]. by apply sumq_bump.
  - rewrite list_lookup_insert_ne by done. by eexists.
Qed.

(** * The centroid that an interception credits *)

(** C7, where the program departs from it.  Particle 0 of [hall] is active
    at (79, 65.9); the cell that the program tests is the rounded one,
    (79, 66), which is susceptible; the node that it measures from is the
    truncated one, (79, 65).  The step credits centroid 2, (79, 51), and
    not centroid 1, (79, 80), although centroid 1 is the nearer one, both
    to the particle and to its rounded cell. *)
Theorem interception_credits_farther_centroid :
  particle_locations hall !! 0%nat = Some (79, 659 # 10)
  ∧ (0%nat ∉ particles_exited hall)
  ∧ py_round 79 = 79%Z ∧ py_round (659 # 10) = 66%Z
  ∧ getitem2 (susceptible hall) 79 66 = Some true
  ∧ (py_int 79, py_int (659 # 10)) = (79, 65)%Z
  ∧ (∃ s', particle_step susceptible_centroids 0 hall = Ok () s'
           ∧ entry (infections s') 2 0 = Some 1
           ∧ entry (infections s') 1 0 = Some 0)
  ∧ susceptible_centroids !! 1%nat = Some (79, 80)%Z
  ∧ susceptible_centroids !! 2%nat = Some (79, 51)%Z
  ∧ sq_distance (79, 659 # 10) (79, 80)%Z < sq_distance (79, 659 # 10) (79, 51)%Z
  ∧ sq_distance (79, 66) (79, 80)%Z < sq_distance (79, 66) (79, 51)%Z.
Proof.
  assert (Hloc : particle_locations hall !! 0%nat = Some (79, 659 # 10))
    by reflexivity.
  assert (Hex : particles_exited hall = ∅) by reflexivity.
  assert (Hrx : py_round 79 = 79%Z) by reflexivity.
  assert (Hry : py_round (659 # 10) = 66%Z) by reflexivity.
  assert (Hsus : getitem2 (susceptible hall) 79 66 = Some true) by reflexivity.
  assert (Hact : 0%nat ∉ particles_exited hall)
    by (rewrite Hex; apply not_elem_of_empty).
  split; [done|]. split; [done|]. split; [done|]. split; [done|].
  split; [done|]. split; [reflexivity|]. split.
  - rewrite particle_step_run, Hloc, decide_False, Hrx, Hry, Hsus by done.
    assert (Hrec : recorded susceptible_centroids 0 79 (659 # 10) hall
                   = set_infections
                       (<[2%nat := <[0%nat := 0 + 1]> (replicate ITERATIONS 0)]>
                          (zeros NUM_SUSCEP_CENTROIDS ITERATIONS)) hall).
    { unfold recorded.
      assert (np_argmin (dist_2 susceptible_centroids (py_int 79, py_int (659 # 10)))
              = Some 2%nat) as -> by reflexivity.
      assert (bump2 (infections hall) 2 0
              = Some (<[2%nat := <[0%nat := 0 + 1]> (replicate ITERATIONS 0)]>
                        (zeros NUM_SUSCEP_CENTROIDS ITERATIONS))) as ->
        by reflexivity.
      done. }
    rewrite Hrec, set_location_run by (vm_compute; lia).
    eexists. split; [done|]. split; reflexivity.
  - repeat split.
Qed.

(** * Loops and what they keep *)

Lemma for_each_cons {A} (x : A) (l : list A) (body : A → M unit) (s : LBM) :
  for_each (x :: l) body s
  = match body x s with
    | Ok _ s' => for_each l body s'
    | Raise e s' => Raise e s'
    end.
Proof. reflexivity. Qed.

Lemma for_each_keeps {A} (P : LBM → Prop) (l : list A) (body : A → M unit) :
  (∀ x s, x ∈ l → P s → P (final_state (body x s))) →
  ∀ s, P s → P (final_state (for_each l body s)).
Proof.
  induction l as [|x l IH]; intros Hbody s Hs; [done|].
  rewrite for_each_cons.
  pose proof (Hbody x s (list_elem_of_here _ _) Hs) as Hx.
  destruct (body x s) as [[] s'|e s']; [|done].
  apply IH; [|done]. intros x' s'' Hin. apply Hbody. by right.
Qed.

Lemma for_each_returns {A} (P : LBM → Prop) (l : list A) (body : A → M unit) :
  (∀ x s, x ∈ l → P s → ∃ s', body x s = Ok () s' ∧ P s') →
  ∀ s, P s → ∃ s', for_each l body s = Ok () s' ∧ P s'.
Proof.
  induction l as [|x l IH]; intros Hbody s Hs; [by exists s|].
  rewrite for_each_cons.
  destruct (Hbody x s (list_elem_of_here _ _) Hs) as (s1 & -> & Hs1).
  apply IH; [|done]. intros x' s'' Hin. apply Hbody. by right.
Qed.

Lemma spawn_run (rnd : nat → nat) (self : LBM) :
  spawn rnd self
  = if decide (particle_nr self < num_particles self)%nat then
      match randint rnd (particle_nr self) (length (np_where (infected self))) with
      | None => Raise ValueError self
      | Some idx =>
          match np_where (infected self) !! idx with
          | None => Raise IndexError self
          | Some cell =>
              match set_location (particle_nr self)
                      (inject_Z (Z.of_nat cell.1), inject_Z (Z.of_nat cell.2)) self with
              | Ok _ s1 => Ok () (set_particle_nr (particle_nr s1 + 1) s1)
              | Raise e s1 => Raise e s1
              end
          end
      end
    else Ok () self.
Proof.
  unfold spawn, mbind, M_bind, read, check, modify, raise, mret, M_ret.
  destruct (decide (particle_nr self < num_particles self)%nat); [|done].
  destruct (randint rnd _ _) as [idx|]; [|done].
  destruct (np_where (infected self) !! idx); [|done].
  by destruct (set_location _ _ self) as [[] ?|].
Qed.

Lemma update_particles_with_run (nodes : list (Z * Z)) (rnd : nat → nat)
    (it : nat) (self : LBM) :
  update_particles_with nodes rnd it self
  = if decide (spawn_rate self = 0)%nat then Raise ZeroDivisionError self
    else
      match (if decide (it `mod` spawn_rate self = 0)%nat
             then for_each (seq 0 (spawn_amount_at_rate self)) (λ _, spawn rnd) self
             else Ok () self) with
      | Ok _ s1 => for_each (seq 0 (particle_nr s1)) (particle_step nodes) s1
      | Raise e s1 => Raise e s1
      end.
Proof.
  unfold update_particles_with, mbind, M_bind, read, raise, mret, M_ret.
  destruct (decide (spawn_rate self = 0)%nat); [done|].
  destruct (decide (it `mod` spawn_rate self = 0)%nat); [|done].
  by destruct (for_each _ _ self) as [[] ?|].
Qed.

(** A property kept by every spawn and by every step of the particle loop
    is kept by [update_particles], whether it returns or raises. *)
Lemma update_particles_keeps (P : LBM → Prop) (nodes : list (Z * Z))
    (rnd : nat → nat) (it : nat) :
  (∀ s, P s → P (final_state (spawn rnd s))) →
  (∀ j s, P s → P (final_state (particle_step nodes j s))) →
  ∀ s, P s → P (final_state (update_particles_with nodes rnd it s)).
Proof.
  intros Hspawn Hstep s Hs. rewrite update_particles_with_run.
  destruct (decide (spawn_rate s = 0)%nat); [done|].
  assert (Hsp : P (final_state
            (if decide (it `mod` spawn_rate s = 0)%nat
             then for_each (seq 0 (spawn_amount_at_rate s)) (λ _, spawn rnd) s
             else Ok () s))).
  { destruct (decide (it `mod` spawn_rate s = 0)%nat); [|done].
    apply for_each_keeps; [|done]. intros _ s' _. apply Hspawn. }
  destruct (if decide (it `mod` spawn_rate s = 0)%nat then _ else _)
    as [[] s1|e s1]; [|done].
  apply for_each_keeps; [|done]. intros j s' _. apply Hstep.
Qed.

(** * Terminal particles *)

Lemma entry_bump2 (a a' : grid Q) (k j k' i : nat) :
  bump2 a k j = Some a' → i ≠ j → entry a' k' i = entry a k' i.
Proof.
  unfold bump2. intros Hb Hne.
  destruct (a !! k) as [row|] eqn:Hrow; [|done]. cbn [mbind option_bind] in Hb.
  destruct (row !! j) as [v|]; [|done]. injection Hb as <-.
  unfold entry. destruct (decide (k' = k)) as [->|Hk].
  - rewrite list_lookup_insert_eq by (by eapply lookup_lt_Some).
    rewrite Hrow. cbn [mbind option_bind]. by rewrite list_lookup_insert_ne.
  - by rewrite list_lookup_insert_ne.
Qed.

Lemma lookup_bump (a a' : list Q) (j i : nat) :
  bump a j = Some a' → i ≠ j → a' !! i = a !! i.
Proof.
  unfold bump. intros Hb Hne. destruct (a !! j) as [v|]; [|done].
  injection Hb as <-. by rewrite list_lookup_insert_ne.
Qed.

Lemma frozen_set_location (i j : nat) (p : Q * Q) (s0 s : LBM) :
  i ≠ j → frozen i s0 s → frozen i s0 (final_state (set_location j p s)).
Proof.
  intros Hne (Hex & Hnr & Hloc & Hinf & Hrem). unfold set_location.
  case_decide; [|done]. repeat split; try done.
  cbn. by rewrite list_lookup_insert_ne.
Qed.

Lemma frozen_mark_exited (i j : nat) (s0 s : LBM) :
  frozen i s0 s → frozen i s0 (mark_exited j s).
Proof.
  intros (Hex & Hnr & Hloc & Hinf & Hrem). repeat split; try done.
  cbn. set_solver.
Qed.

Lemma frozen_recorded (nodes : list (Z * Z)) (i j : nat) (x y : Q) (s0 s : LBM) :
  i ≠ j → frozen i s0 s → frozen i s0 (recorded nodes j x y s).
Proof.
  intros Hne (Hex & Hnr & Hloc & Hinf & Hrem). unfold recorded.
  destruct (np_argmin _) as [k|]; [|done].
  destruct (bump2 (infections s) k j) as [t|] eqn:Ht; [|done].
  repeat split; try done. intros k'. cbn.
  rewrite <- Hinf. by eapply entry_bump2.
Qed.

Lemma frozen_set_removed (i j : nat) (counts : list Q) (s0 s : LBM) :
  bump (removed s) j = Some counts → i ≠ j →
  frozen i s0 s → frozen i s0 (set_removed counts s).
Proof.
  intros Hb Hne (Hex & Hnr & Hloc & Hinf & Hrem). repeat split; try done.
  cbn. rewrite <- Hrem. by eapply lookup_bump.
Qed.

Lemma frozen_step (nodes : list (Z * Z)) (i j : nat) (s0 s : LBM) :
  frozen i s0 s → frozen i s0 (final_state (particle_step nodes j s)).
Proof.
  intros Hfr. rewrite particle_step_run.
  destruct (particle_locations s !! j) as [[x y]|]; [|done].
  destruct (decide (j ∈ particles_exited s)) as [|Hact]; [done|].
  assert (i ≠ j) as Hne by (intros ->; by destruct Hfr).
  destruct (getitem2 (susceptible s) _ _) as [[|]|]; [| |done].
  - by apply frozen_set_location, frozen_mark_exited, frozen_recorded.
  - destruct (getitem2 (outlet s) _ _) as [[|]|]; [| |done].
    + destruct (bump (removed s) j) as [counts|] eqn:Hb; [|done].
      apply frozen_set_location; [done|].
      by apply frozen_mark_exited, (frozen_set_removed i j).
    + destruct (interpolate _ _ (ux s) x y); [|done].
      destruct (interpolate _ _ (uy s) x y); [|done].
      by apply frozen_set_location.
Qed.

Lemma frozen_spawn (rnd : nat → nat) (i : nat) (s0 s : LBM) :
  frozen i s0 s → frozen i s0 (final_state (spawn rnd s)).
Proof.
  intros Hfr. rewrite spawn_run.
  case_decide; [|done].
  destruct (randint _ _ _); [|done].
  destruct (np_where (infected s) !! _) as [cell|]; [|done].
  assert (i ≠ particle_nr s) as Hne by (destruct Hfr as (_ & ? & _); lia).
  pose proof (frozen_set_location i (particle_nr s)
                (inject_Z (Z.of_nat cell.1), inject_Z (Z.of_nat cell.2)) s0 s Hne Hfr)
    as Hfr'.
  destruct (set_location _ _ s) as [[] s1|e s1]; [|done].
  destruct Hfr' as (Hex & Hnr & Hloc & Hinf & Hrem).
  repeat split; try done. cbn in *. lia.
Qed.

Lemma frozen_refl (i : nat) (s : LBM) :
  i ∈ particles_exited s → (i < particle_nr s)%nat → frozen i s s.
Proof. by repeat split. Qed.

Lemma frozen_run_calls (nodes : list (Z * Z)) (calls : list ((nat → nat) * nat))
    (i : nat) (s0 s : LBM) :
  frozen i s0 s → frozen i s0 (run_calls nodes calls s).
Proof.
  revert s. induction calls as [|[rnd it] calls IH]; intros s Hfr; [done|].
  cbn [run_calls]. apply IH.
  apply (update_particles_keeps (frozen i s0)); [| |done].
  - intros s'. apply frozen_spawn.
  - intros j s'. apply frozen_step.
Qed.

(** C8.  A spawned particle that is terminal stays terminal through every
    later call of [update_particles] (each with any draws and any iteration
    number, returning or raising): its stored position is never written
    again, neither is any infection or removed counter of the particle, and
    the loop passes over it without touching the model. *)
Theorem terminal_particles_frozen (nodes : list (Z * Z))
    (calls : list ((nat → nat) * nat)) (i : nat) (self : LBM) :
  i ∈ particles_exited self →
  (i < particle_nr self)%nat →
  is_Some (particle_locations self !! i) →
  let s' := run_calls nodes calls self in
  i ∈ particles_exited s'
  ∧ particle_locations s' !! i = particle_locations self !! i
  ∧ (∀ k, entry (infections s') k i = entry (infections self) k i)
  ∧ removed s' !! i = removed self !! i
  ∧ particle_step nodes i s' = Ok () s'.
Proof.
  intros Hex Hnr [p Hp] s'.
  destruct (frozen_run_calls nodes calls i self self (frozen_refl i self Hex Hnr))
    as (Hex' & Hnr' & Hloc & Hinf & Hrem).
  fold s' in Hex', Hnr', Hloc, Hinf, Hrem.
  repeat split; try done.
  rewrite particle_step_run, Hloc, Hp. destruct p as [x y].
  by rewrite decide_True.
Qed.

(** * Positions inside the domain *)

Lemma inject_Z_pred (z : Z) : inject_Z (z - 1) == inject_Z z - 1.
Proof. unfold Z.sub. by rewrite inject_Z_plus, inject_Z_opp. Qed.

Lemma py_round_floor (x : Q) :
  py_round x = Qfloor x
  ∨ (py_round x = (Qfloor x + 1)%Z ∧ inject_Z (Qfloor x) < x).
Proof.
  unfold py_round. cbv zeta.
  destruct (Qltb (x - inject_Z (Qfloor x)) (1 # 2)) eqn:H1; [by left|].
  apply Qltb_ge in H1.
  assert (inject_Z (Qfloor x) < x) by lra.
  destruct (Qltb (1 # 2) (x - inject_Z (Qfloor x))); [by right|].
  destruct (Z.even (Qfloor x)); [by left|by right].
Qed.

Lemma py_round_in_range (n : nat) (x : Q) :
  in_range n x → (0 ≤ py_round x < Z.of_nat n)%Z.
Proof.
  intros [H0 Hn].
  assert (0 ≤ Qfloor x)%Z as Hf0.
  { change 0%Z with (Qfloor 0). by apply Qfloor_resp_le. }
  pose proof (Qfloor_le x) as Hfl.
  assert (Qfloor x ≤ Z.of_nat n - 1)%Z as Hfn.
  { rewrite Zle_Qle, inject_Z_pred. lra. }
  destruct (py_round_floor x) as [->|[-> Hlt]]; [lia|].
  assert (Qfloor x < Z.of_nat n - 1)%Z; [|lia].
  rewrite Zlt_Qlt, inject_Z_pred. lra.
Qed.

Lemma norm_index_in_range (n : nat) (i : Z) :
  (0 ≤ i < Z.of_nat n)%Z → norm_index n i = Some (Z.to_nat i).
Proof. intros Hi. unfold norm_index. by rewrite decide_True. Qed.

Lemma getitem2_in_range {A} (n m : nat) (a : grid A) (i j : Z) :
  has_shape n m a → (0 ≤ i < Z.of_nat n)%Z → (0 ≤ j < Z.of_nat m)%Z →
  is_Some (getitem2 a i j).
Proof.
  intros Ha Hi Hj. unfold getitem2.
  destruct Ha as [Hn Hm]. rewrite Hn, norm_index_in_range by done.
  cbn [mbind option_bind].
  destruct (lookup_lt_is_Some_2 a (Z.to_nat i)) as [row Hrow]; [lia|].
  rewrite Hrow. cbn [mbind option_bind].
  assert (length row = m) as Hlen.
  { eapply Forall_forall in Hm; [done|]. by eapply list_elem_of_lookup_2. }
  rewrite Hlen, norm_index_in_range by done. cbn [mbind option_bind].
  apply lookup_lt_is_Some_2. lia.
Qed.

Lemma interpolate_in_range (n m : nat) (a : grid Q) (x y : Q) :
  in_range n x → in_range m y → is_Some (interpolate n m a x y).
Proof.
  intros [Hx0 Hxn] [Hy0 Hym]. unfold interpolate.
  apply Qle_bool_iff in Hx0, Hxn, Hy0, Hym.
  rewrite Hx0, Hxn, Hy0, Hym. by eexists.
Qed.

Lemma py_max_ge (a b : Q) : a <= py_max a b ∧ b <= py_max a b.
Proof.
  unfold py_max. destruct (Qltb a b) eqn:H.
  - apply Qltb_lt in H. lra.
  - apply Qltb_ge in H. lra.
Qed.

Lemma clamp_in_range (n : nat) (v : Q) : (1 ≤ n)%nat → in_range n (clamp n v).
Proof.
  intros Hn. unfold in_range, clamp, py_min.
  assert (0 <= inject_Z (Z.of_nat n) - 1) as Hpos.
  { assert (1 ≤ Z.of_nat n)%Z as H by lia. rewrite Zle_Qle in H.
    change (inject_Z 1) with 1 in H. lra. }
  pose proof (py_max_ge 0 v) as [H0 _].
  destruct (Qltb (inject_Z (Z.of_nat n) - 1) (py_max 0 v)) eqn:H.
  - lra.
  - apply Qltb_ge in H. lra.
Qed.

Lemma np_where_in_range (n m : nat) (mask : grid bool) (cell : nat * nat) :
  has_shape n m mask → cell ∈ np_where mask →
  (cell.1 < n)%nat ∧ (cell.2 < m)%nat.
Proof.
  intros Hm Hcell. unfold np_where in Hcell.
  apply list_elem_of_join in Hcell as (l & Hcell & Hl).
  apply elem_of_lookup_imap in Hl as (x & row & -> & Hrow).
  apply list_elem_of_omap in Hcell as ([y b] & Hyb & Hsome).
  apply elem_of_lookup_imap in Hyb as (y' & b' & [= -> ->] & Hb).
  simpl in Hsome. destruct b'; [|done]. injection Hsome as <-. simpl.
  apply (entry_Some_lt n m mask x y' true); [done|].
  unfold entry. by rewrite Hrow.
Qed.

Lemma index_in_range (n k : nat) : (k < n)%nat → in_range n (inject_Z (Z.of_nat k)).
Proof.
  intros Hk. unfold in_range. split.
  - change 0 with (inject_Z 0). rewrite <- Zle_Qle. lia.
  - assert (Z.of_nat k ≤ Z.of_nat n - 1)%Z as H by lia.
    rewrite Zle_Qle, inject_Z_pred in H. lra.
Qed.

Lemma origin_in_range (n : nat) : (1 ≤ n)%nat → in_range n 0.
Proof. intros Hn. by apply (index_in_range n 0). Qed.

(** * The invariant of the tracker *)

Lemma tracked_set_location (j : nat) (p : Q * Q) (s : LBM) :
  tracked s → in_range (width s) p.1 → in_range (height s) p.2 →
  tracked (final_state (set_location j p s)).
Proof.
  intros [Hg Hb] Hx Hy. unfold set_location. case_decide; [|done].
  split; [by destruct Hg|]. intros i x y Hi Hloc. cbn in *.
  destruct (decide (i = j)) as [->|Hne].
  - rewrite list_lookup_insert_eq in Hloc by done. by injection Hloc as ->.
  - rewrite list_lookup_insert_ne in Hloc by done. by apply (Hb i).
Qed.

Lemma tracked_mark_exited (j : nat) (s : LBM) : tracked s → tracked (mark_exited j s).
Proof. intros [Hg Hb]. split; [by destruct Hg|done]. Qed.

Lemma tracked_recorded (nodes : list (Z * Z)) (j : nat) (x y : Q) (s : LBM) :
  tracked s → tracked (recorded nodes j x y s).
Proof.
  intros [Hg Hb]. unfold recorded.
  destruct (np_argmin _) as [k|]; [destruct (bump2 _ k j)|];
    (split; [by destruct Hg|done]).
Qed.

Lemma tracked_set_removed (counts : list Q) (s : LBM) :
  tracked s → tracked (set_removed counts s).
Proof. intros [Hg Hb]. split; [by destruct Hg|done]. Qed.

Lemma recorded_size (nodes : list (Z * Z)) (j : nat) (x y : Q) (s : LBM) :
  width (recorded nodes j x y s) = width s
  ∧ height (recorded nodes j x y s) = height s.
Proof.
  unfold recorded. by destruct (np_argmin _) as [k|]; [destruct (bump2 _ k j)|].
Qed.

Lemma tracked_step (nodes : list (Z * Z)) (j : nat) (s : LBM) :
  tracked s → tracked (final_state (particle_step nodes j s)).
Proof.
  intros Ht. rewrite particle_step_run.
  pose proof (geo_width _ (proj1 Ht)) as Hw.
  pose proof (geo_height _ (proj1 Ht)) as Hh.
  destruct (particle_locations s !! j) as [[x y]|]; [|done].
  destruct (decide (j ∈ particles_exited s)); [done|].
  destruct (getitem2 (susceptible s) _ _) as [[|]|]; [| |done].
  - destruct (recorded_size nodes j x y s) as [Hrw Hrh].
    apply tracked_set_location;
      [by apply tracked_mark_exited, tracked_recorded| |]; cbn.
    + rewrite Hrw. by apply origin_in_range.
    + rewrite Hrh. by apply origin_in_range.
  - destruct (getitem2 (outlet s) _ _) as [[|]|]; [| |done].
    + destruct (bump (removed s) j) as [counts|]; [|done].
      apply tracked_set_location; [|by apply origin_in_range..].
      by apply tracked_mark_exited, tracked_set_removed.
    + destruct (interpolate _ _ (ux s) x y); [|done].
      destruct (interpolate _ _ (uy s) x y); [|done].
      apply tracked_set_location; [done|by apply clamp_in_range..].
Qed.

Lemma tracked_spawn (rnd : nat → nat) (s : LBM) :
  tracked s → tracked (final_state (spawn rnd s)).
Proof.
  intros Ht. rewrite spawn_run.
  case_decide; [|done].
  destruct (randint _ _ _) as [idx|]; [|done].
  destruct (np_where (infected s) !! idx) as [cell|] eqn:Hcell; [|done].
  destruct (np_where_in_range _ _ _ cell (geo_infected _ (proj1 Ht))) as [Hx Hy].
  { by eapply list_elem_of_lookup_2. }
  unfold set_location. case_decide as Hlen; [|done].
  destruct Ht as [Hg Hb]. split; [by destruct Hg|].
  intros i x y Hi Hloc. cbn in *.
  destruct (decide (i = particle_nr s)) as [->|Hne].
  - rewrite list_lookup_insert_eq in Hloc by done. injection Hloc as <- <-.
    split; by apply index_in_range.
  - rewrite list_lookup_insert_ne in Hloc by done. apply (Hb i); [lia|done].
Qed.

(** The capacity of the model is kept as well. *)
Lemma capacity_step (nodes : list (Z * Z)) (j : nat) (s : LBM) :
  capacity s →
  capacity (final_state (particle_step nodes j s))
  ∧ particle_nr (final_state (particle_step nodes j s)) = particle_nr s.
Proof.
  intros [Hr Hs Hn Hl Hm]. rewrite particle_step_run.
  destruct (particle_locations s !! j) as [[x y]|]; [|done].
  destruct (decide (j ∈ particles_exited s)); [done|].
  destruct (getitem2 (susceptible s) _ _) as [[|]|]; [| |done].
  - unfold set_location, recorded.
    destruct (np_argmin _) as [k|]; [destruct (bump2 _ k j)|];
      case_decide; (split; [split|]); cbn; rewrite ?length_insert; done.
  - destruct (getitem2 (outlet s) _ _) as [[|]|]; [| |done].
    + unfold bump. destruct (removed s !! j) as [v|]; [|done].
      cbn [mbind option_bind]. unfold set_location.
      case_decide; (split; [split|]); cbn; rewrite ?length_insert; done.
    + destruct (interpolate _ _ (ux s) x y); [|done].
      destruct (interpolate _ _ (uy s) x y); [|done].
      unfold set_location.
      case_decide; (split; [split|]); cbn; rewrite ?length_insert; done.
Qed.

Lemma step_returns (nodes : list (Z * Z)) (j : nat) (s : LBM) :
  tracked s → capacity s → (j < particle_nr s)%nat →
  ∃ s', particle_step nodes j s = Ok () s'.
Proof.
  intros [Hg Hb] [Hr Hs Hn Hl Hm] Hj. rewrite particle_step_run.
  destruct (lookup_lt_is_Some_2 (particle_locations s) j) as [[x y] Hloc]; [lia|].
  rewrite Hloc. destruct (decide (j ∈ particles_exited s)); [by eexists|].
  destruct (Hb j x y Hj Hloc) as [Hx Hy].
  pose proof (py_round_in_range _ _ Hx) as Hrx.
  pose proof (py_round_in_range _ _ Hy) as Hry.
  destruct (getitem2_in_range _ _ _ _ _ (geo_susceptible _ Hg) Hrx Hry) as [b ->].
  destruct b.
  - rewrite set_location_run; [by eexists|].
    unfold recorded. destruct (np_argmin _) as [k|]; [destruct (bump2 _ k j)|];
      cbn; lia.
  - destruct (getitem2_in_range _ _ _ _ _ (geo_outlet _ Hg) Hrx Hry) as [b ->].
    destruct b.
    + unfold bump.
      destruct (lookup_lt_is_Some_2 (removed s) j) as [v ->]; [lia|].
      cbn [mbind option_bind]. rewrite set_location_run; [by eexists|]. cbn. lia.
    + destruct (interpolate_in_range _ _ (ux s) x y Hx Hy) as [dx ->].
      destruct (interpolate_in_range _ _ (uy s) x y Hx Hy) as [dy ->].
      rewrite set_location_run; [by eexists|]. lia.
Qed.

Lemma spawn_returns (rnd : nat → nat) (s : LBM) :
  tracked s → capacity s →
  ∃ s', spawn rnd s = Ok () s' ∧ capacity s'.
Proof.
  intros Ht [Hr Hs Hn Hl Hm]. rewrite spawn_run.
  case_decide as Hlt; [|by eexists].
  unfold randint. rewrite decide_False by (by destruct (np_where (infected s))).
  destruct (lookup_lt_is_Some_2 (np_where (infected s))
              (rnd (particle_nr s) `mod` length (np_where (infected s)))%nat)
    as [cell ->].
  { apply Nat.mod_upper_bound. by destruct (np_where (infected s)). }
  rewrite set_location_run by lia.
  eexists. split; [done|]. split; cbn; rewrite ?length_insert; try done; lia.
Qed.

Lemma tracked_run_calls (nodes : list (Z * Z)) (calls : list ((nat → nat) * nat))
    (s : LBM) :
  tracked s → tracked (run_calls nodes calls s).
Proof.
  revert s. induction calls as [|[rnd it] calls IH]; intros s Ht; [done|].
  cbn [run_calls]. apply IH.
  apply (update_particles_keeps tracked); [| |done].
  - intros s'. apply tracked_spawn.
  - intros j s'. apply tracked_step.
Qed.

Lemma update_particles_returns (nodes : list (Z * Z)) (rnd : nat → nat)
    (it : nat) (s : LBM) :
  tracked s → capacity s →
  ∃ s', update_particles_with nodes rnd it s = Ok () s' ∧ capacity s'.
Proof.
  intros Ht Hc. rewrite update_particles_with_run.
  rewrite decide_False by apply (cap_rate _ Hc).
  assert (∃ s1, (if decide (it `mod` spawn_rate s = 0)%nat
                 then for_each (seq 0 (spawn_amount_at_rate s)) (λ _, spawn rnd) s
                 else Ok () s) = Ok () s1 ∧ tracked s1 ∧ capacity s1)
    as (s1 & -> & Ht1 & Hc1).
  { case_decide; [|by exists s].
    apply (for_each_returns (λ s, tracked s ∧ capacity s)); [|done].
    intros _ s0 _ [Ht0 Hc0].
    destruct (spawn_returns rnd s0 Ht0 Hc0) as (s0' & Hrun & Hc0').
    exists s0'. split; [done|]. split; [|done].
    pose proof (tracked_spawn rnd s0 Ht0) as Ht0'. by rewrite Hrun in Ht0'. }
  destruct (for_each_returns
              (λ s, tracked s ∧ capacity s ∧ particle_nr s = particle_nr s1)
              (seq 0 (particle_nr s1)) (particle_step nodes)) with (s := s1)
    as (s' & -> & _ & Hc' & _); [|done|by exists s'].
  intros j s0 Hj (Ht0 & Hc0 & Hnr). apply elem_of_seq in Hj.
  destruct (step_returns nodes j s0 Ht0 Hc0) as [s0' Hrun]; [lia|].
  exists s0'. split; [done|].
  pose proof (tracked_step nodes j s0 Ht0) as Ht0'.
  destruct (capacity_step nodes j s0 Hc0) as [Hc0' Hnr'].
  rewrite Hrun in Ht0', Hc0', Hnr'. cbn [final_state] in *.
  split; [done|]. split; [done|]. lia.
Qed.

(** C10.  In a model with a non-empty grid and masks of its shape, where
    the stored position of every spawned particle lies in
    [0, width - 1] x [0, height - 1], the same holds after any sequence of
    calls of [update_particles] (returning or raising).  At such a position
    the rounded cell is inside both masks and the point is inside the grid
    of the interpolators; and where the model moreover has room for its
    particles, the next call returns without an exception. *)
Theorem positions_stay_in_bounds (nodes : list (Z * Z))
    (calls : list ((nat → nat) * nat)) (self : LBM) :
  geometry self →
  positions_in_bounds self →
  let s' := run_calls nodes calls self in
  geometry s'
  ∧ positions_in_bounds s'
  ∧ (∀ i x y, (i < particle_nr s')%nat →
       particle_locations s' !! i = Some (x, y) →
       is_Some (getitem2 (susceptible s') (py_round x) (py_round y))
       ∧ is_Some (getitem2 (outlet s') (py_round x) (py_round y))
       ∧ is_Some (interpolate (width s') (height s') (ux s') x y)
       ∧ is_Some (interpolate (width s') (height s') (uy s') x y))
  ∧ (∀ rnd it, capacity s' →
       ∃ s'', update_particles_with nodes rnd it s' = Ok () s'' ∧ capacity s'').
Proof.
  intros Hg Hb s'.
  destruct (tracked_run_calls nodes calls self (conj Hg Hb)) as [Hg' Hb'].
  fold s' in Hg', Hb'.
  split; [done|]. split; [done|]. split.
  - intros i x y Hi Hloc. destruct (Hb' i x y Hi Hloc) as [Hx Hy].
    pose proof (py_round_in_range _ _ Hx) as Hrx.
    pose proof (py_round_in_range _ _ Hy) as Hry.
    repeat split.
    + by apply (getitem2_in_range (width s') (height s')); [apply Hg'|..].
    + by apply (getitem2_in_range (width s') (height s')); [apply Hg'|..].
    + by apply interpolate_in_range.
    + by apply interpolate_in_range.
  - intros rnd it Hc. by apply update_particles_returns.
Qed.

(** * An interception that cannot be attributed *)

(** C9, as the program has it.  When the nearest centroid cannot be found
    or has no counter for the particle, the exception is swallowed: the
    line "Idk!!!!!!!" is printed, no infection and no removed counter
    changes, and the step goes on as for any interception: the particle is
    marked terminal, its position is reset, and the loop continues. *)
Theorem failed_interception_dropped (nodes : list (Z * Z)) (i : nat)
    (self : LBM) (x y : Q) :
  particle_locations self !! i = Some (x, y) →
  i ∉ particles_exited self →
  getitem2 (susceptible self) (py_round x) (py_round y) = Some true →
  (np_argmin (dist_2 nodes (py_int x, py_int y))
     ≫= λ closest, bump2 (infections self) closest i) = None →
  ∃ s',
    particle_step nodes i self = Ok () s'
    ∧ infections s' = infections self
    ∧ removed s' = removed self
    ∧ stdout s' = stdout self ++ ["Idk!!!!!!!"%string]
    ∧ particles_exited s' = {[i]} ∪ particles_exited self
    ∧ particle_locations s' = <[i := (0, 0)]> (particle_locations self).
Proof.
  intros Hloc Hact Hsus Hfail.
  assert (Hrec : recorded nodes i x y self
                 = set_stdout (stdout self ++ ["Idk!!!!!!!"%string]) self).
  { unfold recorded. destruct (np_argmin _) as [k|]; [|done].
    cbn [mbind option_bind] in Hfail. by rewrite Hfail. }
  eexists. split.
  { rewrite particle_step_run, Hloc, decide_False, Hsus, Hrec by done.
    apply set_location_run. cbn. by eapply lookup_lt_Some. }
  done.
Qed.

Lemma room3_geometry : geometry room3.
Proof. split; shape_by_computation. Qed.

Lemma failed_interception_dropped_witness :
  ∃ s',
    particle_step [] 0 spawned3 = Ok () s'
    ∧ infections s' = infections spawned3
    ∧ removed s' = removed spawned3
    ∧ stdout s' = stdout spawned3 ++ ["Idk!!!!!!!"%string]
    ∧ particles_exited s' = {[0%nat]} ∪ particles_exited spawned3
    ∧ particle_locations s' = <[0%nat := (0, 0)]> (particle_locations spawned3).
Proof.
  apply (failed_interception_dropped [] 0 spawned3 1 1).
  - reflexivity.
  - apply not_elem_of_empty.
  - reflexivity.
  - reflexivity.
Defined.

(** C9, as the specification has it, fails: with no centroid configured, a
    particle on a susceptible cell becomes terminal and the call returns,
    but every counter of the model is what it was; the event is counted
    nowhere. *)
Lemma unattributed_interception_not_counted :
  ∃ s',
    update_particles_with [] (λ _, 0%nat) 0 room3 = Ok () s'
    ∧ getitem2 (susceptible room3) 1 1 = Some true
    ∧ particle_locations (final_state (spawn (λ _, 0%nat) room3)) !! 0%nat
      = Some (1, 1)
    ∧ 0%nat ∈ particles_exited s'
    ∧ infections s' = infections room3
    ∧ removed s' = removed room3.
Proof.
  eexists. split; [vm_compute; reflexivity|].
  split; [reflexivity|]. split; [reflexivity|].
  split; [|split; reflexivity].
  apply (bool_decide_unpack _). vm_compute. exact I.
Qed.

Lemma bounce_back_spec_witness :
  (∃ cell cell',
      entry (f probe3) 0 0 = Some cell
      ∧ entry (f (bounce_back probe3)) 0 0 = Some cell'
      ∧ length cell' = 9%nat
      ∧ ∀ i, (i < 9)%nat → cell' !! i = cell !! opposite_direction i)
  ∧ entry (ux (bounce_back probe3)) 0 0 = Some 0
  ∧ entry (uy (bounce_back probe3)) 0 0 = Some 0.
Proof.
  apply (bounce_back_spec probe3 0 0 true).
  - exact probe3_shapes.
  - reflexivity.
Defined.

Lemma mass_conservation_witness :
  total_density
    (f (final_state (lbm_iteration inlet_handler outlet_handler 0 probe3)))
  == total_density (f probe3).
Proof.
  apply (mass_conservation probe3 _ 0).
  - exact probe3_shapes.
  - reflexivity.
  - vm_compute. repeat constructor.
  - vm_compute. repeat constructor.
  - vm_compute. reflexivity.
Defined.

Lemma interception_spec_witness :
  ∃ closest d s',
    first_min (dist_2 susceptible_centroids (py_int 1, py_int 1)) closest d
    ∧ particle_step susceptible_centroids 0 spawned3 = Ok () s'
    ∧ (∀ k row, infections spawned3 !! k = Some row →
         ∃ row', infections s' !! k = Some row'
                 ∧ (if decide (k = closest)
                    then row' = <[0%nat := nth 0 row 0 + 1]> row
                         ∧ sumq row' == sumq row + 1
                    else row' = row))
    ∧ removed s' = removed spawned3
    ∧ particles_exited s' = {[0%nat]} ∪ particles_exited spawned3
    ∧ particle_locations s' = <[0%nat := (0, 0)]> (particle_locations spawned3)
    ∧ stdout s' = stdout spawned3.
Proof.
  apply (interception_spec susceptible_centroids 0 spawned3 1 1 ITERATIONS).
  - reflexivity.
  - apply not_elem_of_empty.
  - reflexivity.
  - discriminate.
  - split; [reflexivity|]. repeat constructor.
  - vm_compute. lia.
Defined.

Lemma terminal_particles_frozen_witness :
  let s' := run_calls susceptible_centroids
              [((λ _, 0%nat), 1%nat); ((λ _, 1%nat), 20%nat)] visited3 in
  0%nat ∈ particles_exited s'
  ∧ particle_locations s' !! 0%nat = particle_locations visited3 !! 0%nat
  ∧ (∀ k, entry (infections s') k 0 = entry (infections visited3) k 0)
  ∧ removed s' !! 0%nat = removed visited3 !! 0%nat
  ∧ particle_step susceptible_centroids 0 s' = Ok () s'.
Proof.
  apply (terminal_particles_frozen susceptible_centroids
           [((λ _, 0%nat), 1%nat); ((λ _, 1%nat), 20%nat)] 0 visited3).
  - apply (bool_decide_unpack _). vm_compute. exact I.
  - vm_compute. lia.
  - vm_compute. by eexists.
Defined.

Lemma positions_stay_in_bounds_witness :
  let s' := run_calls susceptible_centroids
              [((λ _, 0%nat), 0%nat); ((λ _, 0%nat), 1%nat)] room3 in
  geometry s'
  ∧ positions_in_bounds s'
  ∧ (∀ i x y, (i < particle_nr s')%nat →
       particle_locations s' !! i = Some (x, y) →
       is_Some (getitem2 (susceptible s') (py_round x) (py_round y))
       ∧ is_Some (getitem2 (outlet s') (py_round x) (py_round y))
       ∧ is_Some (interpolate (width s') (height s') (ux s') x y)
       ∧ is_Some (interpolate (width s') (height s') (uy s') x y))
  ∧ (∀ rnd it, capacity s' →
       ∃ s'', update_particles_with susceptible_centroids rnd it s' = Ok () s''
              ∧ capacity s'').
Proof.
  apply (positions_stay_in_bounds susceptible_centroids
           [((λ _, 0%nat), 0%nat); ((λ _, 0%nat), 1%nat)] room3).
  - exact room3_geometry.
  - intros i x y Hi. vm_compute in Hi. lia.
Defined.

(** * An interception inside a call of [update_particles] *)

Ltac split_untouched :=
  split; [|split; [|split; [|split; [|split; [|split]]]]].

Lemma untouched_refl (i : nat) (s : LBM) : untouched i s s.
Proof. split_untouched; done. Qed.

Lemma bump2_shape (a a' : grid Q) (k j n m : nat) :
  bump2 a k j = Some a' → has_shape n m a → has_shape n m a'.
Proof.
  unfold bump2. intros Hb [Hn Hm].
  destruct (a !! k) as [row|] eqn:Hrow; [|done]. cbn [mbind option_bind] in Hb.
  destruct (row !! j) as [v|]; [|done]. injection Hb as <-.
  split; [by rewrite length_insert|].
  apply Forall_insert; [done|]. rewrite length_insert.
  eapply Forall_forall in Hm; [done|]. by eapply list_elem_of_lookup_2.
Qed.

Lemma untouched_set_location (i j : nat) (p : Q * Q) (s0 s : LBM) :
  i ≠ j → untouched i s0 s → untouched i s0 (final_state (set_location j p s)).
Proof.
  intros Hne (Hloc & Hinf & Hrem & Hex & Hsus & Hsh & Hnr). unfold set_location.
  case_decide; [|done]. split_untouched; try done.
  cbn. by rewrite list_lookup_insert_ne.
Qed.

Lemma untouched_mark_exited (i j : nat) (s0 s : LBM) :
  i ≠ j → untouched i s0 s → untouched i s0 (mark_exited j s).
Proof.
  intros Hne (Hloc & Hinf & Hrem & Hex & Hsus & Hsh & Hnr).
  split_untouched; try done.
  cbn. intros [Hi|Hi]%elem_of_union; [|by apply Hex].
  by apply elem_of_singleton in Hi.
Qed.

Lemma untouched_recorded (nodes : list (Z * Z)) (i j : nat) (x y : Q) (s0 s : LBM) :
  i ≠ j → untouched i s0 s → untouched i s0 (recorded nodes j x y s).
Proof.
  intros Hne (Hloc & Hinf & Hrem & Hex & Hsus & Hsh & Hnr). unfold recorded.
  destruct (np_argmin _) as [k|]; [|done].
  destruct (bump2 (infections s) k j) as [t|] eqn:Ht; [|done].
  split_untouched; try done; cbn.
  - intros k'. rewrite <- Hinf. by eapply entry_bump2.
  - intros n m Hs0. eapply bump2_shape; [done|]. by apply Hsh.
Qed.

Lemma untouched_set_removed (i j : nat) (counts : list Q) (s0 s : LBM) :
  bump (removed s) j = Some counts → i ≠ j →
  untouched i s0 s → untouched i s0 (set_removed counts s).
Proof.
  intros Hb Hne (Hloc & Hinf & Hrem & Hex & Hsus & Hsh & Hnr).
  split_untouched; try done. cbn. rewrite <- Hrem. by eapply lookup_bump.
Qed.

Lemma untouched_step (nodes : list (Z * Z)) (i j : nat) (s0 s : LBM) :
  i ≠ j → untouched i s0 s →
  untouched i s0 (final_state (particle_step nodes j s)).
Proof.
  intros Hne Hun. rewrite particle_step_run.
  destruct (particle_locations s !! j) as [[x y]|]; [|done].
  destruct (decide (j ∈ particles_exited s)); [done|].
  destruct (getitem2 (susceptible s) _ _) as [[|]|]; [| |done].
  - by apply untouched_set_location, untouched_mark_exited, untouched_recorded.
  - destruct (getitem2 (outlet s) _ _) as [[|]|]; [| |done].
    + destruct (bump (removed s) j) as [counts|] eqn:Hb; [|done].
      apply untouched_set_location; [done|].
      apply untouched_mark_exited; [done|]. by apply (untouched_set_removed i j).
    + destruct (interpolate _ _ (ux s) x y); [|done].
      destruct (interpolate _ _ (uy s) x y); [|done].
      by apply untouched_set_location.
Qed.

Lemma untouched_spawn (rnd : nat → nat) (i : nat) (s0 s : LBM) :
  (i < particle_nr s0)%nat → untouched i s0 s →
  untouched i s0 (final_state (spawn rnd s)).
Proof.
  intros Hi Hun. rewrite spawn_run.
  case_decide; [|done].
  destruct (randint _ _ _); [|done].
  destruct (np_where (infected s) !! _) as [cell|]; [|done].
  assert (i ≠ particle_nr s) as Hne by (destruct Hun as (_ & _ & _ & _ & _ & _ & ?); lia).
  pose proof (untouched_set_location i (particle_nr s)
                (inject_Z (Z.of_nat cell.1), inject_Z (Z.of_nat cell.2)) s0 s Hne Hun)
    as Hun'.
  destruct (set_location _ _ s) as [[] s1|e s1]; [|done].
  destruct Hun' as (Hloc & Hinf & Hrem & Hex & Hsus & Hsh & Hnr).
  split_untouched; try done. cbn in *. lia.
Qed.

Lemma for_each_app {A} (l1 l2 : list A) (body : A → M unit) (s : LBM) :
  for_each (l1 ++ l2) body s
  = match for_each l1 body s with
    | Ok _ s' => for_each l2 body s'
    | Raise e s' => Raise e s'
    end.
Proof.
  revert s. induction l1 as [|x l1 IH]; intros s; [done|].
  cbn [app]. rewrite !for_each_cons. destruct (body x s) as [[] s'|e s']; [|done].
  apply IH.
Qed.

(** A call of [update_particles] that returns has done to an active
    particle on a susceptible cell what the loop body does to it, and what
    other particles did in the same call has left it in place. *)
Lemma interception_in_update_particles (nodes : list (Z * Z)) (rnd : nat → nat)
    (it i : nat) (self s' : LBM) (x y : Q) (m : nat) :
  (i < particle_nr self)%nat →
  particle_locations self !! i = Some (x, y) →
  i ∉ particles_exited self →
  getitem2 (susceptible self) (py_round x) (py_round y) = Some true →
  nodes ≠ [] →
  has_shape (length nodes) m (infections self) →
  (i < m)%nat →
  update_particles_with nodes rnd it self = Ok () s' →
  ∃ closest d,
    first_min (dist_2 nodes (py_int x, py_int y)) closest d
    ∧ i ∈ particles_exited s'
    ∧ particle_locations s' !! i = Some (0, 0)
    ∧ (∀ k v, entry (infections self) k i = Some v →
         entry (infections s') k i = Some (if decide (k = closest) then v + 1 else v))
    ∧ removed s' !! i = removed self !! i.
Proof.
  intros Hi Hloc Hact Hsus Hnodes Hsh Him Hrun.
  rewrite update_particles_with_run in Hrun.
  destruct (decide (spawn_rate self = 0)%nat); [done|].
  assert (Hsp : untouched i self (final_state
            (if decide (it `mod` spawn_rate self = 0)%nat
             then for_each (seq 0 (spawn_amount_at_rate self)) (λ _, spawn rnd) self
             else Ok () self))).
  { destruct (decide (it `mod` spawn_rate self = 0)%nat); [|apply untouched_refl].
    apply (for_each_keeps (untouched i self)); [|apply untouched_refl].
    intros _ s0 _. by apply untouched_spawn. }
  destruct (if decide (it `mod` spawn_rate self = 0)%nat then _ else _)
    as [[] s1|e s1]; [|done].
  cbn [final_state] in Hsp.
  assert (Hi1 : (i < particle_nr s1)%nat)
    by (destruct Hsp as (_ & _ & _ & _ & _ & _ & ?); lia).
  replace (seq 0 (particle_nr s1))
    with (seq 0 i ++ [i] ++ seq (S i) (particle_nr s1 - S i)) in Hrun.
  2:{ change ([i] ++ seq (S i) (particle_nr s1 - S i))
        with (seq (0 + i) (S (particle_nr s1 - S i))).
      rewrite <- seq_app. f_equal. lia. }
  rewrite for_each_app in Hrun.
  assert (Hpre : untouched i self
            (final_state (for_each (seq 0 i) (particle_step nodes) s1))).
  { apply (for_each_keeps (untouched i self)); [|done].
    intros j s0 Hj Hun. apply elem_of_seq in Hj.
    apply untouched_step; [lia|done]. }
  destruct (for_each (seq 0 i) (particle_step nodes) s1) as [[] s2|e s2]; [|done].
  cbn [final_state] in Hpre.
  destruct Hpre as (Hloc2 & Hinf2 & Hrem2 & Hex2 & Hsus2 & Hsh2 & Hnr2).
  destruct (interception_spec nodes i s2 x y m)
    as (closest & d & s3 & Hmin & Hstep & Hrows & Hrem3 & Hex3 & Hloc3 & _);
    [congruence|by intros ?%Hex2|by rewrite Hsus2|done|by apply Hsh2|done|].
  change ([i] ++ seq (S i) (particle_nr s1 - S i))
    with (i :: seq (S i) (particle_nr s1 - S i)) in Hrun.
  rewrite for_each_cons, Hstep in Hrun.
  assert (Hfr : frozen i s3 s3).
  { apply frozen_refl; [rewrite Hex3; by apply elem_of_union_l, elem_of_singleton|].
    rewrite particle_step_run in Hstep.
    assert (particle_nr s3 = particle_nr s2) as ->; [|lia].
    rewrite Hloc2, Hloc, decide_False, Hsus2, Hsus in Hstep by (by intros ?%Hex2).
    unfold set_location in Hstep. case_decide; [|done].
    injection Hstep as <-. cbn. unfold recorded.
    by destruct (np_argmin _) as [k|]; [destruct (bump2 _ k i)|]. }
  pose proof (for_each_keeps (frozen i s3) (seq (S i) (particle_nr s1 - S i))
                (particle_step nodes) (λ j s0 _, frozen_step nodes i j s3 s0) s3 Hfr)
    as Hpost.
  match type of Hrun with
  | context [for_each (seq (S i) ?n) ?b s3] =>
      destruct (for_each (seq (S i) n) b s3) as [[] s4|e s4]; [|done]
  end.
  injection Hrun as <-. cbn [final_state] in Hpost.
  destruct Hpost as (Hex4 & _ & Hloc4 & Hinf4 & Hrem4).
  exists closest, d. split; [done|]. split; [done|]. split; [|split].
  - rewrite Hloc4, Hloc3. apply list_lookup_insert_eq.
    rewrite Hloc in Hloc2. by eapply lookup_lt_Some.
  - intros k v Hv. rewrite Hinf4. rewrite <- Hinf2 in Hv. unfold entry in *.
    destruct (infections s2 !! k) as [row|] eqn:Hrow; [|done].
    cbn [mbind option_bind] in Hv.
    destruct (Hrows k row Hrow) as (row' & -> & Hrow').
    cbn [mbind option_bind]. destruct (decide (k = closest)) as [->|Hne].
    + destruct Hrow' as [-> _]. rewrite (nth_lookup_Some _ _ _ _ Hv).
      apply list_lookup_insert_eq. by eapply lookup_lt_Some.
    + by subst row'.
  - by rewrite Hrem4, Hrem3, Hrem2.
Qed.

(** The node of the interception is the truncated position.  Near a tie it
    need not select the centroid that is nearest to the exact position: at
    (48.9, 86.9) the program selects centroid 0, at squared distance 949
    from the node (48, 86), while centroid 1 is the nearer one to the
    position itself. *)
Remark truncated_node_selects :
  np_argmin (dist_2 susceptible_centroids (py_int (489 # 10), py_int (869 # 10)))
  = Some 0%nat
  ∧ dist_2 susceptible_centroids (48, 86)%Z !! 0%nat = Some 949
  ∧ ((489 # 10) - 79) ^ 2 + ((869 # 10) - 80) ^ 2
    < ((489 # 10) - 18) ^ 2 + ((869 # 10) - 93) ^ 2.
Proof. repeat split. Qed.

(** * What an iteration keeps *)

Lemma scatter_row_Forall {A} (P : A → Prop) (m : list bool) (row vals : list A) :
  Forall P row → Forall P vals →
  Forall P (scatter_row m row vals).1
  ∧ length (scatter_row m row vals).1 = length row.
Proof.
  revert row vals. induction m as [|b m IH]; intros [|x row] vals Hrow Hvals;
    try done.
  apply Forall_cons in Hrow as [Hx Hrow]. cbn [scatter_row].
  destruct b.
  - destruct vals as [|v vals]; [by split; [constructor|]|].
    apply Forall_cons in Hvals as [Hv Hvals].
    destruct (IH row vals Hrow Hvals) as [H1 H2].
    destruct (scatter_row m row vals) as [r rest]. cbn in *.
    split; [by constructor|lia].
  - destruct (IH row vals Hrow Hvals) as [H1 H2].
    destruct (scatter_row m row vals) as [r rest]. cbn in *.
    split; [by constructor|lia].
Qed.

Lemma scatter_row_rest_Forall {A} (P : A → Prop) (m : list bool) (row vals : list A) :
  Forall P vals → Forall P (scatter_row m row vals).2.
Proof.
  revert row vals. induction m as [|b m IH]; intros [|x row] vals Hvals; try done.
  cbn [scatter_row]. destruct b.
  - destruct vals as [|v vals]; [done|].
    apply Forall_cons in Hvals as [Hv Hvals]. specialize (IH row vals Hvals).
    by destruct (scatter_row m row vals).
  - specialize (IH row vals Hvals). by destruct (scatter_row m row vals).
Qed.

Lemma mask_set_shape (n m : nat) (mask : grid bool) (f : grid (list Q))
    (vals : list (list Q)) :
  has_shape3 n m f → Forall (λ cell, length cell = NQ) vals →
  has_shape3 n m (mask_set mask f vals).
Proof.
  unfold mask_set. revert mask f vals.
  induction n as [|n IH]; intros mask f vals [Hf Hc] Hvals.
  - destruct f; [|by destruct Hf]. by destruct mask.
  - destruct f as [|row f]; [by destruct Hf|].
    apply has_shape_cons in Hf as [Hrow Hf]. apply Forall_cons in Hc as [Hcr Hc].
    destruct mask as [|mr mask]; [by split; [apply has_shape_cons|constructor]|].
    cbn [scatter].
    destruct (scatter_row_Forall _ mr row vals Hcr Hvals) as [H1 H2].
    pose proof (scatter_row_rest_Forall _ mr row vals Hvals) as H3.
    destruct (scatter_row mr row vals) as [r rest]. cbn [fst snd] in *.
    specialize (IH mask f rest (conj Hf Hc) H3).
    destruct (scatter mask f rest) as [f' rest']. cbn [fst] in *.
    destruct IH as [Hf' Hc'].
    split; [apply has_shape_cons; split; [lia|done]|by constructor].
Qed.

Lemma f_eq_rows_cells (cs : Q) (r x y : list Q) :
  Forall (λ cell, length cell = NQ) (f_eq_rows cs r x y).
Proof.
  apply Forall_forall. intros row Hrow.
  apply list_elem_of_lookup in Hrow as [k Hk].
  unfold f_eq_rows in Hk. rewrite lookup_zip3_with in Hk.
  destruct (r !! k), (x !! k), (y !! k); try done.
  injection Hk as <-. reflexivity.
Qed.

Lemma get_equilibrium_cells (self : LBM) (n : nat) (rho ux uy : operand)
    (fe : grid Q) :
  get_equilibrium self n rho ux uy = Some fe →
  Forall (λ cell, length cell = NQ) fe.
Proof.
  rewrite get_equilibrium_rows.
  destruct (broadcast n rho); [|done]. destruct (broadcast n ux); [|done].
  destruct (broadcast n uy); [|done]. intros [= <-]. apply f_eq_rows_cells.
Qed.

(** The model that a handler leaves is the model it found, with other
    populations of the same shape. *)
Lemma inlet_handler_keeps (it : nat) (model : LBM) :
  has_shape3 (width model) (height model) (f model) →
  ∃ v, final_state (inlet_handler it model) = set_f v model
       ∧ has_shape3 (width model) (height model) v.
Proof.
  intros Hf. unfold inlet_handler. cbv zeta.
  destruct (get_equilibrium _ _ _ _ _) as [fe|] eqn:Hfe.
  - eexists. split; [done|]. apply mask_set_shape; [done|].
    by eapply get_equilibrium_cells.
  - exists (f model). by rewrite set_f_same.
Qed.

Lemma outlet_handler_keeps (model : LBM) :
  has_shape3 (width model) (height model) (f model) →
  ∃ v, final_state (outlet_handler model) = set_f v model
       ∧ has_shape3 (width model) (height model) v.
Proof.
  intros Hf. unfold outlet_handler. cbv zeta.
  destruct (get_equilibrium _ _ _ _ _) as [fe|] eqn:Hfe.
  - eexists. split; [done|]. apply mask_set_shape; [done|].
    by eapply get_equilibrium_cells.
  - exists (f model). by rewrite set_f_same.
Qed.

Lemma fluid_step_shape (self : LBM) :
  fluid_shapes self →
  has_shape3 (width self) (height self)
    (f (fluid_step (fmap (M := list) (eq_cell (cssq self)) <$> f self)
          (store_moments self))).
Proof.
  intros [Hw _ _ Hf _ _]. rewrite fluid_step_f, store_moments_fields.
  cbn [wall tau f set_moments].
  apply bounce_back_f_shape; [done|].
  apply stream_planes. by apply collide_shape.
Qed.

Lemma fluid_step_fields (f_eq : grid (list Q)) (r x y : grid Q) (self : LBM) :
  fluid_step f_eq (set_moments r x y self)
  = set_f (bounce_back_f (wall self) (stream (collide (tau self) (f self) f_eq)))
      (set_moments r (mask_fill (wall self) 0 x) (mask_fill (wall self) 0 y) self).
Proof. reflexivity. Qed.

Lemma set_f_set_f (v v' : grid (list Q)) (s : LBM) :
  set_f v (set_f v' s) = set_f v s.
Proof. reflexivity. Qed.

Lemma shapes_of_update (self : LBM) (v : grid (list Q)) (r x y : grid Q) :
  fluid_shapes self →
  has_shape3 (width self) (height self) v →
  has_shape (width self) (height self) r →
  has_shape (width self) (height self) x →
  has_shape (width self) (height self) y →
  let s' := set_f v (set_moments r x y self) in
  fluid_shapes s'
  ∧ has_shape (width s') (height s') (rho s')
  ∧ ∃ r x y v, s' = set_f v (set_moments r x y self).
Proof.
  intros [Hw Hi Ho Hf Hx Hy] Hv Hr Hx' Hy' s'. subst s'.
  split; [by split|]. split; [done|]. by exists r, x, y, v.
Qed.

(** What an iteration leaves: the model it found with other moments and
    other populations, of the same shapes. *)
Lemma iteration_result (self : LBM) (it : nat) :
  fluid_shapes self →
  ∃ v r x y,
    final_state (lbm_iteration inlet_handler outlet_handler it self)
    = set_f v (set_moments r x y self)
    ∧ has_shape3 (width self) (height self) v
    ∧ has_shape (width self) (height self) r
    ∧ has_shape (width self) (height self) x
    ∧ has_shape (width self) (height self) y.
Proof.
  intros Hsh. pose proof Hsh as [Hw Hi Ho Hf Hx Hy].
  rewrite lbm_iteration_run. cbv zeta.
  rewrite equilibrium_field_cells by apply Hf.
  set (E := fmap (M := list) (eq_cell (cssq self)) <$> f self).
  pose proof (fluid_step_shape self Hsh) as Hstep. fold E in Hstep.
  pose proof (fmap_shape sumq _ _ _ (proj1 Hf)) as Hr.
  pose proof (fmap_shape (cell_u c0) _ _ _ (proj1 Hf)) as Hu0.
  pose proof (fmap_shape (cell_u c1) _ _ _ (proj1 Hf)) as Hu1.
  rewrite store_moments_fields in *.
  set (r := fmap (M := list) sumq <$> f self) in *.
  set (x := fmap (M := list) (cell_u c0) <$> f self) in *.
  set (y := fmap (M := list) (cell_u c1) <$> f self) in *.
  assert (Habort : ∃ v r0 x0 y0,
            set_moments r x y self = set_f v (set_moments r0 x0 y0 self)
            ∧ has_shape3 (width self) (height self) v
            ∧ has_shape (width self) (height self) r0
            ∧ has_shape (width self) (height self) x0
            ∧ has_shape (width self) (height self) y0).
  { exists (f self), r, x, y. split; [|done].
    by rewrite <- (set_f_same (set_moments r x y self)) at 1. }
  destruct (np_min (flatten (flatten E))) as [lowest|]; [|exact Habort].
  destruct (Qle_bool 0 lowest); [|destruct (np_argmin _); exact Habort].
  destruct (Qeq_bool _ 0); [exact Habort|]. clear Habort.
  rewrite fluid_step_fields in *.
  set (B := bounce_back_f _ _) in *.
  set (X := mask_fill (wall self) 0 x).
  set (Y := mask_fill (wall self) 0 y).
  assert (HX : has_shape (width self) (height self) X)
    by (by apply mask_fill_shape).
  assert (HY : has_shape (width self) (height self) Y)
    by (by apply mask_fill_shape).
  change (has_shape3 (width self) (height self) B) in Hstep.
  destruct (inlet_handler_keeps it (set_f B (set_moments r X Y self)))
    as (v & Hin & Hv); [exact Hstep|].
  rewrite set_f_set_f in Hin.
  change (has_shape3 (width self) (height self) v) in Hv.
  destruct (inlet_handler it (set_f B (set_moments r X Y self))) as [[] s2|e s2];
    cbn [final_state] in Hin; subst s2.
  - destruct (outlet_handler_keeps (set_f v (set_moments r X Y self)))
      as (v' & Hout & Hv'); [exact Hv|].
    rewrite set_f_set_f in Hout.
    change (has_shape3 (width self) (height self) v') in Hv'.
    rewrite Hout. by exists v', r, X, Y.
  - cbn [final_state]. by exists v, r, X, Y.
Qed.

(** The shapes after an iteration, and what it can have changed. *)
Lemma iteration_shapes (self : LBM) (it : nat) :
  fluid_shapes self →
  let s' := final_state (lbm_iteration inlet_handler outlet_handler it self) in
  fluid_shapes s'
  ∧ has_shape (width s') (height s') (rho s')
  ∧ ∃ r x y v, s' = set_f v (set_moments r x y self).
Proof.
  intros Hsh.
  destruct (iteration_result self it Hsh) as (v & r & x & y & -> & Hv & Hr & Hx & Hy).
  by apply shapes_of_update.
Qed.

(** X1.  An iteration with the default handlers, whether it returns or
    raises, changes nothing of a well-shaped model but [rho], [ux], [uy] and
    [f], and leaves all arrays with the shape of the grid: the masks, the
    parameters and the particles are as before, and the next iteration
    finds a well-shaped model again. *)
Theorem lbm_iteration_keeps_shapes (self : LBM) (it : nat) :
  fluid_shapes self →
  let s' := final_state (lbm_iteration inlet_handler outlet_handler it self) in
  fluid_shapes s'
  ∧ has_shape (width s') (height s') (rho s')
  ∧ ∃ r x y v, s' = set_f v (set_moments r x y self).
Proof. apply iteration_shapes. Qed.

(** * Particles are passive *)

Lemma fluid_part_set_location (j : nat) (p : Q * Q) (s : LBM) :
  fluid_part (final_state (set_location j p s)) = fluid_part s.
Proof. unfold set_location. by case_decide. Qed.

Lemma fluid_part_recorded (nodes : list (Z * Z)) (j : nat) (x y : Q) (s : LBM) :
  fluid_part (recorded nodes j x y s) = fluid_part s.
Proof.
  unfold recorded. by destruct (np_argmin _) as [k|]; [destruct (bump2 _ k j)|].
Qed.

Lemma fluid_part_step (nodes : list (Z * Z)) (j : nat) (s : LBM) :
  fluid_part (final_state (particle_step nodes j s)) = fluid_part s.
Proof.
  rewrite particle_step_run.
  destruct (particle_locations s !! j) as [[x y]|]; [|done].
  destruct (decide (j ∈ particles_exited s)); [done|].
  destruct (getitem2 (susceptible s) _ _) as [[|]|]; [| |done].
  - rewrite fluid_part_set_location. apply (fluid_part_recorded nodes j x y s).
  - destruct (getitem2 (outlet s) _ _) as [[|]|]; [| |done].
    + destruct (bump (removed s) j) as [counts|]; [|done].
      by rewrite fluid_part_set_location.
    + destruct (interpolate _ _ (ux s) x y); [|done].
      destruct (interpolate _ _ (uy s) x y); [|done].
      by rewrite fluid_part_set_location.
Qed.

Lemma fluid_part_spawn (rnd : nat → nat) (s : LBM) :
  fluid_part (final_state (spawn rnd s)) = fluid_part s.
Proof.
  rewrite spawn_run. case_decide; [|done].
  destruct (randint _ _ _); [|done].
  destruct (np_where (infected s) !! _) as [cell|]; [|done].
  pose proof (fluid_part_set_location (particle_nr s)
                (inject_Z (Z.of_nat cell.1), inject_Z (Z.of_nat cell.2)) s) as Hsl.
  by destruct (set_location _ _ s) as [[] s1|e s1].
Qed.

(** The particles never act on the fluid. *)
Lemma particles_keep_fluid (nodes : list (Z * Z)) (rnd : nat → nat)
    (it : nat) (self : LBM) :
  fluid_part (final_state (update_particles_with nodes rnd it self))
  = fluid_part self.
Proof.
  apply (update_particles_keeps (λ s, fluid_part s = fluid_part self)); [| |done].
  - intros s Hs. by rewrite fluid_part_spawn.
  - intros j s Hs. by rewrite fluid_part_step.
Qed.

(** X2.  A call of [update_particles], returning or raising, leaves the grid,
    the masks, the parameters and the fields [rho], [ux], [uy] and [f] as
    they were: the particles are carried by the flow and never act on it. *)
Theorem update_particles_keeps_fluid (nodes : list (Z * Z)) (rnd : nat → nat)
    (it : nat) (self : LBM) :
  fluid_part (final_state (update_particles_with nodes rnd it self))
  = fluid_part self.
Proof. apply particles_keep_fluid. Qed.

(** * Mass over a run *)

Lemma fluid_step_total (self : LBM) :
  fluid_shapes self → cssq self = 1 # 3 →
  total_density
    (f (fluid_step (fmap (M := list) (eq_cell (cssq self)) <$> f self)
          (store_moments self)))
  == total_density (f self).
Proof.
  intros [Hw _ _ Hf _ _] Hcs. rewrite fluid_step_f, store_moments_fields.
  cbn [wall tau f set_moments]. rewrite Hcs.
  pose proof (collide_shape _ _ (tau self) (1 # 3) _ Hf) as Hc.
  destruct (stream_planes _ _ _ Hc) as [Hs _].
  rewrite (total_bounce _ _ _ _ Hw Hs), (total_stream _ _ _ Hc).
  by apply (total_collide (width self) (height self)).
Qed.

Lemma iteration_total (self : LBM) (it : nat) :
  fluid_shapes self → cssq self = 1 # 3 →
  all_false (inlet self) → all_false (outlet self) →
  total_density (f (final_state (lbm_iteration inlet_handler outlet_handler it self)))
  == total_density (f self).
Proof.
  intros Hsh Hcs Hin Hout.
  rewrite lbm_iteration_run. cbv zeta.
  rewrite equilibrium_field_cells by apply (shape_f _ Hsh).
  assert (Hf1 : f (store_moments self) = f self)
    by (by rewrite store_moments_fields).
  destruct (np_min _) as [lowest|]; [|cbn [final_state]; by rewrite Hf1].
  destruct (Qle_bool 0 lowest).
  - destruct (Qeq_bool _ 0); [cbn [final_state]; by rewrite Hf1|].
    rewrite inlet_handler_no_inlet
      by (change (all_false (inlet (store_moments self)));
          by rewrite store_moments_fields).
    rewrite outlet_handler_no_outlet
      by (change (all_false (outlet (store_moments self)));
          by rewrite store_moments_fields).
    cbn [final_state]. by apply fluid_step_total.
  - destruct (np_argmin _); cbn [final_state]; by rewrite Hf1.
Qed.

Lemma final_state_bind {A B} (m : M A) (k : A → M B) (s : LBM) :
  final_state ((m ≫= k) s)
  = match m s with
    | Ok a s' => final_state (k a s')
    | Raise _ s' => s'
    end.
Proof. unfold mbind, M_bind. by destruct (m s). Qed.

(** X3.  In a well-shaped model with the squared speed of sound 1/3 and no
    inlet and no outlet cell, the loop of [render] over any number of
    iterations, with or without particles, and whether it runs to its end
    or stops on an exception, leaves the total density of the fluid as it
    found it. *)
Theorem render_loop_conserves_mass (self : LBM) (particles : bool)
    (rnd : nat → nat) (iterations : nat) :
  fluid_shapes self →
  cssq self = 1 # 3 →
  all_false (inlet self) →
  all_false (outlet self) →
  total_density
    (f (final_state
          (render_loop inlet_handler outlet_handler particles rnd iterations self)))
  == total_density (f self).
Proof.
  intros Hsh Hcs Hin Hout. unfold render_loop.
  apply (for_each_keeps
           (λ s, (fluid_shapes s ∧ cssq s = 1 # 3 ∧ all_false (inlet s)
                  ∧ all_false (outlet s))
                 ∧ total_density (f s) == total_density (f self)));
    [|split; [done|reflexivity]].
  intros it s _ [(Hsh' & Hcs' & Hin' & Hout') Htot].
  unfold animate. rewrite final_state_bind.
  pose proof (iteration_shapes s it Hsh') as (Hsh1 & _ & r & x & y & v & Hs1).
  pose proof (iteration_total s it Hsh' Hcs' Hin' Hout') as Htot1.
  cbv zeta in Hsh1, Hs1.
  destruct (lbm_iteration inlet_handler outlet_handler it s) as [[] s1|e s1];
    cbn [final_state] in *.
  - assert (Hfp : fluid_part (final_state
                     ((if particles then update_particles rnd it else mret ()) s1))
                  = fluid_part s1).
    { destruct particles; [apply particles_keep_fluid|done]. }
    set (s2 := final_state _) in *.
    unfold fluid_part in Hfp. injection Hfp as Hw Hh Hwl Hil Hol _ _ _ _ Hc _ _ Hux Huy Hf.
    split.
    + split; [|split; [|split]].
      * destruct Hsh1. split; congruence.
      * rewrite Hc, Hs1. done.
      * rewrite Hil, Hs1. done.
      * rewrite Hol, Hs1. done.
    + rewrite Hf, Htot1. done.
  - split; [|by rewrite Htot1]. subst s1. done.
Qed.

(** * The model that [__init__] builds *)

Lemma replicate_shape {A} (n m : nat) (x : A) :
  has_shape n m (replicate n (replicate m x)).
Proof.
  split; [apply length_replicate|].
  apply Forall_replicate. apply length_replicate.
Qed.

Lemma zip3_with_replicate {A B C D} (g : A → B → C → D) (n : nat) a b c :
  zip3_with g (replicate n a) (replicate n b) (replicate n c)
  = replicate n (g a b c).
Proof.
  unfold zip3_with. induction n as [|n IH]; [done|]. cbn. by rewrite IH.
Qed.

Lemma size_positive (size : nat) : (1 ≤ size)%nat → 1 <= inject_Z (Z.of_nat size).
Proof.
  intros H. change 1 with (inject_Z 1). rewrite <- Zle_Qle. lia.
Qed.

Lemma init_default_values (size : nat) :
  (1 ≤ size)%nat →
  ∃ u t, init_default size = (u, 1 # 3, t) ∧ 1 # 2 < t.
Proof.
  intros Hs. pose proof (size_positive size Hs) as Hn.
  unfold init_default. cbv zeta. eexists _, _. split; [reflexivity|].
  set (n := inject_Z (Z.of_nat size)) in *.
  change (inject_Z (Z.of_nat ITERATIONS)) with (1000 # 1).
  match goal with
  | |- _ < ?e => assert (e == (1 # 2) + (1332 # 100000000) * (n * n)) as ->
  end.
  { field. lra. }
  pose proof (sq_nonneg n). nra.
Qed.

Lemma init_liddrivencavity_values (size : nat) (Re : Q) :
  (1 ≤ size)%nat → 0 < Re →
  ∃ u t, init_liddrivencavity size Re = (u, 1 # 3, t) ∧ 1 # 2 < t.
Proof.
  intros Hs HRe. pose proof (size_positive size Hs) as Hn.
  unfold init_liddrivencavity. cbv zeta. eexists _, _. split; [reflexivity|].
  set (n := inject_Z (Z.of_nat size)) in *.
  assert (0 < (2 # 10) * n / Re / (1 # 3)); [|lra].
  assert ((2 # 10) * n / Re / (1 # 3) == (6 # 10) * n * / Re) as ->
    by (field; lra).
  apply Qmult_lt_0_compat; [lra|]. by apply Qinv_lt_0_compat.
Qed.

Lemma rest_cell : Forall2 Qeq ((λ i, f_eq_entry (1 # 3) i 1 0 0) <$> seq 0 NQ) w.
Proof. repeat constructor. Qed.

Lemma sumq_w : sumq w == 1.
Proof. reflexivity. Qed.

Lemma at_rest_total (n m : nat) (f : grid (list Q)) :
  has_shape n m f → at_rest f →
  total_density f == inject_Z (Z.of_nat (n * m)).
Proof.
  revert f. induction n as [|n IH]; intros f Hf Hr.
  - destruct f; [reflexivity|by destruct Hf].
  - destruct f as [|row f]; [by destruct Hf|].
    apply has_shape_cons in Hf as [Hrow Hf]. apply Forall_cons in Hr as [Hrr Hr].
    unfold total_density in *. cbn [fmap list_fmap sumq foldr].
    fold (sumq (sumq <$> (fmap (M := list) sumq <$> f))).
    rewrite (IH f Hf Hr).
    assert (sumq (sumq <$> row) == inject_Z (Z.of_nat m)) as ->.
    { clear -Hrow Hrr. revert m Hrow.
      induction Hrr as [|cell row Hcell _ IHr]; intros m Hm; simpl in Hm; subst m.
      - reflexivity.
      - cbn [fmap list_fmap sumq foldr]. fold (sumq (sumq <$> row)).
        rewrite (IHr _ eq_refl), (sumq_proper _ _ Hcell), sumq_w.
        rewrite Nat2Z.inj_succ. unfold Z.succ. rewrite inject_Z_plus.
        change (inject_Z 1) with 1. ring. }
    assert (Z.of_nat (S n * m) = (Z.of_nat m + Z.of_nat (n * m))%Z) as ->
      by (simpl; lia).
    by rewrite inject_Z_plus.
Qed.

Lemma new_LBM_built (size : nat) (scale : Q)
    (wall inlet outlet infected susceptible : grid bool) (init : init_kind) :
  (1 ≤ size)%nat →
  valid_init init →
  ∃ u t,
    1 # 2 < t
    ∧ new_LBM size scale wall inlet outlet infected susceptible init
      = inr (mkLBM size size scale wall inlet outlet infected susceptible
               20 1 50 0 u (1 # 3) t
               (replicate size (replicate size 1))
               (replicate size (replicate size 0))
               (replicate size (replicate size 0))
               (rest_populations size) [] [] [] ∅ []).
Proof.
  intros Hs Hinit. unfold new_LBM.
  rewrite decide_False by lia.
  assert (∃ u t,
            match init with
            | InitDefault => init_default size
            | InitCavity Re => init_liddrivencavity size Re
            end = (u, 1 # 3, t) ∧ 1 # 2 < t
            ∧ match init with
              | InitCavity Re => Qeq_bool Re 0
              | InitDefault => false
              end = false) as (u & t & -> & Ht & ->).
  { destruct init as [|Re]; simpl in Hinit.
    - destruct (init_default_values size Hs) as (u & t & ? & ?). by exists u, t.
    - destruct (init_liddrivencavity_values size Re Hs Hinit) as (u & t & ? & ?).
      exists u, t. repeat split; [done..|].
      apply not_true_iff_false. intros HRe%Qeq_bool_iff. lra. }
  cbv zeta.
  rewrite get_equilibrium_rows.
  rewrite !broadcast_array
    by (apply length_flatten; apply replicate_shape).
  cbn [mbind option_bind cssq].
  unfold f_eq_rows.
  rewrite (reshape_flatten_zip3 _ size size)
    by apply replicate_shape.
  unfold zeros. rewrite zip3_with_replicate, zip3_with_replicate.
  exists u, t. split; [done|]. reflexivity.
Qed.

Lemma rest_populations_rest (size : nat) : at_rest (rest_populations size).
Proof. apply Forall_replicate, Forall_replicate, rest_cell. Qed.

Lemma rest_populations_shape (size : nat) :
  has_shape3 size size (rest_populations size).
Proof.
  split; [apply replicate_shape|]. by apply Forall_replicate, Forall_replicate.
Qed.

(** X4.  For a size of at least 1, masks of shape (size, size) and either
    initialisation (a cavity with a positive Reynolds number), [__init__]
    returns a model all of whose arrays have the shape of the grid, with
    the squared speed of sound 1/3, a relaxation time above 1/2 (so the
    collision never divides by zero), every cell at rest (its populations
    are the weights) and so a total density of size * size, and no particle
    yet. *)
Theorem new_LBM_well_formed (size : nat) (scale : Q)
    (wall inlet outlet infected susceptible : grid bool) (init : init_kind) :
  (1 ≤ size)%nat →
  valid_init init →
  has_shape size size wall → has_shape size size inlet →
  has_shape size size outlet →
  ∃ s,
    new_LBM size scale wall inlet outlet infected susceptible init = inr s
    ∧ width s = size ∧ height s = size
    ∧ fluid_shapes s
    ∧ cssq s = 1 # 3
    ∧ 1 # 2 < tau s
    ∧ at_rest (f s)
    ∧ total_density (f s) == inject_Z (Z.of_nat (size * size))
    ∧ particle_nr s = 0%nat
    ∧ num_particles s = 50%nat.
Proof.
  intros Hs Hinit Hw Hi Ho.
  destruct (new_LBM_built size scale wall inlet outlet infected susceptible init
              Hs Hinit) as (u & t & Ht & ->).
  eexists. split; [reflexivity|].
  cbn [width height cssq tau f particle_nr num_particles].
  split; [done|]. split; [done|]. split.
  { split; cbn; try done; try apply replicate_shape.
    apply rest_populations_shape. }
  split; [done|]. split; [done|]. split; [apply rest_populations_rest|].
  split; [|done].
  apply at_rest_total; [apply rest_populations_shape|apply rest_populations_rest].
Qed.

(** * A fluid at rest *)

Lemma f_eq_entry_proper (cs : Q) (i : nat) (r r' x x' y y' : Q) :
  r == r' → x == x' → y == y' →
  f_eq_entry cs i r x y == f_eq_entry cs i r' x' y'.
Proof.
  intros Hr Hx Hy. unfold f_eq_entry. cbv zeta. by rewrite Hr, Hx, Hy.
Qed.

Lemma weighted_sum_proper (ks cell cell' : list Q) :
  Forall2 Qeq cell cell' →
  sumq (zip_with Qmult ks cell) == sumq (zip_with Qmult ks cell').
Proof.
  intros H. revert ks. induction H as [|a b l l' Hab _ IH]; intros [|k ks];
    try reflexivity.
  cbn [zip_with sumq foldr]. fold (sumq (zip_with Qmult ks l)).
  fold (sumq (zip_with Qmult ks l')). by rewrite Hab, (IH ks).
Qed.

Lemma rest_moments (cell : list Q) :
  Forall2 Qeq cell w →
  sumq cell == 1 ∧ cell_u c0 cell == 0 ∧ cell_u c1 cell == 0.
Proof.
  intros H. pose proof (sumq_proper _ _ H) as Hs. rewrite sumq_w in Hs.
  split; [done|]. unfold cell_u.
  rewrite !(weighted_sum_proper _ _ _ H), Hs. split; reflexivity.
Qed.

Lemma rest_entries (r x y : Q) :
  r == 1 → x == 0 → y == 0 →
  Forall2 Qeq ((λ i, f_eq_entry (1 # 3) i r x y) <$> seq 0 NQ) w.
Proof.
  intros Hr Hx Hy.
  eapply Forall2_trans; [| |exact rest_cell].
  { intros a b d Hab Hbd. by rewrite Hab. }
  apply Forall2_fmap, Forall_Forall2_diag, Forall_forall. intros i _.
  by apply f_eq_entry_proper.
Qed.

Lemma rest_eq_cell (cell : list Q) :
  Forall2 Qeq cell w → Forall2 Qeq (eq_cell (1 # 3) cell) w.
Proof.
  intros H. destruct (rest_moments cell H) as (Hr & Hx & Hy).
  by apply rest_entries.
Qed.

Lemma rest_collide_cell (t : Q) (cell e : list Q) :
  Forall2 Qeq cell w → Forall2 Qeq e w →
  Forall2 Qeq (zip_with (λ x v, x * (1 - (1 / t)) + (1 / t) * v) cell e) w.
Proof.
  intros Hc. revert e. induction Hc as [|a b l l' Hab _ IH]; intros e He.
  - inversion He. constructor.
  - inversion He as [|a' b' e' l'' Ha' He']; subst. cbn [zip_with].
    constructor; [|by apply IH]. rewrite Hab, Ha'. ring.
Qed.

Lemma rest_insert (cell : list Q) (i : nat) (q : Q) :
  Forall2 Qeq cell w → q == w_ i → Forall2 Qeq (<[i := q]> cell) w.
Proof.
  intros Hc Hq. unfold w_ in Hq. revert Hc i Hq. generalize w as ws.
  intros ws Hc. induction Hc as [|a b l l' Hab Hl IH]; intros [|i] Hq;
    try done.
  - constructor; done.
  - constructor; [done|]. by apply IH.
Qed.

Lemma rest_reflect (cell : list Q) :
  Forall2 Qeq cell w → Forall2 Qeq (reflect cell) w.
Proof.
  intros H. pose proof (Forall2_length _ _ _ H) as Hlen.
  do 9 (destruct cell as [|? cell]; [done|]). destruct cell; [|done].
  unfold w in H. repeat (apply Forall2_cons_1 in H as [? H]).
  unfold reflect, opposite, w. cbn [fmap list_fmap nth].
  repeat constructor; done.
Qed.

Lemma rest_plane (i : nat) (f : grid (list Q)) :
  at_rest f → Forall (Forall (λ q, q == w_ i)) (plane i f).
Proof.
  intros H. unfold plane. apply Forall_fmap. eapply Forall_impl; [exact H|].
  intros row Hrow. simpl. apply Forall_fmap.
  eapply Forall_impl; [exact Hrow|]. intros cell Hcell. simpl.
  unfold w_. rewrite !nth_lookup.
  pose proof (proj1 (Forall2_lookup _ _ _) Hcell i) as Hi.
  destruct Hi; simpl; [done|reflexivity].
Qed.

Lemma roll_Forall {A} (P : A → Prop) (a : grid A) (v : Z * Z) :
  Forall (Forall P) a → Forall (Forall P) (roll a v).
Proof.
  intros H. unfold roll. apply Forall_fmap, Forall_forall. intros row Hrow.
  unfold roll1 in Hrow. apply elem_of_rotate in Hrow.
  eapply Forall_forall in H; [|exact Hrow]. simpl.
  apply Forall_forall. intros x Hx. unfold roll1 in Hx.
  apply elem_of_rotate in Hx. by eapply Forall_forall in H.
Qed.

Lemma rest_set_plane (i : nat) (p : grid Q) (f : grid (list Q)) :
  at_rest f → Forall (Forall (λ q, q == w_ i)) p → at_rest (set_plane i p f).
Proof.
  intros Hf. revert p. unfold set_plane.
  induction Hf as [|row f Hrow _ IH]; intros [|prow p] Hp; try constructor.
  - apply Forall_cons in Hp as [Hpr _]. clear IH. revert prow Hpr.
    induction Hrow as [|cell row Hcell _ IHr]; intros [|q prow] Hpr;
      try constructor.
    + apply Forall_cons in Hpr as [Hq _]. by apply rest_insert.
    + apply Forall_cons in Hpr as [_ Hpr]. by apply IHr.
  - apply Forall_cons in Hp as [_ Hp]. by apply IH.
Qed.

Lemma rest_stream (f : grid (list Q)) : at_rest f → at_rest (stream f).
Proof.
  unfold stream. generalize (seq 0 NQ) as idxs. intros idxs. revert f.
  induction idxs as [|i idxs IH]; intros f Hf; [done|].
  cbn [foldl]. apply IH. unfold stream_step.
  apply rest_set_plane; [done|]. by apply roll_Forall, rest_plane.
Qed.

Lemma rest_bounce (n m : nat) (wall : grid bool) (f : grid (list Q)) :
  has_shape n m wall → has_shape n m f → at_rest f →
  at_rest (bounce_back_f wall f).
Proof.
  intros Hw Hf Hr. rewrite (bounce_back_f_cells n m) by done.
  clear Hw Hf. revert wall.
  induction Hr as [|row f Hrow _ IH]; intros [|mrow wall]; try constructor.
  - clear IH. revert mrow.
    induction Hrow as [|cell row Hcell _ IHr]; intros [|b mrow]; try constructor.
    + destruct b; [by apply rest_reflect|done].
    + apply IHr.
  - apply IH.
Qed.

Lemma rest_mask_set (mask : grid bool) (f : grid (list Q)) (vals : list (list Q)) :
  at_rest f → Forall (λ cell, Forall2 Qeq cell w) vals →
  at_rest (mask_set mask f vals).
Proof.
  unfold mask_set. intros Hf. revert mask vals.
  induction Hf as [|row f Hrow Hf IH]; intros [|mr mask] vals Hvals;
    try (by constructor).
  cbn [scatter].
  destruct (scatter_row_Forall _ mr row vals Hrow Hvals) as [H1 _].
  pose proof (scatter_row_rest_Forall _ mr row vals Hvals) as H3.
  destruct (scatter_row mr row vals) as [r rest]. cbn [fst snd] in *.
  specialize (IH mask rest H3).
  destruct (scatter mask f rest) as [f' rest']. cbn [fst] in *.
  by constructor.
Qed.

Lemma mask_get_Forall {A} (P : A → Prop) (mask : grid bool) (a : grid A) :
  Forall (Forall P) a → Forall P (mask_get mask a).
Proof.
  unfold mask_get. intros Ha. revert mask.
  induction Ha as [|row a Hrow _ IH]; intros [|mr mask]; try constructor.
  cbn [zip_with concat]. apply Forall_app. split; [|apply IH].
  clear -Hrow. revert mr. induction Hrow as [|x row Hx _ IHr]; intros [|b mr];
    try constructor.
  cbn [compress]. destruct b; [constructor; [done|apply IHr]|apply IHr].
Qed.

Lemma mask_fill_Forall {A} (P : A → Prop) (mask : grid bool) (v : A) (a : grid A) :
  P v → Forall (Forall P) a → Forall (Forall P) (mask_fill mask v a).
Proof.
  intros Hv Ha. unfold mask_fill. revert mask.
  induction Ha as [|row a Hrow _ IH]; intros [|mr mask]; try constructor.
  - clear -Hrow Hv. revert mr. induction Hrow as [|x row Hx _ IHr]; intros [|b mr];
      try constructor; [by destruct b|apply IHr].
  - apply IH.
Qed.

Lemma rest_f_eq_rows (r x y : list Q) :
  Forall (λ q, q == 1) r → Forall (λ q, q == 0) x → Forall (λ q, q == 0) y →
  Forall (λ cell, Forall2 Qeq cell w) (f_eq_rows (1 # 3) r x y).
Proof.
  intros Hr Hx Hy. apply Forall_forall. intros row Hrow.
  apply list_elem_of_lookup in Hrow as [k Hk].
  unfold f_eq_rows in Hk. rewrite lookup_zip3_with in Hk.
  destruct (r !! k) as [rk|] eqn:Erk; [|done].
  destruct (x !! k) as [xk|] eqn:Exk; [|done].
  destruct (y !! k) as [yk|] eqn:Eyk; [|done].
  cbn [mbind option_bind] in Hk.
  assert (row = (λ i, f_eq_entry (1 # 3) i rk xk yk) <$> seq 0 NQ) as ->
    by congruence.
  apply rest_entries.
  - eapply Forall_forall in Hr; [exact Hr|by eapply list_elem_of_lookup_2].
  - eapply Forall_forall in Hx; [exact Hx|by eapply list_elem_of_lookup_2].
  - eapply Forall_forall in Hy; [exact Hy|by eapply list_elem_of_lookup_2].
Qed.

(** * The rest state is steady *)

Lemma np_min_elem (l : list Q) :
  l ≠ [] → ∃ v, np_min l = Some v ∧ v ∈ l.
Proof.
  intros Hl. destruct (np_argmin_min_spec l Hl) as (k & v & _ & Hv & Hk & _).
  exists v. split; [done|]. by eapply list_elem_of_lookup_2.
Qed.

Lemma rest_cell_nonneg (cell : list Q) :
  Forall2 Qeq cell w → Forall (λ v, 0 <= v) cell.
Proof.
  intros H. pose proof (Forall2_length _ _ _ H) as Hlen.
  do 9 (destruct cell as [|? cell]; [done|]). destruct cell; [|done].
  unfold w in H. repeat (apply Forall2_cons_1 in H as [? H]).
  repeat constructor; lra.
Qed.

Lemma rest_nonneg (f : grid (list Q)) :
  at_rest f → Forall (λ v, 0 <= v) (flatten (flatten f)).
Proof.
  intros H. unfold flatten. apply Forall_join.
  apply Forall_forall. intros cell Hcell.
  apply list_elem_of_join in Hcell as (row & Hcell & Hrow).
  eapply Forall_forall in H; [|exact Hrow].
  eapply Forall_forall in H; [|exact Hcell]. by apply rest_cell_nonneg.
Qed.

Lemma rest_collide (t : Q) (f e : grid (list Q)) :
  at_rest f → at_rest e → at_rest (collide t f e).
Proof.
  unfold collide. intros Hf. revert e.
  induction Hf as [|row f Hrow Hf IH]; intros [|erow e] He; try constructor.
  - apply Forall_cons in He as [He _]. clear IH Hf. revert erow He.
    induction Hrow as [|cell row Hcell Hrow IHr]; intros [|ecell erow] He;
      try constructor.
    + apply Forall_cons in He as [He _]. by apply rest_collide_cell.
    + apply Forall_cons in He as [_ He]. by apply IHr.
  - apply Forall_cons in He as [_ He]. by apply IH.
Qed.

Lemma rest_equilibrium_field (f : grid (list Q)) :
  at_rest f → at_rest (fmap (M := list) (eq_cell (1 # 3)) <$> f).
Proof.
  intros H. apply Forall_fmap. eapply Forall_impl; [exact H|].
  intros row Hrow. simpl. apply Forall_fmap.
  eapply Forall_impl; [exact Hrow|]. intros cell Hcell. by apply rest_eq_cell.
Qed.

Lemma rest_density (f : grid (list Q)) :
  at_rest f → uniform 1 (fmap (M := list) sumq <$> f).
Proof.
  intros H. apply Forall_fmap. eapply Forall_impl; [exact H|].
  intros row Hrow. simpl. apply Forall_fmap.
  eapply Forall_impl; [exact Hrow|]. intros cell Hcell. simpl.
  by apply rest_moments.
Qed.

Lemma rest_velocity (k : nat → Q) (f : grid (list Q)) :
  k = c0 ∨ k = c1 →
  at_rest f → uniform 0 (fmap (M := list) (cell_u k) <$> f).
Proof.
  intros Hk H. apply Forall_fmap. eapply Forall_impl; [exact H|].
  intros row Hrow. simpl. apply Forall_fmap.
  eapply Forall_impl; [exact Hrow|]. intros cell Hcell. simpl.
  destruct Hk as [-> | ->]; by apply rest_moments.
Qed.

Lemma rest_inlet_handler (it : nat) (model : LBM) :
  cssq model = 1 # 3 → u_lb model == 0 → at_rest (f model) →
  ∃ v, inlet_handler it model = Ok () (set_f v model) ∧ at_rest v.
Proof.
  intros Hcs Hu Hf. unfold inlet_handler. cbv zeta.
  rewrite get_equilibrium_rows.
  rewrite broadcast_array by done.
  cbn [broadcast mbind option_bind]. eexists. split; [done|].
  apply rest_mask_set; [done|]. rewrite Hcs. apply rest_f_eq_rows.
  - apply Forall_fmap, Forall_forall. by intros q _.
  - apply Forall_replicate. exact Hu.
  - by apply Forall_replicate.
Qed.

Lemma rest_outlet_handler (n m : nat) (model : LBM) :
  has_shape n m (outlet model) → has_shape n m (rho model) →
  has_shape n m (ux model) → has_shape n m (uy model) →
  cssq model = 1 # 3 → at_rest (f model) →
  uniform 1 (rho model) → uniform 0 (ux model) → uniform 0 (uy model) →
  ∃ v, outlet_handler model = Ok () (set_f v model) ∧ at_rest v.
Proof.
  intros Ho Hr Hx Hy Hcs Hf Hr1 Hx0 Hy0. unfold outlet_handler. cbv zeta.
  rewrite get_equilibrium_rows.
  rewrite !broadcast_array; try done; try by apply (length_mask_get_same n m).
  cbn [mbind option_bind]. eexists. split; [done|].
  apply rest_mask_set; [done|]. rewrite Hcs.
  apply rest_f_eq_rows; by apply mask_get_Forall.
Qed.

(** One iteration from rest. *)
Lemma rest_iteration (self : LBM) (it : nat) :
  fluid_shapes self →
  (0 < width self)%nat → (0 < height self)%nat →
  cssq self = 1 # 3 →
  ¬ tau self == 0 →
  all_false (inlet self) ∨ u_lb self == 0 →
  at_rest (f self) →
  ∃ s', lbm_iteration inlet_handler outlet_handler it self = Ok () s'
        ∧ at_rest (f s')
        ∧ uniform 1 (rho s') ∧ uniform 0 (ux s') ∧ uniform 0 (uy s')
        ∧ fluid_shapes s'.
Proof.
  intros Hsh Hw Hh Hcs Htau Hin Hrest.
  pose proof Hsh as [Hwall Hinlet Houtlet [Hf Hc] Hux Huy].
  pose proof (iteration_shapes self it Hsh) as Hkeep.
  cbv zeta in Hkeep. destruct Hkeep as (Hsh' & _ & _).
  rewrite lbm_iteration_run in *. cbv zeta in *.
  rewrite equilibrium_field_cells in * by done. rewrite Hcs in *.
  set (E := fmap (M := list) (eq_cell (1 # 3)) <$> f self) in *.
  pose proof (rest_equilibrium_field _ Hrest) as HE. fold E in HE.
  destruct (np_min_elem (flatten (flatten E))) as (v & Hmin & Hv).
  { intros Hnil. apply (f_equal length) in Hnil.
    pose proof (eq_field_shape _ _ (1 # 3) _ Hf) as [HE1 HE2]. fold E in HE1, HE2.
    assert (has_shape (width self * height self) NQ (flatten E)) as Hfl.
    { split; [by apply length_flatten|by apply Forall_join]. }
    rewrite (length_flatten _ _ _ Hfl) in Hnil. simpl in Hnil.
    change NQ with 9%nat in Hnil. nia. }
  rewrite Hmin in *.
  pose proof (rest_nonneg _ HE) as Hpos.
  eapply Forall_forall in Hpos; [|exact Hv].
  apply Qle_bool_iff in Hpos. rewrite Hpos in *.
  destruct (Qeq_bool (tau (store_moments self)) 0) eqn:Hz.
  { apply Qeq_bool_iff in Hz. rewrite store_moments_fields in Hz. done. }
  rewrite store_moments_fields in *.
  set (r := fmap (M := list) sumq <$> f self) in *.
  set (x := fmap (M := list) (cell_u c0) <$> f self) in *.
  set (y := fmap (M := list) (cell_u c1) <$> f self) in *.
  set (s1 := set_moments r x y self) in *.
  assert (Hstep : at_rest (f (fluid_step E s1))).
  { rewrite fluid_step_f. cbn [wall tau f s1 set_moments].
    assert (has_shape3 (width self) (height self)
              (collide (tau self) (f self) E)) as Hcol
      by (by apply collide_shape).
    apply (rest_bounce (width self) (height self)); [done| |].
    - by apply stream_planes.
    - by apply rest_stream, rest_collide. }
  assert (Hr : uniform 1 r) by (by apply rest_density).
  assert (Hx : uniform 0 (mask_fill (wall self) 0 x)).
  { apply mask_fill_Forall; [reflexivity|]. apply rest_velocity; auto. }
  assert (Hy : uniform 0 (mask_fill (wall self) 0 y)).
  { apply mask_fill_Forall; [reflexivity|]. apply rest_velocity; auto. }
  assert (Hinl : ∃ v1, inlet_handler it (fluid_step E s1)
                       = Ok () (set_f v1 (fluid_step E s1)) ∧ at_rest v1).
  { destruct Hin as [Hin|Hin].
    - exists (f (fluid_step E s1)). split; [|done].
      rewrite inlet_handler_no_inlet by done. by rewrite set_f_same.
    - by apply rest_inlet_handler. }
  destruct Hinl as (v1 & Hrun1 & Hv1). rewrite Hrun1 in *.
  destruct (rest_outlet_handler (width self) (height self)
              (set_f v1 (fluid_step E s1))) as (v2 & Hrun2 & Hv2);
    try done.
  - by apply fmap_shape.
  - apply mask_fill_shape; [done|by apply fmap_shape].
  - apply mask_fill_shape; [done|by apply fmap_shape].
  - rewrite Hrun2 in *. eexists. split; [done|]. cbn [final_state] in Hsh'.
    done.
Qed.

(** X5.  A fluid at rest is a steady state of the scheme.  In a model with
    the arrays of the shape of a grid of at least one cell, squared speed of
    sound 1/3, a relaxation time other than zero, in which every cell holds
    the lattice weights, and in which no fluid is blown in (no inlet cell,
    or inlet speed zero), an iteration with the default handlers passes the
    stability check and returns; afterwards every cell still holds the
    weights, the stored density is 1 and the stored velocity 0 in every
    cell.  Walls and outlet cells do not disturb the rest state. *)
Theorem rest_is_steady (self : LBM) (it : nat) :
  fluid_shapes self →
  (0 < width self)%nat → (0 < height self)%nat →
  cssq self = 1 # 3 →
  ¬ tau self == 0 →
  all_false (inlet self) ∨ u_lb self == 0 →
  at_rest (f self) →
  ∃ s', lbm_iteration inlet_handler outlet_handler it self = Ok () s'
        ∧ at_rest (f s')
        ∧ uniform 1 (rho s') ∧ uniform 0 (ux s') ∧ uniform 0 (uy s')
        ∧ fluid_shapes s'.
Proof. apply rest_iteration. Qed.

(** * Particles in still air *)

Lemma elem_of_np_where (mask : grid bool) (cell : nat * nat) :
  cell ∈ np_where mask → entry mask cell.1 cell.2 = Some true.
Proof.
  intros Hcell. unfold np_where in Hcell.
  apply list_elem_of_join in Hcell as (l & Hcell & Hl).
  apply elem_of_lookup_imap in Hl as (x & row & -> & Hrow).
  apply list_elem_of_omap in Hcell as ([y b] & Hyb & Hsome).
  apply elem_of_lookup_imap in Hyb as (y' & b' & [= -> ->] & Hb).
  simpl in Hsome. destruct b'; [|done]. injection Hsome as <-. simpl.
  unfold entry. by rewrite Hrow.
Qed.

Lemma getitem2_entry {A} (a : grid A) (x y : nat) (v : A) :
  entry a x y = Some v → getitem2 a (Z.of_nat x) (Z.of_nat y) = Some v.
Proof.
  unfold entry, getitem2. intros H.
  destruct (a !! x) as [row|] eqn:Hrow; [|done]. cbn [mbind option_bind] in H.
  pose proof (lookup_lt_Some _ _ _ Hrow) as Hx.
  pose proof (lookup_lt_Some _ _ _ H) as Hy.
  rewrite norm_index_in_range by lia. cbn [mbind option_bind].
  rewrite Nat2Z.id, Hrow. cbn [mbind option_bind].
  rewrite norm_index_in_range by lia. cbn [mbind option_bind].
  by rewrite Nat2Z.id.
Qed.

Lemma Qltb_proper (a a' b b' : Q) : a == a' → b == b' → Qltb a b = Qltb a' b'.
Proof.
  intros Ha Hb. destruct (Qltb a' b') eqn:H.
  - apply Qltb_lt. apply Qltb_lt in H. by rewrite Ha, Hb.
  - apply Qltb_ge. apply Qltb_ge in H. by rewrite Ha, Hb.
Qed.

Lemma py_round_proper (x x' : Q) : x == x' → py_round x = py_round x'.
Proof.
  intros Hx. unfold py_round. cbv zeta.
  assert (Qfloor x = Qfloor x') as Hfl by (by apply Qfloor_comp).
  rewrite Hfl.
  rewrite (Qltb_proper (x - inject_Z (Qfloor x')) (x' - inject_Z (Qfloor x'))
             (1 # 2) (1 # 2)) by (by rewrite ?Hx).
  rewrite (Qltb_proper (1 # 2) (1 # 2) (x - inject_Z (Qfloor x'))
             (x' - inject_Z (Qfloor x'))) by (by rewrite ?Hx).
  done.
Qed.

Lemma py_round_integer (z : Z) : py_round (inject_Z z) = z.
Proof.
  unfold py_round. cbv zeta. rewrite Qfloor_Z.
  assert (Qltb (inject_Z z - inject_Z z) (1 # 2) = true) as ->; [|done].
  apply Qltb_lt. lra.
Qed.

Lemma nth_uniform (a : grid Q) (i j : nat) :
  uniform 0 a → nth j (nth i a []) 0 == 0.
Proof.
  intros Ha. destruct (a !! i) as [row|] eqn:Hrow.
  - rewrite (nth_lookup_Some _ _ _ _ Hrow).
    eapply Forall_forall in Ha; [|by eapply list_elem_of_lookup_2].
    destruct (row !! j) as [v|] eqn:Hv.
    + rewrite (nth_lookup_Some _ _ _ _ Hv).
      eapply Forall_forall in Ha; [exact Ha|by eapply list_elem_of_lookup_2].
    + rewrite nth_overflow; [reflexivity|]. by apply lookup_ge_None.
  - rewrite (nth_overflow a) by (by apply lookup_ge_None). by destruct j.
Qed.

Lemma interpolate_still (n m : nat) (a : grid Q) (x y : Q) :
  uniform 0 a → in_range n x → in_range m y →
  ∃ d, interpolate n m a x y = Some d ∧ d == 0.
Proof.
  intros Ha [Hx0 Hxn] [Hy0 Hym]. unfold interpolate.
  apply Qle_bool_iff in Hx0, Hxn, Hy0, Hym.
  rewrite Hx0, Hxn, Hy0, Hym. cbn [andb]. eexists. split; [done|].
  cbv zeta. rewrite !(nth_uniform a) by done. ring.
Qed.

Lemma clamp_id (n : nat) (v x : Q) : in_range n x → v == x → clamp n v == x.
Proof.
  intros [H0 Hn] Hv. unfold clamp, py_min, py_max.
  destruct (Qltb 0 v) eqn:H1.
  - destruct (Qltb (inject_Z (Z.of_nat n) - 1) v) eqn:H2; [|done].
    apply Qltb_lt in H2. lra.
  - apply Qltb_ge in H1.
    destruct (Qltb (inject_Z (Z.of_nat n) - 1) 0) eqn:H2; [|lra].
    apply Qltb_lt in H2. lra.
Qed.

(** A parked particle is passed over. *)
Lemma quiet_step (nodes : list (Z * Z)) (I0 : grid Q) (R0 : list Q)
    (out0 : list string) (j : nat) (s : LBM) :
  quiet I0 R0 out0 s → (j < particle_nr s)%nat →
  ∃ s', particle_step nodes j s = Ok () s'
        ∧ quiet I0 R0 out0 s' ∧ fluid_part s' = fluid_part s
        ∧ particle_nr s' = particle_nr s.
Proof.
  intros Hq Hj. pose proof Hq as [Hg Hc Hsus Hout Hux Huy Hp Hex HI HR Hso].
  destruct (Hp j Hj) as (x & y & cell & Hloc & Hx & Hy & Hcell).
  pose proof (elem_of_np_where _ _ Hcell) as Hinf.
  destruct (np_where_in_range _ _ _ cell (geo_infected _ Hg) Hcell) as [Hcx Hcy].
  rewrite particle_step_run, Hloc.
  rewrite decide_False by (rewrite Hex; apply not_elem_of_empty).
  rewrite (py_round_proper _ _ Hx), (py_round_proper _ _ Hy), !py_round_integer.
  rewrite (getitem2_entry _ _ _ _ (Hsus _ _ Hinf)).
  rewrite (getitem2_entry _ _ _ _ (Hout _ _ Hinf)).
  assert (in_range (width s) x) as Hrx.
  { destruct (index_in_range _ _ Hcx). split; by rewrite Hx. }
  assert (in_range (height s) y) as Hry.
  { destruct (index_in_range _ _ Hcy). split; by rewrite Hy. }
  destruct (interpolate_still _ _ _ x y Hux Hrx Hry) as (dx & -> & Hdx).
  destruct (interpolate_still _ _ _ x y Huy Hrx Hry) as (dy & -> & Hdy).
  rewrite set_location_run
    by (pose proof (cap_locations _ Hc); pose proof (cap_nr _ Hc); lia).
  eexists. split; [done|]. split; [|done].
  split; try done.
  - by destruct Hg.
  - by destruct Hc; split; cbn; rewrite ?length_insert.
  - intros i Hi. cbn in *.
    destruct (decide (i = j)) as [->|Hne].
    + rewrite list_lookup_insert_eq
        by (pose proof (cap_locations _ Hc); pose proof (cap_nr _ Hc); lia).
      eexists _, _, cell. split; [done|]. split; [|split; [|done]].
      * rewrite <- Hx. apply clamp_id; [done|]. rewrite Hdx. ring.
      * rewrite <- Hy. apply clamp_id; [done|]. rewrite Hdy. ring.
    + rewrite list_lookup_insert_ne by done. by apply Hp.
Qed.

(** A new particle is parked on an infected cell. *)
Lemma quiet_spawn (rnd : nat → nat) (I0 : grid Q) (R0 : list Q)
    (out0 : list string) (s : LBM) :
  quiet I0 R0 out0 s →
  ∃ s', spawn rnd s = Ok () s' ∧ quiet I0 R0 out0 s'
        ∧ fluid_part s' = fluid_part s.
Proof.
  intros Hq. pose proof Hq as [Hg Hc Hsus Hout Hux Huy Hp Hex HI HR Hso].
  rewrite spawn_run. case_decide as Hlt; [|by eexists].
  unfold randint. rewrite decide_False by (by destruct Hc as [_ ? _ _ _];
    destruct (np_where (infected s))).
  destruct (lookup_lt_is_Some_2 (np_where (infected s))
              (rnd (particle_nr s) `mod` length (np_where (infected s)))%nat)
    as [cell Hcell].
  { apply Nat.mod_upper_bound. destruct Hc as [_ ? _ _ _].
    by destruct (np_where (infected s)). }
  rewrite Hcell.
  rewrite set_location_run by (pose proof (cap_locations _ Hc); lia).
  eexists. split; [done|]. split; [|done].
  split; try done.
  - by destruct Hg.
  - destruct Hc; split; cbn; rewrite ?length_insert; try done; lia.
  - intros i Hi. cbn in *.
    destruct (decide (i = particle_nr s)) as [->|Hne].
    + rewrite list_lookup_insert_eq by (pose proof (cap_locations _ Hc); lia).
      eexists _, _, cell. split; [done|]. split; [reflexivity|].
      split; [reflexivity|]. by eapply list_elem_of_lookup_2.
    + rewrite list_lookup_insert_ne by done. apply Hp. lia.
Qed.

Lemma quiet_update_particles (nodes : list (Z * Z)) (rnd : nat → nat) (it : nat)
    (I0 : grid Q) (R0 : list Q) (out0 : list string) (s : LBM) :
  quiet I0 R0 out0 s →
  ∃ s', update_particles_with nodes rnd it s = Ok () s'
        ∧ quiet I0 R0 out0 s' ∧ fluid_part s' = fluid_part s.
Proof.
  intros Hq. rewrite update_particles_with_run.
  rewrite decide_False by apply (cap_rate _ (q_capacity _ _ _ _ Hq)).
  assert (∃ s1, (if decide (it `mod` spawn_rate s = 0)%nat
                 then for_each (seq 0 (spawn_amount_at_rate s)) (λ _, spawn rnd) s
                 else Ok () s) = Ok () s1
                ∧ quiet I0 R0 out0 s1 ∧ fluid_part s1 = fluid_part s)
    as (s1 & -> & Hq1 & Hf1).
  { case_decide; [|by exists s].
    apply (for_each_returns
             (λ s', quiet I0 R0 out0 s' ∧ fluid_part s' = fluid_part s));
      [|done].
    intros _ s0 _ [Hq0 Hf0].
    destruct (quiet_spawn rnd _ _ _ s0 Hq0) as (s0' & Hrun & Hq0' & Hf0').
    exists s0'. split; [done|]. split; [done|]. congruence. }
  assert (∀ l, Forall (λ j, j < particle_nr s1)%nat l →
            ∃ s', for_each l (particle_step nodes) s1 = Ok () s'
                  ∧ (quiet I0 R0 out0 s' ∧ fluid_part s' = fluid_part s
                     ∧ particle_nr s' = particle_nr s1)) as Hloop.
  { intros l Hl.
    apply (for_each_returns
             (λ s', quiet I0 R0 out0 s' ∧ fluid_part s' = fluid_part s
                    ∧ particle_nr s' = particle_nr s1)); [|done].
    intros j s0 Hjl (Hq0 & Hf0 & Hn0).
    eapply Forall_forall in Hl; [|exact Hjl].
    destruct (quiet_step nodes _ _ _ j s0 Hq0) as (s0' & Hrun & Hq0' & Hf0' & Hn0');
      [lia|].
    exists s0'. split; [done|]. split; [done|]. split; congruence. }
  destruct (Hloop (seq 0 (particle_nr s1))) as (s' & Hrun & Hq' & Hf' & _).
  { apply Forall_forall. intros j Hj. apply elem_of_seq in Hj. lia. }
  by exists s'.
Qed.

Lemma calm_fluid_part (s s' : LBM) :
  fluid_part s' = fluid_part s → calm s → calm s'.
Proof.
  unfold fluid_part. intros [= Hw Hh Hwl Hil Hol _ _ _ Hu Hc Ht _ Hux Huy Hf].
  intros [[H1 H2 H3 H4 H5 H6] H7 H8 H9 H10 H11 H12].
  split; [split|..]; congruence.
Qed.

Lemma quiet_fluid (I0 : grid Q) (R0 : list Q) (out0 : list string)
    (r x y : grid Q) (v : grid (list Q)) (s : LBM) :
  quiet I0 R0 out0 s → uniform 0 x → uniform 0 y →
  quiet I0 R0 out0 (set_f v (set_moments r x y s)).
Proof. intros [[] [] ? ? ? ? ? ? ? ? ?] Hx Hy. by split. Qed.

(** One frame in still air. *)
Lemma still_frame (rnd : nat → nat) (it : nat)
    (I0 : grid Q) (R0 : list Q) (out0 : list string) (s : LBM) :
  calm s → quiet I0 R0 out0 s →
  ∃ s', animate inlet_handler outlet_handler true rnd it s = Ok () s'
        ∧ calm s' ∧ quiet I0 R0 out0 s'.
Proof.
  intros [Hsh Hw Hh Hcs Htau Hin Hrest] Hq.
  destruct (rest_iteration s it Hsh Hw Hh Hcs Htau Hin Hrest)
    as (s1 & Hrun & Hrest1 & _ & Hux1 & Huy1 & Hsh1).
  destruct (iteration_shapes s it Hsh) as (_ & _ & r & x & y & v & Hs1).
  rewrite Hrun in Hs1. cbn [final_state] in Hs1.
  assert (calm s1) as Hcalm1.
  { split; try done; rewrite Hs1; done. }
  assert (quiet I0 R0 out0 s1) as Hq1.
  { rewrite Hs1 in Hux1, Huy1 |- *. by apply quiet_fluid. }
  unfold animate, mbind, M_bind. rewrite Hrun.
  destruct (quiet_update_particles susceptible_centroids rnd it _ _ _ s1 Hq1)
    as (s2 & Hrun2 & Hq2 & Hf2).
  unfold update_particles. rewrite Hrun2. exists s2.
  split; [done|]. split; [|done]. by apply (calm_fluid_part s1).
Qed.

(** * A run without inflow *)

Lemma calm_frame (particles : bool) (rnd : nat → nat) (it : nat) (s : LBM) :
  calm s →
  calm (final_state (animate inlet_handler outlet_handler particles rnd it s))
  ∧ (particles = false →
     ∃ s', animate inlet_handler outlet_handler particles rnd it s = Ok () s').
Proof.
  intros Hc. pose proof Hc as [Hsh Hw Hh Hcs Htau Hin Hrest].
  destruct (rest_iteration s it Hsh Hw Hh Hcs Htau Hin Hrest)
    as (s1 & Hrun & Hrest1 & _ & _ & _ & Hsh1).
  destruct (iteration_shapes s it Hsh) as (_ & _ & r & x & y & v & Hs1).
  rewrite Hrun in Hs1. cbn [final_state] in Hs1.
  assert (calm s1) as Hcalm1.
  { split; try done; rewrite Hs1; done. }
  unfold animate. rewrite final_state_bind. unfold mbind, M_bind. rewrite Hrun.
  split.
  - destruct particles; [|done].
    apply (calm_fluid_part s1); [|done]. apply particles_keep_fluid.
  - intros ->. by eexists.
Qed.

(** X6.  Without inflow, a fluid at rest stays at rest for a whole run.  In
    a well-shaped model of at least one cell, with squared speed of sound
    1/3, a relaxation time other than zero, every cell at rest, and no
    inlet cell (or inlet speed zero), the loop of [render] over any number
    of iterations leaves every cell at rest and the model well-shaped,
    with or without particles and whether or not the tracker raises; and
    without particles it runs to its end: no iteration trips the stability
    check. *)
Theorem render_loop_stays_at_rest (self : LBM) (particles : bool)
    (rnd : nat → nat) (iterations : nat) :
  calm self →
  let run := render_loop inlet_handler outlet_handler particles rnd iterations self in
  calm (final_state run)
  ∧ at_rest (f (final_state run))
  ∧ (particles = false → ∃ s', run = Ok () s').
Proof.
  intros Hc run. subst run. unfold render_loop.
  assert (calm (final_state
            (for_each (seq 0 iterations)
               (animate inlet_handler outlet_handler particles rnd) self))) as Hfin.
  { apply (for_each_keeps calm); [|done].
    intros it s _ Hs. by apply calm_frame. }
  split; [done|]. split; [by destruct Hfin|].
  intros ->.
  destruct (for_each_returns calm (seq 0 iterations)
              (animate inlet_handler outlet_handler false rnd)) with (s := self)
    as (s' & Hrun & _); [|done|by exists s'].
  intros it s _ Hs. destruct (calm_frame false rnd it s Hs) as [Hc' Hret].
  destruct (Hret eq_refl) as [s' Hrun]. rewrite Hrun in Hc'. by exists s'.
Qed.

(** X7.  In a room without ventilation nobody is infected.  Take the model
    that [__init__] builds for a size of at least 2, masks of the shape of
    the grid, either initialisation, no inlet cell, at least one infected
    cell, and no infected cell that is susceptible or an outlet, with the
    tables that [render] sets up.  Then the loop of [render] over any
    number of iterations, with particles and for any random draws, runs to
    its end without an exception; the fluid is at rest all along; every
    particle is still on the infected cell it was spawned at; no particle
    is terminal; and every infection counter and every removed counter is
    still zero. *)
Theorem no_ventilation_no_infection (size : nat) (scale : Q)
    (wall inlet outlet infected susceptible : grid bool) (init : init_kind)
    (rnd : nat → nat) (iterations : nat) :
  (2 ≤ size)%nat →
  valid_init init →
  has_shape size size wall → has_shape size size inlet →
  has_shape size size outlet → has_shape size size infected →
  has_shape size size susceptible →
  all_false inlet →
  np_where infected ≠ [] →
  clear_of infected susceptible →
  clear_of infected outlet →
  ∃ s0 s',
    new_LBM size scale wall inlet outlet infected susceptible init = inr s0
    ∧ render_loop inlet_handler outlet_handler true rnd iterations (render_init s0)
      = Ok () s'
    ∧ at_rest (f s')
    ∧ parked s'
    ∧ particles_exited s' = ∅
    ∧ infections s' = zeros NUM_SUSCEP_CENTROIDS ITERATIONS
    ∧ removed s' = replicate ITERATIONS 0.
Proof.
  intros Hs Hinit Hw Hi Ho Hinf Hsus Hin Hsrc Hcs Hco.
  destruct (new_LBM_built size scale wall inlet outlet infected susceptible init)
    as (u & t & Ht & Hnew); [lia|done|].
  eexists. rewrite Hnew.
  set (s0 := mkLBM _ _ _ _ _ _ _ _ _ _ _ _ _ _ _ _ _ _ _ _ _ _ _ _).
  assert (calm (render_init s0)) as Hcalm.
  { split; cbn; try done; try lia.
    - split; cbn; try done; try apply replicate_shape.
      apply rest_populations_shape.
    - lra.
    - by left.
    - apply rest_populations_rest. }
  assert (quiet (zeros NUM_SUSCEP_CENTROIDS ITERATIONS) (replicate ITERATIONS 0) []
            (render_init s0)) as Hquiet.
  { split; cbn; try done.
    - split; cbn; try done; lia.
    - split; cbn; try done; rewrite ?length_replicate; lia.
    - by apply Forall_replicate, Forall_replicate.
    - by apply Forall_replicate, Forall_replicate.
    - intros i Hi0. cbn in Hi0. lia. }
  destruct (for_each_returns
              (λ s, calm s
                    ∧ quiet (zeros NUM_SUSCEP_CENTROIDS ITERATIONS)
                        (replicate ITERATIONS 0) [] s)
              (seq 0 iterations)
              (animate inlet_handler outlet_handler true rnd))
    with (s := render_init s0) as (s' & Hrun & Hc' & Hq'); [|done|].
  { intros it s _ [Hc1 Hq1].
    destruct (still_frame rnd it _ _ _ s Hc1 Hq1) as (s1 & ? & ? & ?).
    by exists s1. }
  exists s'. split; [done|]. split; [exact Hrun|].
  destruct Hc', Hq'. done.
Qed.

(** * The ledger of the tracker *)

Lemma sumq_insert (l : list Q) (k : nat) (old x : Q) :
  l !! k = Some old → sumq (<[k := x]> l) == sumq l + (x - old).
Proof.
  revert k. induction l as [|a l IH]; intros [|k] Hk; try done.
  - injection Hk as ->. simpl. ring.
  - simpl in *. rewrite (IH k Hk). ring.
Qed.

Lemma tally_bump2 (a a' : grid Q) (k i : nat) :
  bump2 a k i = Some a' → sumq (sumq <$> a') == sumq (sumq <$> a) + 1.
Proof.
  unfold bump2. intros Hb.
  destruct (a !! k) as [row|] eqn:Hrow; [|done]. cbn [mbind option_bind] in Hb.
  destruct (row !! i) as [v|] eqn:Hv; [|done]. injection Hb as <-.
  rewrite list_fmap_insert.
  rewrite (sumq_insert _ k (sumq row)) by (by rewrite list_lookup_fmap, Hrow).
  rewrite (sumq_bump row i v Hv). ring.
Qed.

Lemma tally_bump (a a' : list Q) (i : nat) :
  bump a i = Some a' → sumq a' == sumq a + 1.
Proof.
  unfold bump. intros Hb. destruct (a !! i) as [v|] eqn:Hv; [|done].
  injection Hb as <-. by apply sumq_bump.
Qed.

Lemma recorded_counts (nodes : list (Z * Z)) (m i : nat) (x y : Q) (s : LBM) :
  nodes ≠ [] → has_shape (length nodes) m (infections s) → (i < m)%nat →
  ∃ table, recorded nodes i x y s = set_infections table s
           ∧ has_shape (length nodes) m table
           ∧ sumq (sumq <$> table) == sumq (sumq <$> infections s) + 1.
Proof.
  intros Hnodes Hsh Hi.
  destruct (np_argmin_min_spec (dist_2 nodes (py_int x, py_int y)))
    as (closest & d & Harg & _ & Hmin).
  { unfold dist_2. by destruct nodes. }
  assert (Hc : (closest < length nodes)%nat).
  { destruct Hmin as [Hd _]. apply lookup_lt_Some in Hd.
    unfold dist_2 in Hd. by rewrite length_fmap in Hd. }
  destruct (lookup_lt_is_Some_2 (infections s) closest) as [crow Hcrow].
  { destruct Hsh as [-> _]. done. }
  pose proof (has_shape_lookup _ _ _ _ _ Hsh Hcrow) as Hlen.
  destruct (lookup_lt_is_Some_2 crow i) as [v Hv]; [lia|].
  assert (Hb : bump2 (infections s) closest i
               = Some (<[closest := <[i := v + 1]> crow]> (infections s))).
  { unfold bump2. rewrite Hcrow. cbn [mbind option_bind]. by rewrite Hv. }
  eexists. split; [|split].
  - unfold recorded. by rewrite Harg, Hb.
  - by eapply bump2_shape.
  - by eapply tally_bump2.
Qed.

Lemma balanced_set_location (nodes : list (Z * Z)) (m : nat) (c : Q)
    (out0 : list string) (j : nat) (p : Q * Q) (s : LBM) :
  balanced nodes m c out0 s →
  balanced nodes m c out0 (final_state (set_location j p s))
  ∧ particle_nr (final_state (set_location j p s)) = particle_nr s
  ∧ particles_exited (final_state (set_location j p s)) = particles_exited s.
Proof. intros [? ? ? ? ? ?]. unfold set_location. by case_decide. Qed.

Lemma balanced_exit (nodes : list (Z * Z)) (m : nat) (c : Q)
    (out0 : list string) (j : nat) (s s2 : LBM) :
  balanced nodes m c out0 s → j ∉ particles_exited s →
  particles_exited s2 = {[j]} ∪ particles_exited s →
  has_shape (length nodes) m (infections s2) →
  particle_nr s2 = particle_nr s → num_particles s2 = num_particles s →
  stdout s2 = stdout s →
  tally s2 == tally s + 1 →
  balanced nodes m c out0 s2.
Proof.
  intros [Hn Ht Hnr Hroom Htal Hout] Hact Hex Hsh Hp Hnum Hso Hsum.
  split; try done; try congruence.
  assert (exits s2 == exits s + 1) as ->; [|lra].
  unfold exits. rewrite Hex.
  rewrite size_union by (by apply disjoint_singleton_l).
  rewrite size_singleton. rewrite Nat2Z.inj_add, inject_Z_plus.
  change (inject_Z (Z.of_nat 1)) with 1. ring.
Qed.

Lemma balanced_step (nodes : list (Z * Z)) (m : nat) (c : Q) (out0 : list string)
    (j : nat) (s : LBM) :
  balanced nodes m c out0 s → (j < particle_nr s)%nat →
  balanced nodes m c out0 (final_state (particle_step nodes j s))
  ∧ particle_nr (final_state (particle_step nodes j s)) = particle_nr s
  ∧ particles_exited s ⊆ particles_exited (final_state (particle_step nodes j s)).
Proof.
  intros Hb Hj. pose proof Hb as [Hn Ht Hnr Hroom Htal Hout].
  rewrite particle_step_run.
  destruct (particle_locations s !! j) as [[x y]|]; [|done].
  destruct (decide (j ∈ particles_exited s)) as [|Hact]; [done|].
  destruct (getitem2 (susceptible s) _ _) as [[|]|]; [| |done].
  - destruct (recorded_counts nodes m j x y s) as (table & -> & Hsh & Hsum);
      [done|done|lia|].
    assert (balanced nodes m c out0 (mark_exited j (set_infections table s))) as Hb'.
    { apply (balanced_exit nodes m c out0 j s); try done.
      unfold tally, mark_exited.
      cbn [infections removed set_infections set_particles_exited set_removed].
      rewrite Hsum. ring. }
    destruct (balanced_set_location nodes m c out0 j (0, 0) _ Hb') as (? & -> & ->).
    split; [done|]. split; [done|]. cbn. apply union_subseteq_r.
  - destruct (getitem2 (outlet s) _ _) as [[|]|]; [| |done].
    + destruct (bump (removed s) j) as [counts|] eqn:Hcounts; [|done].
      pose proof (tally_bump _ _ _ Hcounts) as Hsum.
      assert (balanced nodes m c out0 (mark_exited j (set_removed counts s))) as Hb'.
      { apply (balanced_exit nodes m c out0 j s); try done.
        unfold tally, mark_exited.
      cbn [infections removed set_infections set_particles_exited set_removed].
      rewrite Hsum. ring. }
      destruct (balanced_set_location nodes m c out0 j (0, 0) _ Hb') as (? & -> & ->).
      split; [done|]. split; [done|]. cbn. apply union_subseteq_r.
    + destruct (interpolate _ _ (ux s) x y) as [dx|]; [|done].
      destruct (interpolate _ _ (uy s) x y) as [dy|]; [|done].
      destruct (balanced_set_location nodes m c out0 j
                  (clamp (width s) (x + map_scaling_factor s * dx),
                   clamp (height s) (y + map_scaling_factor s * dy)) _ Hb)
        as (? & -> & ->).
      done.
Qed.

Lemma balanced_spawn (nodes : list (Z * Z)) (m : nat) (c : Q) (out0 : list string)
    (rnd : nat → nat) (s : LBM) :
  balanced nodes m c out0 s →
  balanced nodes m c out0 (final_state (spawn rnd s))
  ∧ particles_exited s ⊆ particles_exited (final_state (spawn rnd s)).
Proof.
  intros Hb. pose proof Hb as [Hn Ht Hnr Hroom Htal Hout].
  rewrite spawn_run. case_decide as Hlt; [|done].
  destruct (randint _ _ _) as [idx|]; [|done].
  destruct (np_where (infected s) !! idx) as [cell|]; [|done].
  unfold set_location. case_decide; [|done]. cbn [final_state].
  split; [|done]. split; try done. cbn. lia.
Qed.

Lemma balanced_update (nodes : list (Z * Z)) (m : nat) (c : Q) (out0 : list string)
    (rnd : nat → nat) (it : nat) (s : LBM) :
  balanced nodes m c out0 s →
  balanced nodes m c out0 (final_state (update_particles_with nodes rnd it s))
  ∧ particles_exited s
    ⊆ particles_exited (final_state (update_particles_with nodes rnd it s)).
Proof.
  intros Hb. rewrite update_particles_with_run.
  destruct (decide (spawn_rate s = 0)%nat); [done|].
  set (P := λ s' : LBM, balanced nodes m c out0 s'
                        ∧ particles_exited s ⊆ particles_exited s').
  assert (Hsp : P (final_state
            (if decide (it `mod` spawn_rate s = 0)%nat
             then for_each (seq 0 (spawn_amount_at_rate s)) (λ _, spawn rnd) s
             else Ok () s))).
  { destruct (decide (it `mod` spawn_rate s = 0)%nat); [|done].
    apply (for_each_keeps P); [|done]. intros _ s' _ [Hb' Hsub].
    destruct (balanced_spawn nodes m c out0 rnd s' Hb') as [? ?].
    split; [done|]. by transitivity (particles_exited s'). }
  destruct (if decide (it `mod` spawn_rate s = 0)%nat then _ else _)
    as [[] s1|e s1]; cbn [final_state] in Hsp; [|done].
  change (P (final_state (for_each (seq 0 (particle_nr s1)) (particle_step nodes) s1))).
  assert (P (final_state (for_each (seq 0 (particle_nr s1)) (particle_step nodes) s1))
          ∧ particle_nr (final_state
              (for_each (seq 0 (particle_nr s1)) (particle_step nodes) s1))
            = particle_nr s1) as [? _]; [|done].
  apply (for_each_keeps (λ s', P s' ∧ particle_nr s' = particle_nr s1)); [|done].
  intros j s' Hj%elem_of_seq [[Hb' Hsub] Hnr'].
  destruct (balanced_step nodes m c out0 j s' Hb') as (? & ? & ?); [lia|].
  split; [split; [done|by transitivity (particles_exited s')]|congruence].
Qed.

(** X8.  Every exit is counted exactly once.  With a non-empty table of
    centroids, an infection counter under every centroid for every
    particle that can be spawned, and no more particles spawned than
    allowed (as [render] sets the model up), any sequence of calls of
    [update_particles], returning or raising, adds to the counters (all
    infection counters and all removed counters together) exactly the
    number of particles that have become terminal; no terminal particle
    becomes active again; and the swallowed-exception line is never
    printed. *)
Theorem every_exit_is_counted_once (nodes : list (Z * Z))
    (calls : list ((nat → nat) * nat)) (m : nat) (self : LBM) :
  nodes ≠ [] →
  has_shape (length nodes) m (infections self) →
  (particle_nr self ≤ num_particles self)%nat →
  (num_particles self ≤ m)%nat →
  let s' := run_calls nodes calls self in
  tally s' - tally self == exits s' - exits self
  ∧ particles_exited self ⊆ particles_exited s'
  ∧ stdout s' = stdout self.
Proof.
  intros Hn Ht Hnr Hroom s'. subst s'.
  assert (balanced nodes m (tally self - exits self) (stdout self) self) as Hb
    by (by split).
  assert (balanced nodes m (tally self - exits self) (stdout self)
            (run_calls nodes calls self)
          ∧ particles_exited self ⊆ particles_exited (run_calls nodes calls self))
    as [[_ _ _ _ Htal Hout] Hsub].
  { generalize (tally self - exits self) (stdout self) Hb. clear.
    revert self. induction calls as [|[rnd it] calls IH]; intros s c out0 Hb;
      [done|].
    cbn [run_calls].
    destruct (balanced_update nodes m c out0 rnd it s Hb) as [Hb1 Hsub1].
    destruct (IH _ c out0 Hb1) as [Hb2 Hsub2]. split; [done|].
    etrans; [exact Hsub1|exact Hsub2]. }
  split; [lra|]. done.
Qed.

(** * Leaving through an outlet *)

(** X9.  When the loop of [update_particles] reaches an active particle whose
    rounded position is an outlet cell and not a susceptible one, and the
    particle has a removed counter, it adds 1 to the removed counter of
    that particle (the counters are indexed by the particle, not by the
    iteration) and to no other counter, leaves the infection counters as
    they are, marks the particle terminal and resets its position, without
    advecting it and without printing. *)
Theorem outlet_exit_spec (nodes : list (Z * Z)) (i : nat) (self : LBM)
    (x y v : Q) :
  particle_locations self !! i = Some (x, y) →
  i ∉ particles_exited self →
  getitem2 (susceptible self) (py_round x) (py_round y) = Some false →
  getitem2 (outlet self) (py_round x) (py_round y) = Some true →
  removed self !! i = Some v →
  ∃ s',
    particle_step nodes i self = Ok () s'
    ∧ removed s' = <[i := v + 1]> (removed self)
    ∧ sumq (removed s') == sumq (removed self) + 1
    ∧ infections s' = infections self
    ∧ particles_exited s' = {[i]} ∪ particles_exited self
    ∧ particle_locations s' = <[i := (0, 0)]> (particle_locations self)
    ∧ particle_nr s' = particle_nr self
    ∧ stdout s' = stdout self.
Proof.
  intros Hloc Hact Hsus Hout Hv.
  rewrite particle_step_run, Hloc, decide_False, Hsus, Hout by done.
  unfold bump. rewrite Hv. cbn [mbind option_bind].
  rewrite set_location_run by (cbn; by eapply lookup_lt_Some).
  eexists. split; [done|]. cbn. split; [done|]. split; [|done].
  by apply sumq_bump.
Qed.

(** * Spawning *)

Lemma np_where_all_false (mask : grid bool) : all_false mask → np_where mask = [].
Proof.
  intros Hm. destruct (np_where mask) as [|cell l] eqn:Hw; [done|].
  assert (cell ∈ np_where mask) as Hcell by (rewrite Hw; left).
  apply elem_of_np_where in Hcell. unfold entry in Hcell.
  destruct (mask !! cell.1) as [row|] eqn:Hrow; [|done].
  cbn [mbind option_bind] in Hcell.
  eapply Forall_forall in Hm; [|by eapply list_elem_of_lookup_2].
  eapply Forall_forall in Hm; [|by eapply list_elem_of_lookup_2]. done.
Qed.

(** X10.  A particle is spawned on an infected cell.  While fewer particles
    than allowed have been spawned, with a position stored for the next
    one and at least one infected cell, the body of the spawn loop returns:
    it stores for the new particle the integer coordinates of an infected
    cell, counts it, and touches no other particle, no counter and no
    terminal mark. *)
Theorem spawn_on_infected_cell (rnd : nat → nat) (self : LBM) :
  (particle_nr self < num_particles self)%nat →
  (particle_nr self < length (particle_locations self))%nat →
  np_where (infected self) ≠ [] →
  ∃ x y s',
    spawn rnd self = Ok () s'
    ∧ entry (infected self) x y = Some true
    ∧ particle_locations s'
      = <[particle_nr self := (inject_Z (Z.of_nat x), inject_Z (Z.of_nat y))]>
          (particle_locations self)
    ∧ particle_nr s' = S (particle_nr self)
    ∧ particles_exited s' = particles_exited self
    ∧ infections s' = infections self
    ∧ removed s' = removed self
    ∧ fluid_part s' = fluid_part self.
Proof.
  intros Hlt Hlen Hsrc. rewrite spawn_run, decide_True by done.
  unfold randint. rewrite decide_False by (by destruct (np_where (infected self))).
  destruct (lookup_lt_is_Some_2 (np_where (infected self))
              (rnd (particle_nr self) `mod` length (np_where (infected self)))%nat)
    as [cell Hcell].
  { apply Nat.mod_upper_bound. by destruct (np_where (infected self)). }
  rewrite Hcell, set_location_run by done.
  exists cell.1, cell.2. eexists. split; [done|]. split.
  { apply elem_of_np_where. by eapply list_elem_of_lookup_2. }
  cbn. repeat split; try done. lia.
Qed.

(** X11.  A map without an infected cell stops the tracker.  In a model none
    of whose cells is infected, a call of [update_particles] at an
    iteration where a particle is due (a multiple of the spawn rate, at
    least one particle per spawn, fewer particles than allowed) raises
    [ValueError], from the random draw among zero cells, and leaves the
    model as it was. *)
Theorem no_source_raises (nodes : list (Z * Z)) (rnd : nat → nat) (it : nat)
    (self : LBM) :
  all_false (infected self) →
  spawn_rate self ≠ 0%nat →
  (it `mod` spawn_rate self = 0)%nat →
  (0 < spawn_amount_at_rate self)%nat →
  (particle_nr self < num_particles self)%nat →
  update_particles_with nodes rnd it self = Raise ValueError self.
Proof.
  intros Hinf Hrate Hit Hamount Hlt.
  rewrite update_particles_with_run, decide_False, decide_True by done.
  destruct (spawn_amount_at_rate self) as [|k]; [lia|].
  cbn [seq]. rewrite for_each_cons, spawn_run, decide_True by done.
  by rewrite (np_where_all_false _ Hinf).
Qed.

(** The spawn loop counts up to the number of particles allowed. *)
Lemma spawn_loop_count (rnd : nat → nat) (a k : nat) (s : LBM) :
  tracked s → capacity s →
  ∃ s', for_each (seq a k) (λ _, spawn rnd) s = Ok () s'
        ∧ tracked s' ∧ capacity s'
        ∧ particle_nr s' = Nat.min (particle_nr s + k) (num_particles s)
        ∧ num_particles s' = num_particles s.
Proof.
  revert a s. induction k as [|k IH]; intros a s Ht Hc.
  - exists s. pose proof (cap_nr _ Hc).
    split; [done|]. split; [done|]. split; [done|]. split; [lia|done].
  - cbn [seq]. rewrite for_each_cons.
    destruct (spawn_returns rnd s Ht Hc) as (s1 & Hrun & Hc1).
    pose proof (tracked_spawn rnd s Ht) as Ht1.
    assert (particle_nr s1
            = (if decide (particle_nr s < num_particles s)%nat
               then S (particle_nr s) else particle_nr s)
            ∧ num_particles s1 = num_particles s) as [Hnr Hnum].
    { rewrite spawn_run in Hrun. case_decide.
      - destruct (randint _ _ _); [|done].
        destruct (np_where (infected s) !! _); [|done].
        unfold set_location in Hrun. case_decide; [|done].
        injection Hrun as <-. cbn. split; [lia|done].
      - by injection Hrun as <-. }
    rewrite Hrun in *. cbn [final_state] in Ht1.
    destruct (IH (S a) s1 Ht1 Hc1) as (s' & Hrun' & Ht' & Hc' & Hnr' & Hnum').
    exists s'. split; [done|]. split; [done|]. split; [done|].
    pose proof (cap_nr _ Hc). split; [|congruence].
    rewrite Hnr', Hnum, Hnr. case_decide; lia.
Qed.

(** X12.  The cadence and the cap of spawning.  In a model whose tracker is
    set up (grid and masks of one shape, positions inside the grid, room
    for every particle), a call of [update_particles] returns; at an
    iteration that is a multiple of the spawn rate it has spawned
    [spawn_amount_at_rate] particles, or as many as were left before the
    cap [num_particles]; at any other iteration it has spawned none. *)
Theorem spawn_cadence (nodes : list (Z * Z)) (rnd : nat → nat) (it : nat)
    (self : LBM) :
  geometry self →
  positions_in_bounds self →
  capacity self →
  ∃ s',
    update_particles_with nodes rnd it self = Ok () s'
    ∧ particle_nr s'
      = (if decide (it `mod` spawn_rate self = 0)%nat
         then Nat.min (particle_nr self + spawn_amount_at_rate self)
                (num_particles self)
         else particle_nr self)
    ∧ (particle_nr s' ≤ num_particles s')%nat.
Proof.
  intros Hg Hb Hc. rewrite update_particles_with_run.
  rewrite decide_False by apply (cap_rate _ Hc).
  set (target := if decide (it `mod` spawn_rate self = 0)%nat
                 then Nat.min (particle_nr self + spawn_amount_at_rate self)
                        (num_particles self)
                 else particle_nr self).
  assert (∃ s1, (if decide (it `mod` spawn_rate self = 0)%nat
                 then for_each (seq 0 (spawn_amount_at_rate self)) (λ _, spawn rnd) self
                 else Ok () self) = Ok () s1
                ∧ tracked s1 ∧ capacity s1 ∧ particle_nr s1 = target)
    as (s1 & -> & Ht1 & Hc1 & Hn1).
  { unfold target. case_decide; [|by exists self].
    destruct (spawn_loop_count rnd 0 (spawn_amount_at_rate self) self)
      as (s1 & ? & ? & ? & ? & ?); [done..|]. by exists s1. }
  destruct (for_each_returns
              (λ s, tracked s ∧ capacity s ∧ particle_nr s = particle_nr s1)
              (seq 0 (particle_nr s1)) (particle_step nodes))
    with (s := s1) as (s' & Hrun & Ht' & Hc' & Hn'); [|done|].
  { intros j s0 Hj%elem_of_seq (Ht0 & Hc0 & Hn0).
    destruct (step_returns nodes j s0 Ht0 Hc0) as [s0' Hrun]; [lia|].
    pose proof (tracked_step nodes j s0 Ht0) as Ht0'.
    destruct (capacity_step nodes j s0 Hc0) as [Hc0' Hnr'].
    rewrite Hrun in Ht0', Hc0', Hnr'. cbn [final_state] in *.
    exists s0'. split; [done|]. split; [done|]. split; [done|]. lia. }
  exists s'. split; [done|]. split; [congruence|]. apply (cap_nr _ Hc').
Qed.

(** * The moments of the equilibrium *)

Lemma f_eq_entry_momentum (r x y : Q) :
  momentum c0 ((λ i, f_eq_entry (1 # 3) i r x y) <$> seq 0 9) == r * x
  ∧ momentum c1 ((λ i, f_eq_entry (1 # 3) i r x y) <$> seq 0 9) == r * y.
Proof.
  unfold momentum. change NQ with 9%nat.
  cbn [seq fmap list_fmap zip_with sumq foldr]. rewrite !f_eq_entry_third.
  unfold w_, c0, c1. cbn [nth w c fst snd].
  unfold inject_Z. split; field.
Qed.

Lemma cell_u_momentum (k : nat → Q) (cell : list Q) :
  cell_u k cell = momentum k cell / sumq cell.
Proof. reflexivity. Qed.

(** X13.  The moments of the equilibrium are the moments it was built from.
    With the squared speed of sound 1/3, the populations that
    [get_equilibrium] computes for a cell of density [r], other than zero,
    and velocity [(x, y)], of any size, have under [moment_update] the
    density [r] and the velocity [(x, y)] again. *)
Theorem equilibrium_moments (self : LBM) (n : nat) (rho ux uy : operand)
    (f_eq : grid Q) (k : nat) (r x y : Q) :
  cssq self = 1 # 3 →
  get_equilibrium self n rho ux uy = Some f_eq →
  operand_at n rho k = Some r →
  operand_at n ux k = Some x →
  operand_at n uy k = Some y →
  ¬ r == 0 →
  ∃ row r' x' y',
    f_eq !! k = Some row
    ∧ moment_update [[row]] = ([[r']], [[x']], [[y']])
    ∧ r' == r ∧ x' == x ∧ y' == y.
Proof.
  intros Hcs Hfe Hr Hx Hy Hnz.
  rewrite get_equilibrium_rows in Hfe. unfold operand_at in *.
  destruct (broadcast n rho) as [rs|]; [|done].
  destruct (broadcast n ux) as [xs|]; [|done].
  destruct (broadcast n uy) as [ys|]; [|done].
  cbn [mbind option_bind] in *. injection Hfe as <-.
  set (row := (λ i, f_eq_entry (1 # 3) i r x y) <$> seq 0 9).
  exists row, (sumq row), (cell_u c0 row), (cell_u c1 row).
  split; [|split].
  - unfold f_eq_rows. by rewrite lookup_zip3_with, Hr, Hx, Hy, Hcs.
  - by rewrite moment_update_cells.
  - pose proof (f_eq_entry_sum r x y) as Hs. fold row in Hs.
    destruct (f_eq_entry_momentum r x y) as [H0 H1]. fold row in H0, H1.
    rewrite !cell_u_momentum, H0, H1, Hs.
    split; [reflexivity|]. split; field; done.
Qed.

(** * Collision *)

Lemma momentum_collide (k : nat → Q) (t : Q) (cell e : list Q) :
  length cell = length e →
  momentum k (zip_with (λ x v, x * (1 - (1 / t)) + (1 / t) * v) cell e)
  == momentum k cell * (1 - (1 / t)) + (1 / t) * momentum k e.
Proof.
  unfold momentum. generalize (k <$> seq 0 NQ) as ks. intros ks. revert cell e.
  induction ks as [|a ks IH]; intros [|x cell] [|v e] Hlen; try done;
    try (simpl; ring).
  injection Hlen as Hlen. cbn [zip_with sumq foldr].
  fold (sumq (zip_with Qmult ks
                (zip_with (λ x v, x * (1 - (1 / t)) + (1 / t) * v) cell e))).
  fold (sumq (zip_with Qmult ks cell)). fold (sumq (zip_with Qmult ks e)).
  rewrite (IH cell e Hlen). ring.
Qed.

Lemma momentum_eq_cell (cell : list Q) :
  ¬ sumq cell == 0 →
  momentum c0 (eq_cell (1 # 3) cell) == momentum c0 cell
  ∧ momentum c1 (eq_cell (1 # 3) cell) == momentum c1 cell.
Proof.
  intros Hnz. unfold eq_cell.
  destruct (f_eq_entry_momentum (sumq cell) (cell_u c0 cell) (cell_u c1 cell))
    as [H0 H1].
  change NQ with 9%nat. rewrite H0, H1, !cell_u_momentum.
  split; field; done.
Qed.

Lemma collide_cell_moments (t : Q) (cell : list Q) :
  length cell = NQ → ¬ sumq cell == 0 →
  let cell' := zip_with (λ x e, x * (1 - (1 / t)) + (1 / t) * e) cell
                 (eq_cell (1 # 3) cell) in
  sumq cell' == sumq cell
  ∧ cell_u c0 cell' == cell_u c0 cell
  ∧ cell_u c1 cell' == cell_u c1 cell.
Proof.
  intros Hlen Hnz cell'.
  assert (sumq cell' == sumq cell) as Hs.
  { apply sumq_collide; [by rewrite length_eq_cell|apply sumq_eq_cell]. }
  destruct (momentum_eq_cell cell Hnz) as [H0 H1].
  assert (∀ k, momentum k (eq_cell (1 # 3) cell) == momentum k cell →
            momentum k cell' == momentum k cell) as Hm.
  { intros k Hk. unfold cell'.
    rewrite momentum_collide by (by rewrite length_eq_cell).
    rewrite Hk. set (a := 1 / t). ring. }
  split; [done|]. rewrite !cell_u_momentum.
  by rewrite Hs, (Hm c0 H0), (Hm c1 H1).
Qed.

(** X14.  The collision conserves mass and momentum in every cell.  In a
    well-shaped model with the squared speed of sound 1/3, a relaxation
    time other than zero and no cell of density zero, relaxing the
    populations to the equilibrium of their own moments (the collision of
    [lbm_iteration]) changes the density and the velocity that
    [moment_update] computes in no cell. *)
Theorem collision_conserves_moments (self : LBM) :
  has_shape3 (width self) (height self) (f self) →
  cssq self = 1 # 3 →
  ¬ tau self == 0 →
  Forall (Forall (λ cell, ¬ sumq cell == 0)) (f self) →
  ∃ f_eq,
    equilibrium_field (store_moments self) = Some f_eq
    ∧ grid_eq (moment_update (collide (tau self) (f self) f_eq)).1.1
        (moment_update (f self)).1.1
    ∧ grid_eq (moment_update (collide (tau self) (f self) f_eq)).1.2
        (moment_update (f self)).1.2
    ∧ grid_eq (moment_update (collide (tau self) (f self) f_eq)).2
        (moment_update (f self)).2.
Proof.
  intros [Hf Hc] Hcs _ Hnz. eexists. split; [by apply equilibrium_field_cells|].
  rewrite Hcs, collide_cells, !moment_update_cells. cbn [fst snd].
  assert (∀ g : list Q → Q,
            (∀ cell, length cell = NQ → ¬ sumq cell == 0 →
               g (zip_with (λ x e, x * (1 - (1 / tau self)) + (1 / tau self) * e)
                    cell (eq_cell (1 # 3) cell)) == g cell) →
            grid_eq
              (fmap (M := list) g
               <$> (fmap (M := list)
                      (λ cell, zip_with
                         (λ x e, x * (1 - (1 / tau self)) + (1 / tau self) * e)
                         cell (eq_cell (1 # 3) cell)) <$> f self))
              (fmap (M := list) g <$> f self)) as Hall.
  { intros g Hg. unfold grid_eq. rewrite <- list_fmap_compose.
    apply Forall2_fmap, Forall_Forall2_diag.
    apply Forall_forall. intros row Hrow. simpl.
    rewrite <- list_fmap_compose. apply Forall2_fmap, Forall_Forall2_diag.
    apply Forall_forall. intros cell Hcell. simpl.
    apply Hg.
    - eapply Forall_forall in Hc; [|exact Hrow].
      eapply Forall_forall in Hc; [exact Hc|exact Hcell].
    - eapply Forall_forall in Hnz; [|exact Hrow].
      eapply Forall_forall in Hnz; [exact Hnz|exact Hcell]. }
  split; [|split]; apply Hall; intros cell Hlen Hcell;
    by apply collide_cell_moments.
Qed.

(** * Bounce-back, twice *)

Lemma reflect_reflect (cell : list Q) :
  length cell = NQ → reflect (reflect cell) = cell.
Proof.
  intros Hlen. do 9 (destruct cell as [|? cell]; [done|]).
  by destruct cell.
Qed.

Lemma reflect_mask_twice (wall : grid bool) (g : grid (list Q)) :
  Forall2 (λ mr row, length mr = length row) wall g →
  Forall cells9 g →
  zip_with (zip_with (λ (b : bool) cell, if b then reflect cell else cell)) wall
    (zip_with (zip_with (λ (b : bool) cell, if b then reflect cell else cell)) wall g)
  = g.
Proof.
  intros Hs. induction Hs as [|mr row wall g Hlen _ IH]; intros Hc; [done|].
  apply Forall_cons in Hc as [Hrow Hc]. cbn [zip_with]. f_equal; [|by apply IH].
  clear -Hrow Hlen. revert mr Hlen.
  induction Hrow as [|cell row Hcell Hrow IHr]; intros [|b mr] Hlen; try done.
  cbn [zip_with]. f_equal.
  - destruct b; [by apply reflect_reflect|done].
  - apply IHr. simpl in Hlen. congruence.
Qed.

(** X15.  The bounce-back is an involution.  On a grid of populations with
    the shape of the wall mask, applying the bounce-back of
    [lbm_iteration] twice gives the populations back: in a wall cell every
    population returns to its direction, and no other cell is touched. *)
Theorem bounce_back_twice (n m : nat) (wall : grid bool) (f : grid (list Q)) :
  has_shape n m wall →
  has_shape3 n m f →
  bounce_back_f wall (bounce_back_f wall f) = f.
Proof.
  intros Hw [Hf Hc].
  pose proof (bounce_back_f_shape _ _ _ _ Hw (conj Hf Hc)) as [Hb _].
  rewrite (bounce_back_f_cells n m _ (bounce_back_f wall f)) by done.
  rewrite (bounce_back_f_cells n m) by done.
  apply reflect_mask_twice; [by apply (same_shape n m)|done].
Qed.

(** * What the default handlers write *)

Section Scatter.
Context {A B : Type}.
Implicit Types (m : list bool) (row vals : list A) (t : list B)
  (mask : grid bool) (a : grid A) (tt : grid B).

(** Writing under a mask a function of what was read, under the same
    mask, from another array. *)
Lemma scatter_row_from (h : B → A) m row t vals :
  length m = length row → length m = length t →
  scatter_row m row ((h <$> compress m t) ++ vals)
  = (zip3_with (λ (b : bool) x u, if b then h u else x) m row t, vals).
Proof.
  revert row t. induction m as [|b m IH]; intros [|x row] [|u t] Hr Ht; try done.
  injection Hr as Hr. injection Ht as Ht.
  unfold zip3_with in *.
  destruct b; cbn [scatter_row compress fmap list_fmap app zip zip_with fst snd].
  - by rewrite (IH row t Hr Ht).
  - by rewrite (IH row t Hr Ht).
Qed.

Lemma scatter_from (h : B → A) mask a tt vals :
  Forall2 (λ m row, length m = length row) mask a →
  Forall2 (λ m t, length m = length t) mask tt →
  scatter mask a ((h <$> mask_get mask tt) ++ vals)
  = (zip3_with (zip3_with (λ (b : bool) x u, if b then h u else x)) mask a tt, vals).
Proof.
  intros Hs. revert tt vals.
  induction Hs as [|m row mask a Hlen _ IH]; intros tt vals Ht.
  - by inversion Ht.
  - inversion Ht as [|m' t mask' tt' Hlen' Ht']; subst.
    unfold mask_get. cbn [scatter zip_with concat].
    rewrite fmap_app, <- app_assoc, scatter_row_from by done.
    unfold mask_get in IH. rewrite (IH tt' vals Ht'). done.
Qed.

Lemma mask_set_from (h : B → A) mask a tt :
  Forall2 (λ m row, length m = length row) mask a →
  Forall2 (λ m t, length m = length t) mask tt →
  mask_set mask a (h <$> mask_get mask tt)
  = zip3_with (zip3_with (λ (b : bool) x u, if b then h u else x)) mask a tt.
Proof.
  intros Hs Ht. unfold mask_set.
  rewrite <- (app_nil_r (h <$> _)). by rewrite scatter_from.
Qed.

Lemma entry_zip3_with_mask (h : B → A) mask a tt (x y : nat) :
  entry (zip3_with (zip3_with (λ (b : bool) v u, if b then h u else v)) mask a tt) x y
  = (b ← entry mask x y; v ← entry a x y; u ← entry tt x y;
     Some (if b : bool then h u else v)).
Proof.
  unfold entry. rewrite lookup_zip3_with.
  destruct (mask !! x) as [m|]; [|done].
  destruct (a !! x) as [row|]; cbn [mbind option_bind].
  - destruct (tt !! x) as [t|]; cbn [mbind option_bind].
    + rewrite lookup_zip3_with.
      destruct (m !! y); [|done]. by destruct (row !! y).
    + destruct (m !! y); [|done]. by destruct (row !! y).
  - by destruct (m !! y).
Qed.
End Scatter.

Lemma compress_zip3 {A B C D} (g : A → B → C → D) (m : list bool) l1 l2 l3 :
  length m = length l1 → length m = length l2 → length m = length l3 →
  compress m (zip3_with g l1 l2 l3)
  = zip3_with g (compress m l1) (compress m l2) (compress m l3).
Proof.
  unfold zip3_with. revert l1 l2 l3.
  induction m as [|b m IH]; intros [|a l1] [|b' l2] [|c' l3] H1 H2 H3; try done.
  injection H1 as H1. injection H2 as H2. injection H3 as H3.
  cbn [zip zip_with compress]. destruct b; cbn [zip zip_with fst snd].
  - by rewrite IH.
  - by apply IH.
Qed.

Lemma mask_get_zip3 {A B C D} (g : A → B → C → D) (n m : nat) (mask : grid bool)
    (a : grid A) (b : grid B) (c' : grid C) :
  has_shape n m mask → has_shape n m a → has_shape n m b → has_shape n m c' →
  mask_get mask (zip3_with (zip3_with g) a b c')
  = zip3_with g (mask_get mask a) (mask_get mask b) (mask_get mask c').
Proof.
  revert mask a b c'. induction n as [|n IH]; intros mask a b c' Hm Ha Hb Hc.
  - destruct mask; [done|by destruct Hm].
  - destruct mask as [|rm mask]; [by destruct Hm|].
    destruct a as [|ra a]; [by destruct Ha|].
    destruct b as [|rb b]; [by destruct Hb|].
    destruct c' as [|rc c']; [by destruct Hc|].
    apply has_shape_cons in Hm as [Hrm Hm], Ha as [Hra Ha], Hb as [Hrb Hb],
      Hc as [Hrc Hc].
    unfold mask_get in *. unfold zip3_with at 1.
    cbn [zip zip_with concat fst snd].
    fold (zip3_with (zip3_with g) a b c').
    fold (zip3_with g ra rb rc).
    rewrite (IH mask a b c') by done.
    rewrite compress_zip3 by congruence.
    symmetry. apply zip3_with_app.
    + apply length_compress_same; congruence.
    + apply length_compress_same; congruence.
Qed.

Lemma zip3_with_const {A B C D E} (g : B → C → D → E) (h : A → B) (l : list A)
    (a : C) (b : D) :
  zip3_with g (h <$> l) (replicate (length (h <$> l)) a)
    (replicate (length (h <$> l)) b)
  = (λ r, g (h r) a b) <$> l.
Proof.
  unfold zip3_with. induction l as [|x l IH]; [done|].
  cbn [fmap list_fmap length replicate zip zip_with fst snd]. f_equal.
  exact IH.
Qed.

Lemma zip3_with_fmap_tuple {A B C D} (g : A → B → C → D) l1 l2 l3 :
  zip3_with g l1 l2 l3
  = (λ p : A * B * C, g p.1.1 p.1.2 p.2) <$> zip3_with (λ a b c, (a, b, c)) l1 l2 l3.
Proof.
  unfold zip3_with. revert l2 l3.
  induction l1 as [|a l1 IH]; intros [|b l2] [|c l3]; try done.
  cbn [zip zip_with fmap list_fmap fst snd]. f_equal. apply IH.
Qed.

Lemma zip3_shape {A B C D} (g : A → B → C → D) (n m : nat)
    (a : grid A) (b : grid B) (c' : grid C) :
  has_shape n m a → has_shape n m b → has_shape n m c' →
  has_shape n m (zip3_with (zip3_with g) a b c').
Proof.
  intros [Ha1 Ha2] [Hb1 Hb2] [Hc1 Hc2]. split.
  - by apply length_zip3_with.
  - apply Forall_forall. intros row Hrow.
    apply list_elem_of_lookup in Hrow as [k Hk].
    rewrite lookup_zip3_with in Hk.
    destruct (a !! k) as [ra|] eqn:Hra; [|done].
    destruct (b !! k) as [rb|] eqn:Hrb; [|done].
    destruct (c' !! k) as [rc|] eqn:Hrc; [|done].
    cbn [mbind option_bind] in Hk. injection Hk as <-.
    apply length_zip3_with.
    + eapply Forall_forall in Ha2; [exact Ha2|by eapply list_elem_of_lookup_2].
    + eapply Forall_forall in Hb2; [exact Hb2|by eapply list_elem_of_lookup_2].
    + eapply Forall_forall in Hc2; [exact Hc2|by eapply list_elem_of_lookup_2].
Qed.

(** X16.  What the default inlet handler writes.  In a model whose inlet
    mask, density and populations have the shape of one grid, the handler
    returns and changes nothing but the populations: every inlet cell holds
    the equilibrium of density 1 and velocity [(u_lb, 0)], whatever it held
    before, and every other cell holds what it held. *)
Theorem inlet_handler_spec (n m : nat) (it : nat) (model : LBM) :
  has_shape n m (inlet model) →
  has_shape n m (rho model) →
  has_shape n m (f model) →
  ∃ v,
    inlet_handler it model = Ok () (set_f v model)
    ∧ ∀ x y cell, entry (f model) x y = Some cell →
        ∃ b : bool,
          entry (inlet model) x y = Some b
          ∧ entry v x y
            = Some (if b then equilibrium_cell (cssq model) 1 (u_lb model) 0
                    else cell).
Proof.
  intros Hi Hr Hf. unfold inlet_handler. cbv zeta.
  rewrite get_equilibrium_rows.
  rewrite broadcast_array by done.
  cbn [broadcast mbind option_bind]. eexists. split; [done|].
  intros x y cell Hcell. unfold f_eq_rows.
  rewrite zip3_with_const.
  rewrite (mask_set_from (λ _ : Q, equilibrium_cell (cssq model) 1 (u_lb model) 0))
    by (by apply (same_shape n m)).
  rewrite entry_zip3_with_mask, Hcell.
  destruct (entry_Some_lt _ _ _ _ _ _ Hf Hcell) as [Hx Hy].
  destruct (entry_is_Some _ _ _ x y Hi Hx Hy) as [b ->].
  destruct (entry_is_Some _ _ _ x y Hr Hx Hy) as [r ->].
  by exists b.
Qed.

(** X17.  What the default outlet handler writes.  In a model whose outlet
    mask, moments and populations have the shape of one grid, the handler
    returns and changes nothing but the populations: every outlet cell
    holds the equilibrium of the density and the velocity stored for that
    cell, and every other cell holds what it held. *)
Theorem outlet_handler_spec (n m : nat) (model : LBM) :
  has_shape n m (outlet model) →
  has_shape n m (rho model) →
  has_shape n m (ux model) →
  has_shape n m (uy model) →
  has_shape n m (f model) →
  ∃ v,
    outlet_handler model = Ok () (set_f v model)
    ∧ ∀ x y cell, entry (f model) x y = Some cell →
        ∃ (b : bool) (r u0 u1 : Q),
          entry (outlet model) x y = Some b
          ∧ entry (rho model) x y = Some r
          ∧ entry (ux model) x y = Some u0
          ∧ entry (uy model) x y = Some u1
          ∧ entry v x y
            = Some (if b then equilibrium_cell (cssq model) r u0 u1 else cell).
Proof.
  intros Ho Hr Hx Hy Hf. unfold outlet_handler. cbv zeta.
  rewrite get_equilibrium_rows.
  rewrite !broadcast_array; try done; try by apply (length_mask_get_same n m).
  cbn [mbind option_bind]. eexists. split; [done|].
  intros x y cell Hcell. unfold f_eq_rows.
  rewrite zip3_with_fmap_tuple.
  rewrite <- (mask_get_zip3 _ n m) by done.
  rewrite (mask_set_from
             (λ p : Q * Q * Q, equilibrium_cell (cssq model) p.1.1 p.1.2 p.2));
    [|by apply (same_shape n m)
     |apply (same_shape n m); [done|by apply zip3_shape]].
  rewrite entry_zip3_with_mask, Hcell.
  destruct (entry_Some_lt _ _ _ _ _ _ Hf Hcell) as [Hlx Hly].
  destruct (entry_is_Some _ _ _ x y Ho Hlx Hly) as [b Hb].
  destruct (entry_is_Some _ _ _ x y Hr Hlx Hly) as [r Hre].
  destruct (entry_is_Some _ _ _ x y Hx Hlx Hly) as [u0 Hu0].
  destruct (entry_is_Some _ _ _ x y Hy Hlx Hly) as [u1 Hu1].
  exists b, r, u0, u1. rewrite Hb. do 4 (split; [done|]).
  cbn [mbind option_bind].
  assert (entry (zip3_with (zip3_with (λ a b0 c', (a, b0, c')))
                   (rho model) (ux model) (uy model)) x y
          = Some (r, u0, u1)) as ->; [|done].
  unfold entry in *. rewrite lookup_zip3_with.
  destruct (rho model !! x) as [rr|]; [|done].
  destruct (ux model !! x) as [rx|]; [|done].
  destruct (uy model !! x) as [ry|]; [|done].
  cbn [mbind option_bind] in *. rewrite lookup_zip3_with, Hre, Hu0, Hu1. done.
Qed.

(** * Reading a map *)

Lemma read_chars_events (width i j : nat) (chars : list Ascii.ascii) (ms : masks) :
  read_chars width i j chars ms = run_events width (chars_from i j chars) ms.
Proof.
  revert j ms. induction chars as [|ch chars IH]; intros j ms; [done|].
  cbn [read_chars chars_from run_events].
  destruct (read_char width i j ch ms); [done|apply IH].
Qed.

Lemma run_events_app (width : nat) (es1 es2 : list (nat * nat * Ascii.ascii))
    (ms : masks) :
  run_events width (es1 ++ es2) ms
  = match run_events width es1 ms with
    | inr ms' => run_events width es2 ms'
    | inl e => inl e
    end.
Proof.
  revert ms. induction es1 as [|[[i j] ch] es1 IH]; intros ms; [done|].
  cbn [app run_events]. destruct (read_char width i j ch ms); [done|apply IH].
Qed.

Lemma read_lines_events (width i : nat) (lines : list string) (ms : masks) :
  read_lines width i lines ms = run_events width (events_from i lines) ms.
Proof.
  revert i ms. induction lines as [|line lines IH]; intros i ms; [done|].
  cbn [read_lines events_from]. rewrite run_events_app, read_chars_events.
  destruct (run_events width _ ms); [done|apply IH].
Qed.

Lemma elem_of_chars_from (i j : nat) (chars : list Ascii.ascii)
    (ev : nat * nat * Ascii.ascii) :
  ev ∈ chars_from i j chars
  ↔ ev.1.1 = i ∧ (j ≤ ev.1.2)%nat ∧ chars !! (ev.1.2 - j)%nat = Some ev.2.
Proof.
  revert j. induction chars as [|ch chars IH]; intros j.
  - cbn [chars_from]. split; [by intros ?%elem_of_nil|by intros (_ & _ & ?)].
  - cbn [chars_from]. rewrite elem_of_cons, IH. destruct ev as [[i' j'] ch'].
    cbn [fst snd]. split.
    + intros [[= -> -> ->]|(-> & Hj & Hch)].
      * split; [done|]. split; [done|]. by rewrite Nat.sub_diag.
      * split; [done|]. split; [lia|].
        replace (j' - j)%nat with (S (j' - S j)) by lia. done.
    + intros (-> & Hj & Hch). destruct (decide (j' = j)) as [->|Hne].
      * left. rewrite Nat.sub_diag in Hch. by injection Hch as ->.
      * right. split; [done|]. split; [lia|].
        replace (j' - j)%nat with (S (j' - S j)) in Hch by lia. done.
Qed.

Lemma elem_of_events_from (i : nat) (lines : list string)
    (ev : nat * nat * Ascii.ascii) :
  ev ∈ events_from i lines
  ↔ (i ≤ ev.1.1)%nat
    ∧ ∃ line, lines !! (ev.1.1 - i)%nat = Some line
              ∧ strip line !! ev.1.2 = Some ev.2.
Proof.
  revert i. induction lines as [|line lines IH]; intros i.
  - cbn [events_from]. split; [by intros ?%elem_of_nil|by intros (_ & ? & ? & _)].
  - cbn [events_from]. rewrite elem_of_app, elem_of_chars_from, IH.
    destruct ev as [[i' j'] ch']. cbn [fst snd]. rewrite Nat.sub_0_r. split.
    + intros [(-> & _ & Hch)|(Hi & l & Hl & Hch)].
      * split; [done|]. exists line. by rewrite Nat.sub_diag.
      * split; [lia|]. exists l. split; [|done].
        replace (i' - i)%nat with (S (i' - S i)) by lia. done.
    + intros (Hi & l & Hl & Hch). destruct (decide (i' = i)) as [->|Hne].
      * left. rewrite Nat.sub_diag in Hl. injection Hl as ->.
        split; [done|]. split; [lia|done].
      * right. split; [lia|]. exists l. split; [|done].
        replace (i' - i)%nat with (S (i' - S i)) in Hl by lia. done.
Qed.

Lemma elem_of_events (lines : list string) (i j : nat) (ch : Ascii.ascii) :
  (i, j, ch) ∈ events_from 1 lines ↔ char_at lines i j = Some ch.
Proof.
  rewrite elem_of_events_from. cbn [fst snd].
  destruct i as [|k]; cbn [char_at].
  - split; [intros [? _]; lia|done].
  - replace (S k - 1)%nat with k by lia. split.
    + by intros (_ & line & -> & Hch).
    + intros H. split; [lia|]. destruct (lines !! k) as [line|]; [|done].
      by exists line.
Qed.

Lemma norm_index_lt (n : nat) (k : Z) (y : nat) :
  norm_index n k = Some y → (y < n)%nat.
Proof.
  unfold norm_index. repeat case_decide; intros [= <-]; lia.
Qed.

Lemma mark_spec (n : nat) (a : grid bool) (j : nat) (k : Z) :
  has_shape n n a →
  match mark a j k with
  | inr a' =>
      (j < n)%nat
      ∧ ∃ y, norm_index n k = Some y
             ∧ has_shape n n a'
             ∧ ∀ x y', entry a' x y' = Some true
                       ↔ entry a x y' = Some true ∨ (x = j ∧ y' = y)
  | inl e => e = IndexError ∧ ¬ ((j < n)%nat ∧ is_Some (norm_index n k))
  end.
Proof.
  intros Ha. unfold mark.
  destruct (a !! j) as [row|] eqn:Hrow.
  - pose proof (has_shape_lookup _ _ _ _ _ Ha Hrow) as Hlen. rewrite Hlen.
    pose proof (lookup_lt_Some _ _ _ Hrow) as Hj.
    destruct (norm_index n k) as [y|] eqn:Hk.
    + pose proof (norm_index_lt _ _ _ Hk) as Hy.
      split; [by destruct Ha as [<- _]|]. exists y. split; [done|]. split.
      * destruct Ha as [Hn Hm]. split; [by rewrite length_insert|].
        apply Forall_insert; [done|]. by rewrite length_insert.
      * intros x y'. unfold entry.
        destruct (decide (x = j)) as [->|Hne].
        -- rewrite list_lookup_insert_eq, Hrow by done. cbn [mbind option_bind].
           destruct (decide (y' = y)) as [->|Hney].
           ++ rewrite list_lookup_insert_eq by lia. split; [by right|done].
           ++ rewrite list_lookup_insert_ne by done. split; [by left|].
              intros [?|[_ ?]]; done.
        -- rewrite list_lookup_insert_ne by done. split; [by left|].
           intros [?|[? _]]; done.
    + split; [done|]. by intros [_ [? ?]].
  - split; [done|]. intros [Hj _]. apply lookup_ge_None in Hrow.
    destruct Ha as [Hn _]. lia.
Qed.

Lemma is_code_cases (d : nat) :
  is_code d → d = 1%nat ∨ d = 2%nat ∨ d = 3%nat ∨ d = 4%nat ∨ d = 5%nat.
Proof. unfold is_code. lia. Qed.

Lemma masks_shape_intro (n : nat) (a1 a2 a3 a4 a5 : grid bool) :
  has_shape n n a1 → has_shape n n a2 → has_shape n n a3 →
  has_shape n n a4 → has_shape n n a5 →
  masks_shape n (mkMasks a1 a2 a3 a4 a5).
Proof.
  intros H1 H2 H3 H4 H5 d. do 5 (destruct d as [|d]; [done|]). done.
Qed.

Ltac marked_case Hsh width j i d0 :=
  let Hm := fresh "Hm" in
  let a' := fresh "a'" in
  let e := fresh "e" in
  pose proof (mark_spec width _ j (Z.of_nat width - Z.of_nat i) (Hsh d0)) as Hm;
  cbn [mask_of] in Hm;
  match type of Hm with
  | match ?t with _ => _ end => destruct t as [e|a']
  end;
  [ destruct Hm as [-> Hno]; split;
    [ intros (code & [= <-] & Hfit); apply Hno, Hfit; unfold is_code; lia
    | right; split; [done|]; eexists; split; [done|]; unfold is_code; lia ]
  | destruct Hm as (Hj & y0 & Hy0 & Ha' & Hentry); split; [|split];
    [ apply masks_shape_intro; first [exact Ha' | apply (Hsh 1%nat)
        | apply (Hsh 2%nat) | apply (Hsh 3%nat) | apply (Hsh 4%nat)
        | apply (Hsh 5%nat)]
    | eexists; split; [done|]; intros _; split; [done|];
      unfold target; rewrite Hy0; by eexists
    | intros d x y Hd; unfold target;
      destruct (is_code_cases d Hd) as [-> | [-> | [-> | [-> | ->]]]];
      cbn [mask_of m_wall m_inlet m_outlet m_infected m_susceptible];
      rewrite ?Hentry, ?Hy0;
      split; try (intros [?|(? & ? & ?)]; done); try (by left);
      try (intros [?|(-> & [= ->])]; [by left|by right]);
      try (intros [?|(_ & <- & [= <-])]; [by left|by right]) ] ].

Lemma read_char_spec (width i j : nat) (ch : Ascii.ascii) (ms : masks) :
  masks_shape width ms →
  match read_char width i j ch ms with
  | inr ms' =>
      masks_shape width ms'
      ∧ fits width (i, j, ch)
      ∧ ∀ d x y, is_code d →
          (entry (mask_of d ms') x y = Some true
           ↔ entry (mask_of d ms) x y = Some true
             ∨ (int_of_char ch = Some d ∧ j = x ∧ target width i = Some y))
  | inl e =>
      ¬ fits width (i, j, ch)
      ∧ (e = ValueError ∧ int_of_char ch = None
         ∨ e = IndexError ∧ ∃ code, int_of_char ch = Some code ∧ is_code code)
  end.
Proof.
  intros Hsh. unfold read_char, fits. cbn [fst snd].
  destruct (int_of_char ch) as [code|] eqn:Hcode.
  - cbv zeta. unfold WALL, INLET, OUTLET, INFECTED, SUSCEPTIBLE.
    destruct code as [|code].
    { cbn. split; [done|]. split.
      - eexists. split; [done|]. unfold is_code. lia.
      - intros d x y Hd. split; [by left|]. intros [?|([= <-] & _)]; [done|].
        unfold is_code in Hd. lia. }
    destruct code as [|code]; [cbn [decide]; rewrite decide_True by done;
      marked_case Hsh width j i 1%nat|].
    destruct code as [|code]; [rewrite decide_False, decide_True by done;
      marked_case Hsh width j i 2%nat|].
    destruct code as [|code];
      [rewrite decide_False, decide_False, decide_True by done;
       marked_case Hsh width j i 3%nat|].
    destruct code as [|code];
      [rewrite decide_False, decide_False, decide_False, decide_True by done;
       marked_case Hsh width j i 4%nat|].
    destruct code as [|code];
      [rewrite decide_False, decide_False, decide_False, decide_False,
         decide_True by done;
       marked_case Hsh width j i 5%nat|].
    rewrite !decide_False by done. split; [done|]. split.
    + eexists. split; [done|]. unfold is_code. lia.
    + intros d x y Hd. split; [by left|]. intros [?|([= <-] & _)]; [done|].
      unfold is_code in Hd. lia.
  - split; [|by left]. by intros (code & ? & _).
Qed.

Lemma run_events_spec (width : nat) (es : list (nat * nat * Ascii.ascii))
    (ms : masks) :
  masks_shape width ms →
  match run_events width es ms with
  | inr ms' =>
      masks_shape width ms'
      ∧ Forall (fits width) es
      ∧ ∀ d x y, is_code d →
          (entry (mask_of d ms') x y = Some true
           ↔ entry (mask_of d ms) x y = Some true
             ∨ ∃ i ch, (i, x, ch) ∈ es ∧ int_of_char ch = Some d
                       ∧ target width i = Some y)
  | inl e =>
      (e = ValueError ∧ ∃ ev, ev ∈ es ∧ int_of_char ev.2 = None)
      ∨ (e = IndexError
         ∧ ∃ ev code, ev ∈ es ∧ ¬ fits width ev
                      ∧ int_of_char ev.2 = Some code ∧ is_code code)
  end.
Proof.
  revert ms. induction es as [|[[i j] ch] es IH]; intros ms Hsh.
  - cbn [run_events]. split; [done|]. split; [constructor|].
    intros d x y _. split; [by left|]. intros [?|(? & ? & ?%elem_of_nil & _)]; done.
  - cbn [run_events]. pose proof (read_char_spec width i j ch ms Hsh) as Hstep.
    destruct (read_char width i j ch ms) as [e|ms1].
    + destruct Hstep as [Hno [[-> Hch]|[-> (code & Hch & Hcode)]]].
      * left. split; [done|]. exists (i, j, ch). split; [left|done].
      * right. split; [done|]. exists (i, j, ch), code.
        split; [left|]. done.
    + destruct Hstep as (Hsh1 & Hfit & Hent).
      specialize (IH ms1 Hsh1).
      destruct (run_events width es ms1) as [e|ms'].
      * destruct IH as [[-> (ev & Hev & Hch)]|[-> (ev & code & Hev & Hrest)]].
        -- left. split; [done|]. exists ev. split; [by right|done].
        -- right. split; [done|]. exists ev, code. split; [by right|done].
      * destruct IH as (Hsh' & Hall & Hent'). split; [done|].
        split; [by constructor|].
        intros d x y Hd. rewrite (Hent' d x y Hd), (Hent d x y Hd). split.
        -- intros [[?|(Hch & -> & Ht)]|(i' & ch' & Hin & Hrest)].
           ++ by left.
           ++ right. exists i, ch. split; [left|done].
           ++ right. exists i', ch'. split; [by right|done].
        -- intros [?|(i' & ch' & Hin & Hch & Ht)]; [by left; left|].
           apply elem_of_cons in Hin as [[= -> -> ->]|Hin].
           ++ left. right. done.
           ++ right. by exists i', ch'.
Qed.

Lemma blank_entry (n x y : nat) :
  entry (replicate n (replicate n false)) x y ≠ Some true.
Proof.
  unfold entry. intros H.
  destruct (replicate n (replicate n false) !! x) as [row|] eqn:Hrow; [|done].
  apply lookup_replicate in Hrow as [-> _]. cbn [mbind option_bind] in H.
  by apply lookup_replicate in H as [? _].
Qed.

Lemma read_map_loop_run (width : nat) (lines : list string) :
  match read_map_loop width lines with
  | inr ms =>
      masks_shape width ms
      ∧ (∀ i j ch, char_at lines i j = Some ch → fits width (i, j, ch))
      ∧ ∀ d x y, is_code d →
          (entry (mask_of d ms) x y = Some true ↔ written width lines d x y)
  | inl e =>
      (e = ValueError
       ∧ ∃ i j ch, char_at lines i j = Some ch ∧ int_of_char ch = None)
      ∨ (e = IndexError
         ∧ ∃ i j ch code, char_at lines i j = Some ch
             ∧ int_of_char ch = Some code ∧ is_code code
             ∧ ¬ ((j < width)%nat ∧ is_Some (target width i)))
  end.
Proof.
  unfold read_map_loop. cbv zeta. rewrite read_lines_events.
  set (blank := replicate width (replicate width false)).
  pose proof (run_events_spec width (events_from 1 lines)
                (mkMasks blank blank blank blank blank)) as Hrun.
  destruct (run_events width _ _) as [e|ms].
  - destruct Hrun as [[-> ([[i j] ch] & Hev & Hch)]|[-> ([[i j] ch] & code & Hev & Hno & Hch & Hcode)]].
    + apply masks_shape_intro; apply replicate_shape.
    + left. split; [done|]. exists i, j, ch. by apply elem_of_events in Hev.
    + right. split; [done|]. exists i, j, ch, code.
      apply elem_of_events in Hev. split; [done|]. split; [done|]. split; [done|].
      intros Hfit. apply Hno. exists code. by split.
  - destruct Hrun as (Hsh & Hall & Hent).
    { apply masks_shape_intro; apply replicate_shape. }
    split; [done|]. split.
    + intros i j ch Hch. apply elem_of_events in Hch.
      eapply Forall_forall in Hall; [exact Hall|done].
    + intros d x y Hd. rewrite (Hent d x y Hd). unfold written. split.
      * intros [Hblank|(i & ch & Hin & Hrest)].
        -- exfalso. revert Hblank.
           destruct (is_code_cases d Hd) as [-> | [-> | [-> | [-> | ->]]]];
             apply blank_entry.
        -- exists i, ch. by apply elem_of_events in Hin.
      * intros (i & ch & Hin & Hrest). right. exists i, ch.
        by apply elem_of_events in Hin.
Qed.

(** Where a line goes: line [i] of the first [width] lines is written to
    the column [width - i]; of the next [width] ones, to [2 * width - i];
    a later line has no column. *)
Lemma target_spec (width i y : nat) :
  (1 ≤ i)%nat →
  target width i = Some y
  ↔ ((i ≤ width)%nat ∧ y = (width - i)%nat)
    ∨ ((width < i ≤ 2 * width)%nat ∧ y = (2 * width - i)%nat).
Proof.
  intros Hi. unfold target, norm_index. repeat case_decide; split;
    try (intros [= <-]); try (intros [[? ->]|[? ->]]); try lia; try done.
  all: try (left; split; lia). all: try (right; split; lia).
  all: f_equal; lia.
Qed.

Lemma char_at_line (lines : list string) (i j : nat) (ch : Ascii.ascii) :
  char_at lines i j = Some ch →
  (1 ≤ i ≤ length lines)%nat
  ∧ ∃ line, lines !! (i - 1)%nat = Some line ∧ strip line !! j = Some ch.
Proof.
  destruct i as [|k]; [done|]. cbn [char_at]. intros H.
  destruct (lines !! k) as [line|] eqn:Hline; [|done].
  pose proof (lookup_lt_Some _ _ _ Hline). split; [lia|].
  exists line. replace (S k - 1)%nat with k by lia. done.
Qed.

(** X18.  Which map files the loop accepts, and what it stores.  The loop of
    [read_map_from_file] over the lines after the first returns exactly
    when every character of every stripped line is a decimal digit and
    every digit from 1 to 5 stands at a position below [width] in one of
    the first [2 * width] lines.  It then leaves five arrays of shape
    (width, width), and the array of a code from 1 to 5 is true at
    [(x, y)] exactly when some line [i] has that code at position [x] and
    [width - i], as an index that may be negative, is [y].  Otherwise it
    raises [ValueError] for a character that is no digit, or [IndexError]
    for a digit from 1 to 5 outside of the arrays. *)
Theorem read_map_loop_spec (width : nat) (lines : list string) :
  ((∃ ms, read_map_loop width lines = inr ms)
   ↔ ∀ i j ch, char_at lines i j = Some ch → fits width (i, j, ch))
  ∧ (∀ ms, read_map_loop width lines = inr ms →
       masks_shape width ms
       ∧ ∀ d x y, is_code d →
           (entry (mask_of d ms) x y = Some true ↔ written width lines d x y))
  ∧ (∀ e, read_map_loop width lines = inl e →
       (e = ValueError
        ∧ ∃ i j ch, char_at lines i j = Some ch ∧ int_of_char ch = None)
       ∨ (e = IndexError
          ∧ ∃ i j ch code, char_at lines i j = Some ch
              ∧ int_of_char ch = Some code ∧ is_code code
              ∧ ¬ ((j < width)%nat ∧ is_Some (target width i)))).
Proof.
  pose proof (read_map_loop_run width lines) as Hrun.
  destruct (read_map_loop width lines) as [e|ms].
  - split; [|split]; [|done|by intros ? [= <-]].
    split; [by intros [? ?]|]. intros Hall. exfalso.
    destruct Hrun as [[_ (i & j & ch & Hch & Hno)]|[_ (i & j & ch & code & Hch & Hc & Hcode & Hno)]].
    + destruct (Hall i j ch Hch) as (code & Hc & _). cbn in Hc. congruence.
    + destruct (Hall i j ch Hch) as (code' & Hc' & Hfit). cbn in Hc', Hfit.
      apply Hno, Hfit. congruence.
  - destruct Hrun as (Hsh & Hall & Hent).
    split; [|split]; [|by intros ? [= <-]|done].
    split; [done|]. intros _. by exists ms.
Qed.

(** X19.  A well-formed map is stored transposed and flipped, each cell in at
    most one array.  For at most [width] lines whose stripped text is at
    most [width] decimal digits, the loop returns; the array of a code [d]
    from 1 to 5 is true at [(x, y)] exactly when the character at position
    [x] of line [width - y] is the digit [d] (so the first line after the
    header is the row [y = width - 1]), and no cell is true in two
    arrays. *)
Theorem well_formed_map (width : nat) (lines : list string) :
  (length lines ≤ width)%nat →
  Forall (λ line, (length (strip line) ≤ width)%nat
                  ∧ Forall (λ ch, is_Some (int_of_char ch)) (strip line)) lines →
  ∃ ms,
    read_map_loop width lines = inr ms
    ∧ masks_shape width ms
    ∧ (∀ d x y, is_code d → (x < width)%nat → (y < width)%nat →
         entry (mask_of d ms) x y
         = Some (bool_decide (char_at lines (width - y) x ≫= int_of_char = Some d)))
    ∧ (∀ d d' x y, is_code d → is_code d' →
         entry (mask_of d ms) x y = Some true →
         entry (mask_of d' ms) x y = Some true → d = d').
Proof.
  intros Hlen Hlines.
  assert (Hfits : ∀ i j ch, char_at lines i j = Some ch → fits width (i, j, ch)).
  { intros i j ch Hch.
    destruct (char_at_line _ _ _ _ Hch) as (Hi & line & Hline & Hj).
    eapply Forall_forall in Hlines; [|by eapply list_elem_of_lookup_2].
    destruct Hlines as [Hw Hdig].
    eapply Forall_forall in Hdig; [|by eapply list_elem_of_lookup_2].
    destruct Hdig as [code Hcode]. exists code. split; [done|]. intros _.
    cbn [fst snd]. apply lookup_lt_Some in Hj. split; [lia|].
    exists (width - i)%nat. apply target_spec; [lia|]. left. split; [lia|done]. }
  pose proof (read_map_loop_run width lines) as Hrun.
  destruct (read_map_loop width lines) as [e|ms].
  { exfalso.
    destruct Hrun as [[_ (i & j & ch & Hch & Hno)]|[_ (i & j & ch & code & Hch & Hc & Hcode & Hno)]].
    - destruct (Hfits i j ch Hch) as (code & Hc & _). cbn in Hc. congruence.
    - destruct (Hfits i j ch Hch) as (code' & Hc' & Hfit). cbn in Hc', Hfit.
      apply Hno, Hfit. congruence. }
  destruct Hrun as (Hsh & _ & Hent). exists ms. split; [done|]. split; [done|].
  assert (Hcell : ∀ d x y, is_code d →
            entry (mask_of d ms) x y = Some true
            ↔ (y < width)%nat
              ∧ char_at lines (width - y) x ≫= int_of_char = Some d).
  { intros d x y Hd. rewrite (Hent d x y Hd). unfold written. split.
    - intros (i & ch & Hch & Hcode & Ht).
      destruct (char_at_line _ _ _ _ Hch) as (Hi & _).
      apply target_spec in Ht as [[_ ->]|[? _]]; [|lia..].
      split; [lia|]. replace (width - (width - i))%nat with i by lia.
      by rewrite Hch.
    - intros [Hy Hcode].
      destruct (char_at lines (width - y) x) as [ch|] eqn:Hch; [|done].
      exists (width - y)%nat, ch. split; [done|]. split; [done|].
      apply target_spec; [lia|]. left. split; lia. }
  split.
  - intros d x y Hd Hx Hy.
    destruct (entry_is_Some _ _ _ x y (Hsh d) Hx Hy) as [b Hb]. rewrite Hb.
    f_equal. destruct b.
    + apply Hcell in Hb as [_ Hb]; [|done]. by rewrite bool_decide_eq_true_2.
    + symmetry. apply bool_decide_eq_false_2. intros Hcode.
      assert (entry (mask_of d ms) x y = Some true) as Hb'
        by (by apply Hcell). congruence.
  - intros d d' x y Hd Hd' H1 H2.
    apply Hcell in H1 as [_ H1]; [|done]. apply Hcell in H2 as [_ H2]; [|done].
    congruence.
Qed.

(** X20.  Surplus lines wrap around.  When the loop returns for a map with
    more than [width] lines, a digit from 1 to 5 in line [i] beyond the
    first [width] lines has not been refused: it is stored at the column
    [2 * width - i], on top of what line [i - width] stored there. *)
Theorem surplus_lines_wrap (width : nat) (lines : list string) (ms : masks)
    (i j d : nat) (ch : Ascii.ascii) :
  read_map_loop width lines = inr ms →
  (width < i)%nat →
  char_at lines i j = Some ch →
  int_of_char ch = Some d →
  is_code d →
  (i ≤ 2 * width)%nat ∧ (j < width)%nat
  ∧ entry (mask_of d ms) j (2 * width - i) = Some true.
Proof.
  intros Hrun Hi Hch Hcode Hd.
  pose proof (read_map_loop_run width lines) as Hspec. rewrite Hrun in Hspec.
  destruct Hspec as (Hsh & Hall & Hent).
  destruct (Hall i j ch Hch) as (code & Hc & Hfit). cbn [fst snd] in Hc, Hfit.
  assert (code = d) as -> by congruence.
  destruct (Hfit Hd) as [Hj [y Hy]].
  pose proof Hy as Hy'. apply target_spec in Hy' as [[? _]|[? ->]]; [lia| |lia].
  split; [lia|]. split; [done|].
  apply (Hent d j _ Hd). by exists i, ch.
Qed.

(** * The further results on concrete models *)

Lemma lbm_iteration_keeps_shapes_witness :
  let s' := final_state (lbm_iteration inlet_handler outlet_handler 0 probe3) in
  fluid_shapes s'
  ∧ has_shape (width s') (height s') (rho s')
  ∧ ∃ r x y v, s' = set_f v (set_moments r x y probe3).
Proof.
  apply (lbm_iteration_keeps_shapes probe3 0). exact probe3_shapes.
Defined.

Lemma render_loop_conserves_mass_witness :
  total_density
    (f (final_state
          (render_loop inlet_handler outlet_handler true (λ _, 0%nat) 3 probe3)))
  == total_density (f probe3).
Proof.
  apply (render_loop_conserves_mass probe3 true (λ _, 0%nat) 3).
  - exact probe3_shapes.
  - reflexivity.
  - vm_compute. repeat constructor.
  - vm_compute. repeat constructor.
Defined.

Lemma new_LBM_well_formed_witness :
  ∃ s,
    new_LBM 3 1 cavity_walls (no_cells 3) (no_cells 3) centre corner
      (InitCavity 100) = inr s
    ∧ width s = 3%nat ∧ height s = 3%nat
    ∧ fluid_shapes s
    ∧ cssq s = 1 # 3
    ∧ 1 # 2 < tau s
    ∧ at_rest (f s)
    ∧ total_density (f s) == inject_Z (Z.of_nat (3 * 3))
    ∧ particle_nr s = 0%nat
    ∧ num_particles s = 50%nat.
Proof.
  apply (new_LBM_well_formed 3 1 cavity_walls (no_cells 3) (no_cells 3) centre
           corner (InitCavity 100)).
  - lia.
  - reflexivity.
  - split; [reflexivity|repeat constructor].
  - split; [reflexivity|repeat constructor].
  - split; [reflexivity|repeat constructor].
Defined.

Lemma cavity3_calm : calm cavity3.
Proof.
  split.
  - exact cavity3_shapes.
  - vm_compute. lia.
  - vm_compute. lia.
  - reflexivity.
  - intros H. vm_compute in H. discriminate.
  - left. vm_compute. repeat constructor.
  - vm_compute. repeat constructor.
Qed.

Lemma rest_is_steady_witness :
  ∃ s', lbm_iteration inlet_handler outlet_handler 0 cavity3 = Ok () s'
        ∧ at_rest (f s')
        ∧ uniform 1 (rho s') ∧ uniform 0 (ux s') ∧ uniform 0 (uy s')
        ∧ fluid_shapes s'.
Proof.
  apply (rest_is_steady cavity3 0).
  - exact cavity3_shapes.
  - vm_compute. lia.
  - vm_compute. lia.
  - reflexivity.
  - intros H. vm_compute in H. discriminate.
  - left. vm_compute. repeat constructor.
  - vm_compute. repeat constructor.
Defined.

Lemma render_loop_stays_at_rest_witness :
  let run := render_loop inlet_handler outlet_handler false (λ _, 0%nat) 2 cavity3 in
  calm (final_state run)
  ∧ at_rest (f (final_state run))
  ∧ (false = false → ∃ s', run = Ok () s').
Proof.
  apply (render_loop_stays_at_rest cavity3 false (λ _, 0%nat) 2).
  exact cavity3_calm.
Defined.

Lemma centre_clear_of (other : grid bool) :
  entry other 1 1 = Some false → clear_of centre other.
Proof.
  intros H x y. destruct x as [|[|[|x]]], y as [|[|[|y]]]; try done.
Qed.

Lemma no_ventilation_no_infection_witness :
  ∃ s0 s',
    new_LBM 3 1 (no_cells 3) (no_cells 3) vent centre corner InitDefault = inr s0
    ∧ render_loop inlet_handler outlet_handler true (λ _, 0%nat) 2 (render_init s0)
      = Ok () s'
    ∧ at_rest (f s')
    ∧ parked s'
    ∧ particles_exited s' = ∅
    ∧ infections s' = zeros NUM_SUSCEP_CENTROIDS ITERATIONS
    ∧ removed s' = replicate ITERATIONS 0.
Proof.
  apply (no_ventilation_no_infection 3 1 (no_cells 3) (no_cells 3) vent centre
           corner InitDefault (λ _, 0%nat) 2).
  - lia.
  - exact I.
  - split; [reflexivity|repeat constructor].
  - split; [reflexivity|repeat constructor].
  - split; [reflexivity|repeat constructor].
  - split; [reflexivity|repeat constructor].
  - split; [reflexivity|repeat constructor].
  - repeat constructor.
  - discriminate.
  - by apply centre_clear_of.
  - by apply centre_clear_of.
Defined.

Lemma every_exit_is_counted_once_witness :
  let s' := run_calls susceptible_centroids
              [((λ _, 0%nat), 0%nat); ((λ _, 0%nat), 1%nat)] room3 in
  tally s' - tally room3 == exits s' - exits room3
  ∧ particles_exited room3 ⊆ particles_exited s'
  ∧ stdout s' = stdout room3.
Proof.
  apply (every_exit_is_counted_once susceptible_centroids
           [((λ _, 0%nat), 0%nat); ((λ _, 0%nat), 1%nat)] ITERATIONS room3).
  - discriminate.
  - split; [reflexivity|]. repeat constructor.
  - vm_compute. lia.
  - vm_compute. lia.
Defined.

Lemma outlet_exit_spec_witness :
  ∃ s',
    particle_step susceptible_centroids 0 at_vent3 = Ok () s'
    ∧ removed s' = <[0%nat := 0 + 1]> (removed at_vent3)
    ∧ sumq (removed s') == sumq (removed at_vent3) + 1
    ∧ infections s' = infections at_vent3
    ∧ particles_exited s' = {[0%nat]} ∪ particles_exited at_vent3
    ∧ particle_locations s' = <[0%nat := (0, 0)]> (particle_locations at_vent3)
    ∧ particle_nr s' = particle_nr at_vent3
    ∧ stdout s' = stdout at_vent3.
Proof.
  apply (outlet_exit_spec susceptible_centroids 0 at_vent3 1 2 0).
  - reflexivity.
  - apply not_elem_of_empty.
  - reflexivity.
  - reflexivity.
  - reflexivity.
Defined.

Lemma spawn_on_infected_cell_witness :
  ∃ x y s',
    spawn (λ _, 0%nat) room3 = Ok () s'
    ∧ entry (infected room3) x y = Some true
    ∧ particle_locations s'
      = <[particle_nr room3 := (inject_Z (Z.of_nat x), inject_Z (Z.of_nat y))]>
          (particle_locations room3)
    ∧ particle_nr s' = S (particle_nr room3)
    ∧ particles_exited s' = particles_exited room3
    ∧ infections s' = infections room3
    ∧ removed s' = removed room3
    ∧ fluid_part s' = fluid_part room3.
Proof.
  apply (spawn_on_infected_cell (λ _, 0%nat) room3).
  - vm_compute. lia.
  - vm_compute. lia.
  - discriminate.
Defined.

Lemma no_source_raises_witness :
  update_particles_with susceptible_centroids (λ _, 0%nat) 0 dry3
  = Raise ValueError dry3.
Proof.
  apply (no_source_raises susceptible_centroids (λ _, 0%nat) 0 dry3).
  - vm_compute. repeat constructor.
  - discriminate.
  - reflexivity.
  - vm_compute. lia.
  - vm_compute. lia.
Defined.

Lemma room3_capacity : capacity room3.
Proof. split; [discriminate|discriminate|vm_compute; lia..]. Qed.

Lemma spawn_cadence_witness :
  ∃ s',
    update_particles_with susceptible_centroids (λ _, 0%nat) 0 room3 = Ok () s'
    ∧ particle_nr s'
      = (if decide (0 `mod` spawn_rate room3 = 0)%nat
         then Nat.min (particle_nr room3 + spawn_amount_at_rate room3)
                (num_particles room3)
         else particle_nr room3)
    ∧ (particle_nr s' ≤ num_particles s')%nat.
Proof.
  apply (spawn_cadence susceptible_centroids (λ _, 0%nat) 0 room3).
  - exact room3_geometry.
  - intros i x y Hi. vm_compute in Hi. lia.
  - exact room3_capacity.
Defined.

Lemma equilibrium_moments_witness :
  ∃ row r' x' y',
    f_eq_rows (1 # 3) [1; 2] [1 # 10; 1 # 10] [0; 1 # 5] !! 1%nat = Some row
    ∧ moment_update [[row]] = ([[r']], [[x']], [[y']])
    ∧ r' == 2 ∧ x' == 1 # 10 ∧ y' == 1 # 5.
Proof.
  apply (equilibrium_moments cavity3 2 (Array [1; 2]) (Scalar (1 # 10))
           (Array [0; 1 # 5]) _ 1 2 (1 # 10) (1 # 5));
    try reflexivity.
  intros H. vm_compute in H. discriminate.
Defined.

Lemma collision_conserves_moments_witness :
  ∃ f_eq,
    equilibrium_field (store_moments fast3) = Some f_eq
    ∧ grid_eq (moment_update (collide (tau fast3) (f fast3) f_eq)).1.1
        (moment_update (f fast3)).1.1
    ∧ grid_eq (moment_update (collide (tau fast3) (f fast3) f_eq)).1.2
        (moment_update (f fast3)).1.2
    ∧ grid_eq (moment_update (collide (tau fast3) (f fast3) f_eq)).2
        (moment_update (f fast3)).2.
Proof.
  apply (collision_conserves_moments fast3).
  - apply fast3_shapes.
  - reflexivity.
  - intros H. vm_compute in H. discriminate.
  - vm_compute. repeat constructor; intros H; vm_compute in H; discriminate.
Defined.

Lemma bounce_back_twice_witness :
  bounce_back_f cavity_walls (bounce_back_f cavity_walls (f probe3)) = f probe3.
Proof.
  apply (bounce_back_twice 3 3 cavity_walls (f probe3)).
  - split; [reflexivity|repeat constructor].
  - apply probe3_shapes.
Defined.

Lemma inlet_handler_spec_witness :
  ∃ v,
    inlet_handler 0 windy3 = Ok () (set_f v windy3)
    ∧ ∀ x y cell, entry (f windy3) x y = Some cell →
        ∃ b : bool,
          entry (inlet windy3) x y = Some b
          ∧ entry v x y
            = Some (if b then equilibrium_cell (cssq windy3) 1 (u_lb windy3) 0
                    else cell).
Proof.
  apply (inlet_handler_spec 3 3 0 windy3).
  - split; [reflexivity|repeat constructor].
  - split; [reflexivity|repeat constructor].
  - split; [reflexivity|repeat constructor].
Defined.

Lemma outlet_handler_spec_witness :
  ∃ v,
    outlet_handler windy3 = Ok () (set_f v windy3)
    ∧ ∀ x y cell, entry (f windy3) x y = Some cell →
        ∃ (b : bool) (r u0 u1 : Q),
          entry (outlet windy3) x y = Some b
          ∧ entry (rho windy3) x y = Some r
          ∧ entry (ux windy3) x y = Some u0
          ∧ entry (uy windy3) x y = Some u1
          ∧ entry v x y
            = Some (if b then equilibrium_cell (cssq windy3) r u0 u1 else cell).
Proof.
  apply (outlet_handler_spec 3 3 windy3).
  - split; [reflexivity|repeat constructor].
  - split; [reflexivity|repeat constructor].
  - split; [reflexivity|repeat constructor].
  - split; [reflexivity|repeat constructor].
  - split; [reflexivity|repeat constructor].
Defined.

Lemma well_formed_map_witness :
  ∃ ms,
    read_map_loop 3 tiny_map = inr ms
    ∧ masks_shape 3 ms
    ∧ (∀ d x y, is_code d → (x < 3)%nat → (y < 3)%nat →
         entry (mask_of d ms) x y
         = Some (bool_decide (char_at tiny_map (3 - y) x ≫= int_of_char = Some d)))
    ∧ (∀ d d' x y, is_code d → is_code d' →
         entry (mask_of d ms) x y = Some true →
         entry (mask_of d' ms) x y = Some true → d = d').
Proof.
  apply (well_formed_map 3 tiny_map).
  - vm_compute. lia.
  - repeat constructor; try (vm_compute; lia); by eexists.
Defined.

Lemma surplus_lines_wrap_witness :
  (3 ≤ 2 * 2)%nat ∧ (0 < 2)%nat
  ∧ entry (mask_of 2 (loaded (read_map_loop 2 tall_map))) 0 (2 * 2 - 3) = Some true.
Proof.
  apply (surplus_lines_wrap 2 tall_map (loaded (read_map_loop 2 tall_map)) 3 0 2
           (Ascii.ascii_of_nat 50)).
  - reflexivity.
  - lia.
  - reflexivity.
  - reflexivity.
  - unfold is_code. lia.
Defined.
